(** * pyicloud photo library: field normalisation, pagination, versions

    A shallow embedding of
    - [pyicloud/utils/photos.py]      ([parse_fields]) and
    - [pyicloud/services/photos.py]   ([PhotoAlbum.fetch_records] and the
      [PhotoAsset] accessors [filename], [item_type], [versions],
      [location], [mediaMetaData], [latitude], [longitude]).

    Python values are a tagged union, exceptions are an error result,
    the HTTP session is an injected query executor and a generator is
    the trace of the pages it fetches and the assets it yields. *)

From stdpp Require Import base option list strings gmap.
From Stdlib Require Import ZArith Ascii String.
From Stdlib.Strings Require Import Byte.
From Equations Require Import Equations.
From Equations.Prop Require Import Logic.

Set Warnings "-register-all".
Local Open Scope string_scope.
Local Open Scope Z_scope.

(** ** Exceptions and the error result *)

Module Py.

(** The exception classes the modelled code can raise.  [OtherError]
    stands for any further class (binascii.Error, struct.error, ...);
    its tag only names it. *)
Inductive exn :=
| KeyError
| TypeError
| IndexError
| AttributeError
| UnicodeDecodeError
| RecursionError
| BadMagicException
| OtherError (tag : string).

#[global] Instance exn_eq_dec : EqDecision exn.
Proof. solve_decision. Defined.

Inductive result (A : Type) :=
| Ok (a : A)
| Err (e : exn).
Arguments Ok {A} a.
Arguments Err {A} e.

#[global] Instance result_ret : MRet result := fun A a => Ok a.
#[global] Instance result_bind : MBind result := fun A B f r =>
  match r with
  | Ok a => f a
  | Err e => Err e
  end.

#[global] Instance result_fmap : FMap result := fun A B f r =>
  match r with
  | Ok a => Ok (f a)
  | Err e => Err e
  end.

Definition is_Ok {A} (r : result A) : Prop := exists a, r = Ok a.

(** ** Python values *)

(** JSON bodies and decoded property lists.  A [dict] keeps insertion
    order, as Python's does; its keys are strings (JSON object keys and
    the keys of the decoded structures the accessors read).  A float is
    carried as its IEEE-754 bit pattern: the code passes floats through
    and never computes on them. *)
Inductive pyvalue :=
| VNone
| VBool (b : bool)
| VInt (n : Z)
| VFloat (bits : Z)
| VDate (bits : Z)
| VStr (s : string)
| VBytes (b : list byte)
| VList (l : list pyvalue)
| VTuple (l : list pyvalue)
| VDict (d : list (string * pyvalue)).

Abbreviation dict := (list (string * pyvalue)).

(** [bool(v)]: the truth value Python's [if v:] tests. *)
Definition truthy (v : pyvalue) : bool :=
  match v with
  | VNone => false
  | VBool b => b
  | VInt n => negb (n =? 0)%Z
  | VFloat bits => negb ((bits =? 0)%Z || (bits =? 2 ^ 63)%Z)
  | VDate _ => true
  | VStr s => negb (String.eqb s "")
  | VBytes b => negb (Nat.eqb (List.length b) 0)
  | VList l | VTuple l => negb (Nat.eqb (List.length l) 0)
  | VDict d => negb (Nat.eqb (List.length d) 0)
  end.

(** [k in d] and [d.get(k)] on a dict: the first entry with the key. *)
Fixpoint dict_lookup (d : dict) (k : string) : option pyvalue :=
  match d with
  | [] => None
  | (k', v) :: rest => if String.eqb k' k then Some v else dict_lookup rest k
  end.

Definition dict_mem (d : dict) (k : string) : bool :=
  match dict_lookup d k with Some _ => true | None => false end.

(** [d[k] = v]: an existing key keeps its place, a new key goes last. *)
Fixpoint dict_set (d : dict) (k : string) (v : pyvalue) : dict :=
  match d with
  | [] => [(k, v)]
  | (k', v') :: rest =>
      if String.eqb k' k then (k', v) :: rest else (k', v') :: dict_set rest k v
  end.

(** [d.get(k, default)] on a dict. *)
Definition dict_get (d : dict) (k : string) (default : pyvalue) : pyvalue :=
  match dict_lookup d k with Some v => v | None => default end.

(** [d[k]] on a dict. *)
Definition dict_item (d : dict) (k : string) : result pyvalue :=
  match dict_lookup d k with Some v => Ok v | None => Err KeyError end.

(** [v[k]] with a string subscript, on any value. *)
Definition getitem (v : pyvalue) (k : string) : result pyvalue :=
  match v with
  | VDict d => dict_item d k
  | _ => Err TypeError
  end.


(** [v.get(k, default)]: only a dict has the method. *)
Definition get_method (v : pyvalue) (k : string) (default : pyvalue) : result pyvalue :=
  match v with
  | VDict d => Ok (dict_get d k default)
  | _ => Err AttributeError
  end.

(** ** Strings *)

(** [s.endswith(suffix)]. *)
Definition endswith (s suffix : string) : bool :=
  let n := String.length s in
  let m := String.length suffix in
  (m <=? n)%nat && String.eqb (String.substring (n - m) m s) suffix.

(** [s.replace(old, new)] for a non-empty [old]: every non-overlapping
    occurrence, from the left.  [skip] counts the characters of a match
    still to be dropped. *)
Fixpoint replace_from (old new s : string) (skip : nat) : string :=
  match s with
  | EmptyString => EmptyString
  | String c rest =>
      match skip with
      | S n => replace_from old new rest n
      | O =>
          if String.prefix old s
          then new +:+ replace_from old new rest (String.length old - 1)
          else String c (replace_from old new rest 0)
      end
  end.

Definition replace (s old new : string) : string := replace_from old new s 0.

(** [c.lower()] on the ASCII letters; no other code point lowers to
    an ASCII letter of the suffixes that are tested. *)
Definition lower_ascii (c : ascii) : ascii :=
  let n := nat_of_ascii c in
  if ((65 <=? n) && (n <=? 90))%nat then ascii_of_nat (n + 32) else c.

Fixpoint lower (s : string) : string :=
  match s with
  | EmptyString => EmptyString
  | String c rest => String (lower_ascii c) (lower rest)
  end.

(** [s.split(sep)] on a one-character separator: [cur] is the piece
    being read, reversed. *)
Fixpoint split_from (sep : ascii) (s : string) (cur : string) : list string :=
  match s with
  | EmptyString => [String.rev cur]
  | String c rest =>
      if Ascii.eqb c sep
      then String.rev cur :: split_from sep rest EmptyString
      else split_from sep rest (String c cur)
  end.

Definition split (s : string) (sep : ascii) : list string :=
  split_from sep s EmptyString.

(** [sep.join(pieces)]. *)
Fixpoint join (sep : string) (pieces : list string) : string :=
  match pieces with
  | [] => EmptyString
  | [p] => p
  | p :: rest => p +:+ sep +:+ join sep rest
  end.

End Py.
Export Py.

(** ** Library collaborators *)

(** What the code imports and does not define: Python's [base64] and
    text codecs, and [BPListReader] of [pyicloud/utils/bplist.py].
    A Python [str] is carried as its UTF-8 bytes, so that [utf8_decode]
    checks a byte sequence and keeps it, and [utf16_decode] transcodes.
    [BPListReader_parse x] is [BPListReader(x).parse()]: the decoded
    value, [BadMagicException] or another exception. *)
Class Codecs := {
  b64decode : pyvalue -> result (list byte);
  utf8_decode : list byte -> option string;
  utf16_decode : list byte -> option string;
  BPListReader_parse : pyvalue -> result pyvalue
}.

(** ** pyicloud/utils/photos.py *)

Module Fields.
Section parse_fields.
Context `{Codecs}.

(** [val = value.get("value", value)] when [value] is a dict. *)
Definition unwrap (value : pyvalue) : pyvalue :=
  match value with
  | VDict d => dict_get d "value" value
  | _ => value
  end.

(** The [try] of an [Enc] key: only [BadMagicException] is handled, by
    keeping the base64-decoded bytes. *)
Definition decode_enc (val : pyvalue) : result pyvalue :=
  match (raw ← b64decode val; BPListReader_parse (VBytes raw)) with
  | Ok v => Ok v
  | Err BadMagicException => raw ← b64decode val; Ok (VBytes raw)
  | Err e => Err e
  end.

(** [val.decode("utf-8")], then [val.decode("utf-16")], then [pass]. *)
Definition decode_text (val : pyvalue) : pyvalue :=
  match val with
  | VBytes b =>
      match utf8_decode b with
      | Some s => VStr s
      | None =>
          match utf16_decode b with
          | Some s => VStr s
          | None => val
          end
      end
  | _ => val
  end.

(** [val = val[1]] for a tuple of length 2. *)
Definition second_of_pair (val : pyvalue) : pyvalue :=
  match val with
  | VTuple [_; x] => x
  | _ => val
  end.

(** [pat] occurs somewhere in [s]. *)
Definition occurs_in (pat s : string) : Prop :=
  exists a b, s = a +:+ pat +:+ b.

(** The spec's reading of the output key: [key] without its last
    three characters, the trailing [Enc]. *)
Definition without_Enc_suffix (key : string) : string :=
  String.substring 0 (String.length key - 3) key.

(** The key under which the field [key] is stored. *)
Definition out_key (key : string) : string :=
  if endswith key "Enc" then replace key "Enc" "" else key.

(** One turn of the loop body: the key and value stored in [parsed].
    [recur] is the recursive call; the [print] and its [keypath] are
    diagnostics and are left out. *)
Definition parse_field (recur : dict -> result dict)
    (key : string) (value : pyvalue) : result (string * pyvalue) :=
  let val := unwrap value in
  kv ← (if endswith key "Enc"
        then v ← decode_enc val; Ok (replace key "Enc" "", v)
        else Ok (key, val));
  let '(key, val) := kv in
  val ← (match val with
         | VDict d => VDict <$> recur d
         | _ => Ok val
         end);
  Ok (key, decode_text (second_of_pair val)).

Fixpoint parse_items (recur : dict -> result dict)
    (items : dict) (parsed : dict) : result dict :=
  match items with
  | [] => Ok parsed
  | (key, value) :: rest =>
      kv ← parse_field recur key value;
      parse_items recur rest (dict_set parsed kv.1 kv.2)
  end.

(** [parse_fields(fields)].  [depth] is the number of nested calls the
    interpreter still allows (its recursion limit): a decoded value may
    again hold encoded fields. *)
Fixpoint parse_fields (depth : nat) (fields : dict) : result dict :=
  match depth with
  | O => Err RecursionError
  | S d => parse_items (parse_fields d) fields []
  end.

End parse_fields.
End Fields.

(** ** Records, assets and the query executor *)

(** A record of a query response: [rec["recordName"]],
    [rec["recordType"]] and [rec["fields"]].  The record store names
    and types every record it returns; what the fields hold is any
    JSON. *)
Record RawRecord := {
  recordName : string;
  recordType : string;
  fields : dict
}.

(** One entry of [PhotoAsset.versions]: the dict with the keys
    [filename], [width], [height], [size], [url] and [type]. *)
Record Version := {
  v_filename : string;
  v_width : pyvalue;
  v_height : pyvalue;
  v_size : pyvalue;
  v_url : pyvalue;
  v_type : pyvalue
}.

(** [PhotoAsset(service, master_record, asset_record)]; [_versions] is
    the memo cell, [None] after [__init__]. *)
Record PhotoAsset := {
  _master_record : RawRecord;
  _asset_record : RawRecord;
  _versions : option (gmap string Version)
}.

Definition PhotoAsset_init (master_record asset_record : RawRecord) : PhotoAsset :=
  {| _master_record := master_record;
     _asset_record := asset_record;
     _versions := None |}.

(** The query [_list_query_gen] builds.  [desiredKeys] is a constant
    list of field names and is left out. *)
Record Request := {
  startRank : Z;
  req_direction : string;
  req_recordType : string;
  resultsLimit : Z;
  extra_filters : list pyvalue;
  req_zoneID : pyvalue
}.

(** The attributes of a [PhotoAlbum] that [fetch_records] reads. *)
Record PhotoAlbum := {
  list_type : string;
  obj_type : string;
  direction : string;
  query_filter : option (list pyvalue);
  page_size : Z;
  zone_id : pyvalue
}.

(** [self.service.session]: the [n]-th record query of a generator
    answers with [response["records"]], and the count query behind
    [len(self)] answers with [itemCount]. *)
Record Session := {
  post_query : nat -> Request -> list RawRecord;
  item_count : Z
}.

(** ** pyicloud/services/photos.py: PhotoAlbum *)

Module Album.

(** What a consumer of the generator observes, in order: a page being
    requested and a [PhotoAsset] being yielded. *)
Inductive event :=
| Fetch (req : Request)
| Yield (photo : PhotoAsset).

(** How the loop body leaves a page. *)
Inductive status :=
| Continue
| Break
| Raised (e : exn).

Record page_result := {
  page_events : list event;
  page_offset : Z;
  page_total : Z;
  page_status : status
}.

(** A whole run of the generator: [ending] is [None] when it is
    exhausted and [Some e] when [e] is raised out of it. *)
Record run := {
  events : list event;
  ending : option exn;
  final_offset : Z;
  final_total : Z
}.

Definition _list_query_gen (self : PhotoAlbum) (offset : Z)
    (list_type direction : string) (query_filter : option (list pyvalue)) : Request :=
  {| startRank := offset;
     req_direction := direction;
     req_recordType := list_type;
     resultsLimit := page_size self * 2;
     extra_filters := match query_filter with Some f => f | None => [] end;
     req_zoneID := zone_id self |}.

(** [asset_records[master_id] = rec].  The map is only ever read at a
    record name, a string, which no key of another type equals: such a
    key (a JSON number, boolean or null) is stored without effect on
    any lookup, and an unhashable one (a JSON array or object) is a
    [TypeError]. *)
Definition store_asset (asset_records : gmap string RawRecord)
    (master_id : pyvalue) (rec : RawRecord) : result (gmap string RawRecord) :=
  match master_id with
  | VStr s => Ok (<[s := rec]> asset_records)
  | VList _ | VDict _ => Err TypeError
  | _ => Ok asset_records
  end.

(** [rec["fields"]["masterRef"]["value"]["recordName"]]. *)
Definition master_ref (rec : RawRecord) : result pyvalue :=
  ref ← dict_item (fields rec) "masterRef";
  v ← getitem ref "value";
  getitem v "recordName".

(** The loop over [response["records"]]. *)
Fixpoint partition (records : list RawRecord)
    (asset_records : gmap string RawRecord) (master_records : list RawRecord)
    : result (gmap string RawRecord * list RawRecord) :=
  match records with
  | [] => Ok (asset_records, master_records)
  | rec :: rest =>
      if String.eqb (recordType rec) "CPLAsset" then
        master_id ← master_ref rec;
        asset_records ← store_asset asset_records master_id rec;
        partition rest asset_records master_records
      else if String.eqb (recordType rec) "CPLMaster" then
        partition rest asset_records (master_records ++ [rec])
      else partition rest asset_records master_records
  end.

(** The loop over [master_records]: the assets yielded, the running
    total, and the exception that ended the loop, if any. *)
Fixpoint yield_masters (asset_records : gmap string RawRecord)
    (master_records : list RawRecord) (total : Z) : list event * Z * option exn :=
  match master_records with
  | [] => ([], total, None)
  | master_record :: rest =>
      let record_name := recordName master_record in
      let total := total + 1 in
      match asset_records !! record_name with
      | None => ([], total, Some KeyError)
      | Some asset_record =>
          let '(evs, total, err) := yield_masters asset_records rest total in
          (Yield (PhotoAsset_init master_record asset_record) :: evs, total, err)
      end
  end.

(** The query of a page that starts at [offset]. *)
Definition page_request (self : PhotoAlbum) (offset : Z) : Request :=
  _list_query_gen self offset (list_type self) (direction self) (query_filter self).

(** The body of the [while] loop, for the [n]-th query of the run. *)
Definition fetch_page (self : PhotoAlbum) (session : Session)
    (n : nat) (offset total : Z) : page_result :=
  let req := page_request self offset in
  match partition (post_query session n req) ∅ [] with
  | Err e =>
      {| page_events := [Fetch req]; page_offset := offset;
         page_total := total; page_status := Raised e |}
  | Ok (asset_records, master_records) =>
      let master_records_len := Z.of_nat (List.length master_records) in
      if master_records_len =? 0 then
        {| page_events := [Fetch req]; page_offset := offset;
           page_total := total; page_status := Break |}
      else
        let offset := if String.eqb (direction self) "DESCENDING"
                      then offset - master_records_len
                      else offset + master_records_len in
        let '(evs, total, err) := yield_masters asset_records master_records total in
        {| page_events := Fetch req :: evs; page_offset := offset;
           page_total := total;
           page_status := match err with Some e => Raised e | None => Continue end |}
  end.

Definition prepend (evs : list event) (r : run) : run :=
  {| events := evs ++ events r; ending := ending r;
     final_offset := final_offset r; final_total := final_total r |}.

(** [while total < limit: ...].  A page that lets the loop go on has
    raised [total], which bounds the number of turns. *)
Equations? fetch_loop (self : PhotoAlbum) (session : Session) (limit : Z)
    (n : nat) (offset total : Z) : run by wf (Z.to_nat (limit - total)) lt :=
fetch_loop self session limit n offset total with Z_lt_dec total limit := {
  | right _ =>
      {| events := []; ending := None; final_offset := offset; final_total := total |}
  | left Hlt with inspect (fetch_page self session n offset total) := {
      | exist _ page Hpage with inspect (page_status page) := {
          | exist _ Continue Hstatus =>
              prepend (page_events page)
                (fetch_loop self session limit (S n) (page_offset page) (page_total page))
          | exist _ Break _ =>
              {| events := page_events page; ending := None;
                 final_offset := page_offset page; final_total := page_total page |}
          | exist _ (Raised e) _ =>
              {| events := page_events page; ending := Some e;
                 final_offset := page_offset page; final_total := page_total page |}
        }
    }
}.
Proof.
  assert (Hgrow : forall a ms t evs t', yield_masters a ms t = (evs, t', None) -> t <= t').
  { intros a ms. induction ms as [|m ms IH]; intros t evs t' Hy; simpl in Hy.
    - inversion Hy. lia.
    - destruct (a !! recordName m); [|discriminate].
      destruct (yield_masters a ms (t + 1)) as [[evs1 t1] e1] eqn:Hrec.
      inversion Hy; subst. apply IH in Hrec. lia. }
  revert Hstatus. unfold fetch_page.
  destruct (partition _ _ _) as [[a ms]|e]; [|discriminate].
  destruct (Z.of_nat (List.length ms) =? 0) eqn:Hlen; [discriminate|].
  destruct ms as [|m ms]; [discriminate|].
  simpl.
  destruct (a !! recordName m); [|discriminate].
  destruct (yield_masters a ms (total + 1)) as [[evs1 t1] [e1|]] eqn:Hrec;
    [discriminate|].
  simpl. intros _. apply Hgrow in Hrec. lia.
Qed.

(** [sys.maxsize] of a 64-bit interpreter. *)
Definition sys_maxsize : Z := 2 ^ 63 - 1.

(** [len(self)]: the count the session reports.  Python's [len] first
    fits what [__len__] returns into an index ([OverflowError] outside
    of [-sys.maxsize - 1 .. sys.maxsize]) and then rejects a negative
    one ([ValueError]). *)
Definition len (session : Session) : result Z :=
  let n := item_count session in
  if (n <? - sys_maxsize - 1) || (sys_maxsize <? n)
  then Err (OtherError "OverflowError")
  else if n <? 0 then Err (OtherError "ValueError")
  else Ok n.

(** [if not limit: limit = len(self)]. *)
Definition effective_limit (session : Session) (limit : option Z) : result Z :=
  match limit with
  | Some l => if l =? 0 then len session else Ok l
  | None => len session
  end.

(** [fetch_records(offset, limit=None)]. *)
Definition fetch_records (self : PhotoAlbum) (session : Session)
    (offset : Z) (limit : option Z) : run :=
  match effective_limit session limit with
  | Err e => {| events := []; ending := Some e; final_offset := offset; final_total := 0 |}
  | Ok limit => fetch_loop self session limit 0 offset 0
  end.

(** The [photos] property. *)
Definition photos (self : PhotoAlbum) (session : Session) : run :=
  if String.eqb (direction self) "DESCENDING" then
    match len session with
    | Err e => {| events := []; ending := Some e; final_offset := 0; final_total := 0 |}
    | Ok n => fetch_records self session (n - 1) None
    end
  else fetch_records self session 0 None.

(** *** Reading a run and a page *)

(** The assets a consumer receives, and the queries it causes. *)
Definition yielded (evs : list event) : list PhotoAsset :=
  omap (fun e => match e with Yield photo => Some photo | Fetch _ => None end) evs.

Definition fetched (evs : list event) : list Request :=
  omap (fun e => match e with Fetch req => Some req | Yield _ => None end) evs.

(** The answers to the queries [reqs], the first of which is the
    [n]-th of the run. *)
Fixpoint answers (session : Session) (n : nat) (reqs : list Request)
    : list (list RawRecord) :=
  match reqs with
  | [] => []
  | req :: rest => post_query session n req :: answers session (S n) rest
  end.

(** Every query of [evs] is made while the running total, which
    starts at [total] and counts the assets yielded, is below [limit]. *)
Fixpoint guarded (limit total : Z) (evs : list event) : Prop :=
  match evs with
  | [] => True
  | Fetch _ :: rest => total < limit /\ guarded limit total rest
  | Yield _ :: rest => guarded limit (total + 1) rest
  end.

(** The master records of a response, in response order. *)
Definition masters_of (records : list RawRecord) : list RawRecord :=
  List.filter (fun rec => String.eqb (recordType rec) "CPLMaster") records.

(** The joined pairs: each master record that has an asset counterpart
    under its own record name, with that counterpart. *)
Definition joined (asset_records : gmap string RawRecord)
    (master_records : list RawRecord) : list PhotoAsset :=
  omap (fun m => PhotoAsset_init m <$> asset_records !! recordName m) master_records.

(** The joined pairs up to the first master record without counterpart. *)
Fixpoint paired_prefix (asset_records : gmap string RawRecord)
    (master_records : list RawRecord) : list PhotoAsset :=
  match master_records with
  | [] => []
  | m :: rest =>
      match asset_records !! recordName m with
      | None => []
      | Some a => PhotoAsset_init m a :: paired_prefix asset_records rest
      end
  end.

Definition all_paired (asset_records : gmap string RawRecord)
    (master_records : list RawRecord) : bool :=
  forallb (fun m => bool_decide (is_Some (asset_records !! recordName m))) master_records.

(** The same, for a response as the session gives it. *)
Definition joined_pairs (records : list RawRecord) : list PhotoAsset :=
  match partition records ∅ [] with
  | Ok (asset_records, master_records) => joined asset_records master_records
  | Err _ => []
  end.

Definition fully_paired (records : list RawRecord) : bool :=
  match partition records ∅ [] with
  | Ok (asset_records, master_records) => all_paired asset_records master_records
  | Err _ => false
  end.

End Album.

(** ** pyicloud/services/photos.py: PhotoAsset *)

Module Asset.

Definition ITEM_TYPES : list (string * string) :=
  [("public.heic", "image");
   ("public.jpeg", "image");
   ("public.png", "image");
   ("com.apple.quicktime-movie", "movie")].

Definition ITEM_TYPE_SUFFIX : list (string * string) :=
  [("public.heic", "HEIC");
   ("public.jpeg", "JPEG");
   ("public.png", "PNG");
   ("com.apple.quicktime-movie", "MOV")].

Definition PHOTO_VERSION_LOOKUP : list (string * string) :=
  [("full", "resJPEGFull");
   ("large", "resJPEGLarge");
   ("medium", "resJPEGMed");
   ("thumb", "resJPEGThumb");
   ("sidecar", "resSidecar");
   ("original", "resOriginal");
   ("original_alt", "resOriginalAlt");
   ("live", "resOriginalVidCompl")].

Definition VIDEO_VERSION_LOOKUP : list (string * string) :=
  [("full", "resVidFull");
   ("medium", "resVidMed");
   ("thumb", "resVidSmall");
   ("original", "resOriginal");
   ("original_compl", "resOriginalVidCompl")].

(** A class-level table read at a string key. *)
Fixpoint table_lookup (table : list (string * string)) (k : string) : option string :=
  match table with
  | [] => None
  | (k', v) :: rest => if String.eqb k' k then Some v else table_lookup rest k
  end.

(** A table read at any value: only a string can be one of its keys,
    and a list or a dict cannot be hashed. *)
Definition table_find (table : list (string * string)) (k : pyvalue)
    : result (option string) :=
  match k with
  | VStr s => Ok (table_lookup table s)
  | VList _ | VDict _ => Err TypeError
  | _ => Ok None
  end.

(** [s.endswith((suffix, ...))]. *)
Definition endswith_any (s : string) (suffixes : list string) : bool :=
  existsb (endswith s) suffixes.

(** What the spec calls ending with an extension, compared without
    regard to case: the name is a stem followed by a tail that lowers
    to the extension. *)
Definition ends_with_ignoring_case (name ext : string) : Prop :=
  exists stem tail, name = stem +:+ tail /\ lower tail = ext.

(** The same reading without [lower], character by character: [c] is
    the character [d] of the extension, or [d] is one of the letters
    [a] to [z] and [c] is its capital. *)
Definition capital (d : ascii) : ascii := ascii_of_nat (nat_of_ascii d - 32).

Definition same_letter (c d : ascii) : bool :=
  Ascii.eqb c d
  || ((97 <=? nat_of_ascii d)%nat && (nat_of_ascii d <=? 122)%nat
      && Ascii.eqb c (capital d)).

Fixpoint equal_ignoring_case (tail ext : string) : bool :=
  match tail, ext with
  | EmptyString, EmptyString => true
  | String c tail, String d ext => same_letter c d && equal_ignoring_case tail ext
  | _, _ => false
  end.

Definition ends_ignoring_case (name ext : string) : Prop :=
  exists stem tail, name = stem +:+ tail /\ equal_ignoring_case tail ext = true.

Section accessors.
Context `{Codecs}.

(** The [filename] property. *)
Definition filename (self : PhotoAsset) : result string :=
  entry ← dict_item (fields (_master_record self)) "filenameEnc";
  v ← getitem entry "value";
  raw ← b64decode v;
  match utf8_decode raw with
  | Some s => Ok s
  | None => Err UnicodeDecodeError
  end.

(** [self._master_record["fields"]["itemType"]["value"]]. *)
Definition declared_item_type (self : PhotoAsset) : result pyvalue :=
  entry ← dict_item (fields (_master_record self)) "itemType";
  getitem entry "value".

(** The [item_type] property. *)
Definition item_type (self : PhotoAsset) : result string :=
  item_type ← declared_item_type self;
  known ← table_find ITEM_TYPES item_type;
  match known with
  | Some kind => Ok kind
  | None =>
      name ← filename self;
      if endswith_any (lower name) [".heic"; ".png"; ".jpg"; ".jpeg"]
      then Ok "image"
      else Ok "movie"
  end.

(** [entry["value"]] if [entry] is true, else [None]. *)
Definition entry_value (entry : pyvalue) : result pyvalue :=
  if truthy entry then getitem entry "value" else Ok VNone.

(** The body of the inner loop of [versions] for one tier: the dict
    stored at [self._versions[key]]. *)
Definition build_version (self : PhotoAsset) (fields : dict) (prefix : string)
    : result Version :=
  name ← filename self;
  width ← entry_value (dict_get fields (prefix +:+ "Width") VNone);
  height ← entry_value (dict_get fields (prefix +:+ "Height") VNone);
  let size_entry := dict_get fields (prefix +:+ "Res") VNone in
  size_url ← (if truthy size_entry then
                v ← getitem size_entry "value";
                size ← getitem v "size";
                v ← getitem size_entry "value";
                url ← getitem v "downloadURL";
                Ok (size, url)
              else Ok (VNone, VNone));
  let type_entry := dict_get fields (prefix +:+ "FileType") VNone in
  if truthy type_entry then
    type ← getitem type_entry "value";
    name' ← filename self;
    let pieces := split name' "." in
    let base := join "." (removelast pieces) in
    let suffix := List.last pieces "" in
    tag ← getitem type_entry "value";
    known ← table_find ITEM_TYPE_SUFFIX tag;
    let suffix := default suffix known in
    Ok {| v_filename := base +:+ "." +:+ suffix;
          v_width := width; v_height := height;
          v_size := size_url.1; v_url := size_url.2;
          v_type := type |}
  else
    Ok {| v_filename := name;
          v_width := width; v_height := height;
          v_size := size_url.1; v_url := size_url.2;
          v_type := VNone |}.

(** The inner loop of [versions] over one record's fields.  The dict
    filled so far survives an exception. *)
Fixpoint fill_versions (self : PhotoAsset) (fields : dict)
    (lookup : list (string * string)) (acc : gmap string Version)
    : gmap string Version * option exn :=
  match lookup with
  | [] => (acc, None)
  | (key, prefix) :: rest =>
      if dict_mem fields (prefix +:+ "Res") then
        match build_version self fields prefix with
        | Err e => (acc, Some e)
        | Ok version => fill_versions self fields rest (<[key := version]> acc)
        end
      else fill_versions self fields rest acc
  end.

Definition set_versions (self : PhotoAsset) (vs : gmap string Version) : PhotoAsset :=
  {| _master_record := _master_record self;
     _asset_record := _asset_record self;
     _versions := Some vs |}.

(** [not self._versions]. *)
Definition versions_unset (self : PhotoAsset) : bool :=
  match _versions self with
  | None => true
  | Some vs => bool_decide (vs = ∅)
  end.

(** The [versions] property: what it returns or raises, and the asset
    with its memo cell as the call leaves it. *)
Definition versions (self : PhotoAsset) : result (gmap string Version) * PhotoAsset :=
  if versions_unset self then
    match item_type self with
    | Err e => (Err e, set_versions self ∅)
    | Ok kind =>
        let typed_version_lookup :=
          if String.eqb kind "movie" then VIDEO_VERSION_LOOKUP
          else PHOTO_VERSION_LOOKUP in
        let '(acc, err) :=
          fill_versions self (fields (_master_record self)) typed_version_lookup ∅ in
        match err with
        | Some e => (Err e, set_versions self acc)
        | None =>
            let '(acc, err) :=
              fill_versions self (fields (_asset_record self)) typed_version_lookup acc in
            match err with
            | Some e => (Err e, set_versions self acc)
            | None => (Ok acc, set_versions self acc)
            end
        end
    end
  else (Ok (default ∅ (_versions self)), self).

(** The shared body of [location] and [mediaMetaData]: the value of an
    encoded field of [fields], decoded from base64 first and as it is
    second; any exception of both attempts gives [None]. *)
Definition decode_blob (fields : dict) (name : string) : result pyvalue :=
  value ← get_method (dict_get fields name (VDict [])) "value" VNone;
  if truthy value then
    match (raw ← b64decode value; BPListReader_parse (VBytes raw)) with
    | Ok v => Ok v
    | Err _ =>
        match BPListReader_parse value with
        | Ok v => Ok v
        | Err _ => Ok VNone
        end
    end
  else Ok VNone.







End accessors.
End Asset.

(** ** A reference instance of the collaborators *)

(** Used to run the model on concrete records.  [b64decode] decodes
    well-formed standard base64 (what the server sends) and rejects the
    rest; [utf8_decode] accepts exactly the well-formed UTF-8 byte
    sequences; [utf16_decode] is little-endian UTF-16 without a byte
    order mark on the Basic Multilingual Plane. *)
Module Ref.

Definition byte_val (b : byte) : Z := Z.of_N (Byte.to_N b).

Definition byte_of (n : Z) : byte :=
  default x00 (Byte.of_N (Z.to_N (n mod 256))).

Definition b64_index (c : ascii) : option Z :=
  let n := Z.of_nat (nat_of_ascii c) in
  if (65 <=? n) && (n <=? 90) then Some (n - 65)
  else if (97 <=? n) && (n <=? 122) then Some (n - 71)
  else if (48 <=? n) && (n <=? 57) then Some (n + 4)
  else if n =? 43 then Some 62
  else if n =? 47 then Some 63
  else None.

Definition is_pad (c : ascii) : bool := Ascii.eqb c "="%char.

(** Groups of four characters; padding only closes the last group. *)
Fixpoint b64_groups (s : list ascii) : option (list byte) :=
  match s with
  | [] => Some []
  | a :: b :: c :: d :: rest =>
      x ← b64_index a;
      y ← b64_index b;
      if is_pad c && is_pad d then
        match rest with
        | [] => Some [byte_of (x * 4 + y / 16)]
        | _ => None
        end
      else
        z ← b64_index c;
        if is_pad d then
          match rest with
          | [] => Some [byte_of (x * 4 + y / 16); byte_of (y * 16 + z / 4)]
          | _ => None
          end
        else
          w ← b64_index d;
          tail ← b64_groups rest;
          Some (byte_of (x * 4 + y / 16) :: byte_of (y * 16 + z / 4)
                  :: byte_of (z * 64 + w) :: tail)
  | _ => None
  end.

Definition ascii_of_byte (b : byte) : ascii := ascii_of_nat (Z.to_nat (byte_val b)).

Definition ref_b64decode (v : pyvalue) : result (list byte) :=
  match v with
  | VStr s =>
      match b64_groups (list_ascii_of_string s) with
      | Some raw => Ok raw
      | None => Err (OtherError "binascii.Error")
      end
  | VBytes b =>
      match b64_groups (ascii_of_byte <$> b) with
      | Some raw => Ok raw
      | None => Err (OtherError "binascii.Error")
      end
  | _ => Err TypeError
  end.

Definition in_range (lo hi : Z) (b : byte) : bool :=
  (lo <=? byte_val b) && (byte_val b <=? hi).

(** Well-formed UTF-8 (the Unicode standard's table of byte ranges). *)
Fixpoint utf8_ok (fuel : nat) (bs : list byte) : bool :=
  match fuel with
  | O => false
  | S fuel =>
      match bs with
      | [] => true
      | b0 :: rest =>
          if in_range 0 127 b0 then utf8_ok fuel rest
          else
            match rest with
            | b1 :: rest1 =>
                if in_range 194 223 b0 then in_range 128 191 b1 && utf8_ok fuel rest1
                else
                  match rest1 with
                  | b2 :: rest2 =>
                      let second3 :=
                        if in_range 224 224 b0 then in_range 160 191 b1
                        else if in_range 237 237 b0 then in_range 128 159 b1
                        else in_range 128 191 b1 in
                      if in_range 224 239 b0
                      then second3 && in_range 128 191 b2 && utf8_ok fuel rest2
                      else
                        match rest2 with
                        | b3 :: rest3 =>
                            let second4 :=
                              if in_range 240 240 b0 then in_range 144 191 b1
                              else if in_range 244 244 b0 then in_range 128 143 b1
                              else in_range 128 191 b1 in
                            in_range 240 244 b0 && second4 && in_range 128 191 b2
                              && in_range 128 191 b3 && utf8_ok fuel rest3
                        | [] => false
                        end
                  | [] => false
                  end
            | [] => false
            end
      end
  end.

Definition ref_utf8_decode (bs : list byte) : option string :=
  if utf8_ok (S (List.length bs)) bs then Some (string_of_list_byte bs) else None.

(** The UTF-8 bytes of a code point below 0x10000. *)
Definition utf8_encode (cp : Z) : list byte :=
  if cp <? 128 then [byte_of cp]
  else if cp <? 2048 then [byte_of (192 + cp / 64); byte_of (128 + cp mod 64)]
  else [byte_of (224 + cp / 4096); byte_of (128 + (cp / 64) mod 64);
        byte_of (128 + cp mod 64)].

Fixpoint utf16_units (bs : list byte) : option (list byte) :=
  match bs with
  | [] => Some []
  | lo :: hi :: rest =>
      let cp := byte_val hi * 256 + byte_val lo in
      if (55296 <=? cp) && (cp <=? 57343) then None
      else tail ← utf16_units rest; Some (utf8_encode cp ++ tail)%list
  | _ => None
  end.

Definition ref_utf16_decode (bs : list byte) : option string :=
  string_of_list_byte <$> utf16_units bs.

(** Modelled from the spec: the trailer that [BPListReader] of
    [pyicloud/utils/bplist.py] reads; the module is not among the
    sources.  The fields are those the spec lists for the last 32
    bytes of a buffer. *)
Record Trailer := {
  offsetIntSize : nat;
  objectRefSize : nat;
  numObjects : nat;
  topObject : nat;
  offsetTableOffset : nat
}.

Fixpoint be_uint (bs : list byte) (acc : Z) : Z :=
  match bs with
  | [] => acc
  | b :: rest => be_uint rest (acc * 256 + byte_val b)
  end.

Definition slice (buf : list byte) (off len : nat) : result (list byte) :=
  let s := take len (drop off buf) in
  if Nat.eqb (List.length s) len then Ok s else Err (OtherError "Truncated").

Definition be_nat (buf : list byte) (off len : nat) : result nat :=
  bs ← slice buf off len; Ok (Z.to_nat (be_uint bs 0)).

Definition bplist_magic : string := "bplist00".

(** Modelled from the spec: the trailer of [BPListReader], the last 32
    bytes behind the 8-byte header: 6 bytes that are not read, the two
    sizes, and three 8-byte big-endian numbers. *)
Definition read_trailer (buf : list byte) : result Trailer :=
  let n := List.length buf in
  if (n <? 40)%nat then Err (OtherError "Truncated")
  else
    let t := (n - 32)%nat in
    ois ← be_nat buf (t + 6)%nat 1;
    ors ← be_nat buf (t + 7)%nat 1;
    num ← be_nat buf (t + 8)%nat 8;
    top ← be_nat buf (t + 16)%nat 8;
    oto ← be_nat buf (t + 24)%nat 8;
    Ok {| offsetIntSize := ois; objectRefSize := ors; numObjects := num;
          topObject := top; offsetTableOffset := oto |}.

(** The element count of an object: the low nibble of its marker, or,
    for the sentinel 15, the integer object that follows.  Also the
    offset at which the payload starts. *)
Definition read_size (buf : list byte) (off : nat) (low : Z) : result (nat * nat) :=
  if low =? 15 then
    m ← slice buf (off + 1)%nat 1;
    let marker := be_uint m 0 in
    if marker / 16 =? 1 then
      let width := Z.to_nat (2 ^ (marker mod 16)) in
      count ← be_nat buf (off + 2)%nat width;
      Ok (count, (off + 2 + width)%nat)
    else Err (OtherError "Corrupt")
  else Ok (Z.to_nat low, (off + 1)%nat).

Fixpoint read_refs (buf : list byte) (width : nat) (off count : nat) : result (list nat) :=
  match count with
  | O => Ok []
  | S count =>
      r ← be_nat buf off width;
      rest ← read_refs buf width (off + width)%nat count;
      Ok (r :: rest)
  end.

Fixpoint collect {A} (rs : list (result A)) : result (list A) :=
  match rs with
  | [] => Ok []
  | r :: rest => a ← r; tail ← collect rest; Ok (a :: tail)
  end.

Fixpoint pair_up (keys vals : list pyvalue) (acc : dict) : result dict :=
  match keys, vals with
  | VStr k :: keys, v :: vals => pair_up keys vals (dict_set acc k v)
  | [], _ => Ok acc
  | _, _ => Err (OtherError "Corrupt")
  end.

(** Modelled from the spec: the object decoding of [BPListReader], for
    the object with index [idx] of the offset table.  The tags
    null/bool, integer, data, ASCII string, array, set and dictionary
    follow the spec; reals, dates, UTF-16 strings and UIDs are reported
    as unsupported here.  [fuel] bounds the chain of references: a
    cycle ends in an error. *)
Fixpoint read_object (fuel : nat) (buf : list byte) (tr : Trailer) (idx : nat)
    : result pyvalue :=
  match fuel with
  | O => Err (OtherError "CyclicReference")
  | S fuel =>
      off ← be_nat buf (offsetTableOffset tr + idx * offsetIntSize tr)%nat (offsetIntSize tr);
      m ← slice buf off 1;
      let marker := be_uint m 0 in
      let tag := marker / 16 in
      let low := marker mod 16 in
      if tag =? 0 then
        if low =? 0 then Ok VNone
        else if low =? 8 then Ok (VBool false)
        else if low =? 9 then Ok (VBool true)
        else Err (OtherError "UnsupportedTag")
      else if tag =? 1 then
        let width := Z.to_nat (2 ^ low) in
        bs ← slice buf (off + 1)%nat width;
        let u := be_uint bs 0 in
        Ok (VInt (if Nat.eqb width 8 && (2 ^ 63 <=? u) then u - 2 ^ 64 else u))
      else if tag =? 4 then
        sz ← read_size buf off low;
        bs ← slice buf sz.2 sz.1;
        Ok (VBytes bs)
      else if tag =? 5 then
        sz ← read_size buf off low;
        bs ← slice buf sz.2 sz.1;
        Ok (VStr (string_of_list_byte bs))
      else if (tag =? 10) || (tag =? 12) then
        sz ← read_size buf off low;
        refs ← read_refs buf (objectRefSize tr) sz.2 sz.1;
        items ← collect (read_object fuel buf tr <$> refs);
        Ok (VList items)
      else if tag =? 13 then
        sz ← read_size buf off low;
        krefs ← read_refs buf (objectRefSize tr) sz.2 sz.1;
        vrefs ← read_refs buf (objectRefSize tr) (sz.2 + sz.1 * objectRefSize tr)%nat sz.1;
        keys ← collect (read_object fuel buf tr <$> krefs);
        vals ← collect (read_object fuel buf tr <$> vrefs);
        d ← pair_up keys vals [];
        Ok (VDict d)
      else Err (OtherError "UnsupportedTag")
  end.

(** Modelled from the spec: [BPListReader(x).parse()].  A buffer that
    does not begin with the 8-byte header is a [BadMagicException]; the
    root is the object the trailer names. *)
Definition ref_BPListReader_parse (x : pyvalue) : result pyvalue :=
  match x with
  | VBytes buf =>
      if String.prefix bplist_magic (string_of_list_byte buf) then
        tr ← read_trailer buf;
        read_object (S (numObjects tr)) buf tr (topObject tr)
      else Err BadMagicException
  | VStr _ => Err BadMagicException (* a str is not the bytes magic *)
  | _ => Err TypeError
  end.

#[global] Instance codecs : Codecs := {|
  b64decode := ref_b64decode;
  utf8_decode := ref_utf8_decode;
  utf16_decode := ref_utf16_decode;
  BPListReader_parse := ref_BPListReader_parse
|}.

End Ref.

(** ** Sample data *)

Module Samples.

(** The bytes of [bplist00]: a header with no trailer behind it. *)
Definition header_only : list byte := [x62; x70; x6c; x69; x73; x74; x30; x30].

(** The bytes of [hello], which are no property list. *)
Definition hello_bytes : list byte := [x68; x65; x6c; x6c; x6f].

Definition master (name : string) : RawRecord :=
  {| recordName := name; recordType := "CPLMaster"; fields := [] |}.

Definition asset (name master_name : string) : RawRecord :=
  {| recordName := name; recordType := "CPLAsset";
     fields := [("masterRef",
                 VDict [("type", VStr "REFERENCE");
                        ("value", VDict [("recordName", VStr master_name)])])] |}.

Definition all_photos : PhotoAlbum :=
  {| list_type := "CPLAssetAndMasterByAssetDateWithoutHiddenOrDeleted";
     obj_type := "CPLAssetByAssetDateWithoutHiddenOrDeleted";
     direction := "ASCENDING";
     query_filter := None;
     page_size := 100;
     zone_id := VDict [("zoneName", VStr "PrimarySync")] |}.

Definition page_1 : list RawRecord :=
  [master "m1"; asset "a1" "m1"; master "m2"; asset "a2" "m2"].

Definition page_2 : list RawRecord := [master "m3"; asset "a3" "m3"].

(** A page whose first master record has no asset counterpart. *)
Definition page_gap : list RawRecord :=
  [master "m1"; master "m2"; asset "a2" "m2"].

(** A page whose second master record has no asset counterpart. *)
Definition page_gap_2 : list RawRecord :=
  [master "m0"; asset "a0" "m0"; master "m1"; master "m2"; asset "a2" "m2"].

(** The asset records of [page_gap_2], by master reference. *)
Definition gap_2_assets : gmap string RawRecord :=
  <["m2" := asset "a2" "m2"]> (<["m0" := asset "a0" "m0"]> ∅).

(** [{"value": v}], the envelope of a field. *)
Definition env (v : pyvalue) : pyvalue := VDict [("value", v)].

Definition res (size : Z) (url : string) : pyvalue :=
  env (VDict [("size", VInt size); ("downloadURL", VStr url)]).

(** A photo [IMG_0001.JPG] whose thumbnail exists in both records, and
    whose location decodes to [{"lat": [0, 52], "lon": [0, 13]}]. *)
Definition photo_master : RawRecord :=
  {| recordName := "m1"; recordType := "CPLMaster";
     fields :=
       [("filenameEnc", env (VStr "SU1HXzAwMDEuSlBH"));
        ("itemType", env (VStr "public.jpeg"));
        ("resOriginalRes", res 1000 "https://master/original");
        ("resOriginalWidth", env (VInt 4032));
        ("resOriginalHeight", env (VInt 3024));
        ("resOriginalFileType", env (VStr "public.jpeg"));
        ("resJPEGThumbRes", res 111 "https://master/thumb");
        ("resJPEGThumbWidth", env (VInt 160))] |}.

Definition photo_asset : RawRecord :=
  {| recordName := "a1"; recordType := "CPLAsset";
     fields :=
       [("masterRef", env (VDict [("recordName", VStr "m1")]));
        ("resJPEGThumbRes", res 222 "https://asset/thumb");
        ("resJPEGThumbFileType", env (VStr "public.png"));
        ("locationEnc",
         env (VStr "YnBsaXN0MDDSAQIDBFNsYXRTbG9uogUGogUHEAAQNBANCA0RFRgbHR8AAAAAAAABAQAAAAAAAAAIAAAAAAAAAAAAAAAAAAAAIQ=="))] |}.

Definition photo : PhotoAsset := PhotoAsset_init photo_master photo_asset.

(** A clip with an item type the table does not hold, no location, and
    metadata that decodes to
    [{"{GPS}": {"Latitude": [0, 48], "Longitude": [0, 2]}}]. *)
Definition clip_master : RawRecord :=
  {| recordName := "m2"; recordType := "CPLMaster";
     fields :=
       [("filenameEnc", env (VStr "Y2xpcC5NT1Y="));
        ("itemType", env (VStr "com.apple.m4v-video"));
        ("mediaMetaDataEnc",
         env (VStr "YnBsaXN0MDDRAQJVe0dQU33SAwQFBlhMYXRpdHVkZVlMb25naXR1ZGWiBwiiBwkQABAwEAIICxEWHyksLzEzAAAAAAAAAQEAAAAAAAAACgAAAAAAAAAAAAAAAAAAADU="))] |}.

Definition clip_asset : RawRecord :=
  {| recordName := "a2"; recordType := "CPLAsset";
     fields := [("masterRef", env (VDict [("recordName", VStr "m2")]))] |}.

Definition clip : PhotoAsset := PhotoAsset_init clip_master clip_asset.


(** What [versions] returns for [photo], and the asset it leaves. *)
Definition photo_versions : gmap string Version :=
  match (Asset.versions photo).1 with
  | Ok vs => vs
  | Err _ => ∅
  end.

Definition photo_after : PhotoAsset := (Asset.versions photo).2.

(** A session that serves the pages of a list in turn, whatever the
    query, and empty responses after them. *)
Definition serving (pages : list (list RawRecord)) (count : Z) : Session :=
  {| post_query := fun n _ => nth n pages []; item_count := count |}.

End Samples.

(** ** Further readings of a run *)

Module Trace.
Import Album.

(** What the loop body yields for a response: the joined pairs up to
    the first master record without counterpart, and nothing when the
    response cannot be partitioned. *)
Definition page_yields (records : list RawRecord) : list PhotoAsset :=
  match partition records ∅ [] with
  | Ok (asset_records, master_records) => paired_prefix asset_records master_records
  | Err _ => []
  end.

(** [rec] is an asset record whose master reference is the name [s]. *)
Definition names_master (s : string) (rec : RawRecord) : bool :=
  String.eqb (recordType rec) "CPLAsset"
  && match master_ref rec with
     | Ok (VStr s') => String.eqb s' s
     | _ => false
     end.

(** An asset record can be stored: its master reference is there and
    can be hashed. *)
Definition storable (rec : RawRecord) : bool :=
  match master_ref rec with
  | Ok (VList _) | Ok (VDict _) => false
  | Ok _ => true
  | Err _ => false
  end.

(** Every query of [evs] starts at [rank], which starts at the given
    value and moves by one with each asset yielded, down when
    [descending] and up otherwise. *)
Fixpoint ranked (descending : bool) (rank : Z) (evs : list event) : Prop :=
  match evs with
  | [] => True
  | Fetch req :: rest => startRank req = rank /\ ranked descending rank rest
  | Yield _ :: rest =>
      ranked descending (if descending then rank - 1 else rank + 1) rest
  end.

(** A yielded asset joins a master record with an asset record that
    refers to it, and has computed no versions yet. *)
Definition well_joined (photo : PhotoAsset) : Prop :=
  recordType (_master_record photo) = "CPLMaster"
  /\ recordType (_asset_record photo) = "CPLAsset"
  /\ master_ref (_asset_record photo) = Ok (VStr (recordName (_master_record photo)))
  /\ _versions photo = None.

End Trace.

(** ** pyicloud/services/photos.py: the other accessors of PhotoAsset *)

Module AssetMore.
Import Asset.
Section accessors.
Context `{Codecs}.

(** The [id] property. *)
Definition id (self : PhotoAsset) : string := recordName (_master_record self).

(** The shared body of [caption] and [description]: the text of an
    encoded field of the asset record, [None] when the field is absent
    or empty. *)
Definition encoded_text (fields : dict) (name : string) : result pyvalue :=
  if truthy (dict_get fields name VNone) then
    entry ← dict_item fields name;
    v ← getitem entry "value";
    raw ← b64decode v;
    match utf8_decode raw with
    | Some s => Ok (VStr s)
    | None => Err UnicodeDecodeError
    end
  else Ok VNone.

Definition caption (self : PhotoAsset) : result pyvalue :=
  encoded_text (fields (_asset_record self)) "captionEnc".

Definition description (self : PhotoAsset) : result pyvalue :=
  encoded_text (fields (_asset_record self)) "extendedDescEnc".

(** The shared body of [isHidden] and [isFavorite]. *)
Definition flag (fields : dict) (name : string) : result pyvalue :=
  if truthy (dict_get fields name VNone)
  then getitem (dict_get fields name (VDict [])) "value"
  else Ok VNone.

Definition isHidden (self : PhotoAsset) : result pyvalue :=
  flag (fields (_asset_record self)) "isHidden".

Definition isFavorite (self : PhotoAsset) : result pyvalue :=
  flag (fields (_asset_record self)) "isFavorite".

(** The [size] property. *)
Definition size (self : PhotoAsset) : result pyvalue :=
  entry ← dict_item (fields (_master_record self)) "resOriginalRes";
  v ← getitem entry "value";
  getitem v "size".

(** The [dimensions] property. *)
Definition dimensions (self : PhotoAsset) : result pyvalue :=
  w_entry ← dict_item (fields (_master_record self)) "resOriginalWidth";
  w ← getitem w_entry "value";
  h_entry ← dict_item (fields (_master_record self)) "resOriginalHeight";
  h ← getitem h_entry "value";
  Ok (VTuple [w; h]).

(** [download(version)]: [None] without a request when [versions] has
    no such tier, else the URL that [session.get] is called with; and
    the asset as the two readings of [versions] leave it. *)
Definition download (self : PhotoAsset) (version : string)
    : result (option pyvalue) * PhotoAsset :=
  let '(r, self) := versions self in
  match r with
  | Err e => (Err e, self)
  | Ok vs =>
      match vs !! version with
      | None => (Ok None, self)
      | Some _ =>
          let '(r, self) := versions self in
          match r with
          | Err e => (Err e, self)
          | Ok vs =>
              match vs !! version with
              | None => (Err KeyError, self)
              | Some v => (Ok (Some (v_url v)), self)
              end
          end
      end
  end.

(** [vs] holds, for each tier of [tiers] whose size field is in
    [flds], the version built from [flds]. *)
Definition built_from (self : PhotoAsset) (flds : dict)
    (tiers : list (string * string)) (vs : gmap string Version) : Prop :=
  forall key prefix,
    (key, prefix) ∈ tiers ->
    dict_mem flds (prefix +:+ "Res") = true ->
    exists version,
      build_version self flds prefix = Ok version /\ vs !! key = Some version.

End accessors.
End AssetMore.

(** ** pyicloud/services/photos.py: PhotoLibrary *)

Module Library.

(** A [PhotoAlbum] as the library builds it: with the attributes that
    [fetch_records] reads, its name, its shared flag and its folder
    record ([None] for [{}]). *)
Record Album := {
  name : string;
  query : PhotoAlbum;
  shared : bool;
  _folder : option RawRecord
}.

(** [PhotoAlbum.__init__], with [page_size] at its default. *)
Definition PhotoAlbum_init (name list_type obj_type direction : string)
    (query_filter : option (list pyvalue)) (zone_id : pyvalue)
    (folder : option RawRecord) (shared : bool) : Album :=
  {| name := name;
     query :=
       {| list_type := list_type;
          obj_type := obj_type;
          direction := direction;
          query_filter := query_filter;
          page_size := 100;
          zone_id := if truthy zone_id then zone_id
                     else VDict [("zoneName", VStr "PrimarySync")] |};
     shared := shared;
     _folder := folder |}.

(** The [title] and [id] properties. *)
Definition title (self : Album) : string := name self.

Definition id (self : Album) : option string := recordName <$> _folder self.

(** The keyword arguments of one smart album. *)
Record Props := {
  p_obj_type : string;
  p_list_type : string;
  p_direction : string;
  p_query_filter : option (list pyvalue)
}.

(** The one-condition filter of the table and of a user folder. *)
Definition equals_filter (field_name value : string) : list pyvalue :=
  [VDict [("fieldName", VStr field_name);
          ("comparator", VStr "EQUALS");
          ("fieldValue", VDict [("type", VStr "STRING"); ("value", VStr value)])]].

Definition in_smart_album (obj_suffix value : string) : Props :=
  {| p_obj_type := "CPLAssetInSmartAlbumByAssetDate:" +:+ obj_suffix;
     p_list_type := "CPLAssetAndMasterInSmartAlbumByAssetDate";
     p_direction := "ASCENDING";
     p_query_filter := Some (equals_filter "smartAlbum" value) |}.

Definition unfiltered (obj_type list_type : string) : Props :=
  {| p_obj_type := obj_type;
     p_list_type := list_type;
     p_direction := "ASCENDING";
     p_query_filter := None |}.

Definition SMART_FOLDERS : list (string * Props) :=
  [("All Photos",
    unfiltered "CPLAssetByAssetDateWithoutHiddenOrDeleted"
               "CPLAssetAndMasterByAssetDateWithoutHiddenOrDeleted");
   ("Time-lapse", in_smart_album "Timelapse" "TIMELAPSE");
   ("Videos", in_smart_album "Video" "VIDEO");
   ("Slo-mo", in_smart_album "Slomo" "SLOMO");
   ("Bursts",
    unfiltered "CPLAssetBurstStackAssetByAssetDate"
               "CPLBurstStackAssetAndMasterByAssetDate");
   ("Favorites", in_smart_album "Favorite" "FAVORITE");
   ("Panoramas", in_smart_album "Panorama" "PANORAMA");
   ("Portrait", in_smart_album "Portrait" "DEPTH");
   ("Screenshots", in_smart_album "Screenshot" "SCREENSHOT");
   ("Live", in_smart_album "Live" "LIVE");
   ("Recently Deleted",
    unfiltered "CPLAssetDeletedByExpungedDate"
               "CPLAssetAndMasterDeletedByExpungedDate");
   ("Hidden",
    unfiltered "CPLAssetHiddenByAssetDate"
               "CPLAssetAndMasterHiddenByAssetDate")].

(** The attributes of a [PhotoLibrary] that [albums] reads, and its
    memo cell. *)
Record PhotoLibrary := {
  lib_zone_id : pyvalue;
  lib_shared : bool;
  _albums : option (gmap string Album)
}.

Definition set_albums (self : PhotoLibrary) (albums : gmap string Album)
    : PhotoLibrary :=
  {| lib_zone_id := lib_zone_id self;
     lib_shared := lib_shared self;
     _albums := Some albums |}.

(** [not self._albums]. *)
Definition albums_unset (self : PhotoLibrary) : bool :=
  match _albums self with
  | None => true
  | Some albums => bool_decide (albums = ∅)
  end.

(** The dict comprehension over [SMART_FOLDERS.items()]. *)
Definition smart_album (self : PhotoLibrary) (name : string) (props : Props)
    : Album :=
  PhotoAlbum_init name (p_list_type props) (p_obj_type props)
    (p_direction props) (p_query_filter props)
    (lib_zone_id self) None (lib_shared self).

Definition smart_albums (self : PhotoLibrary) : gmap string Album :=
  foldl (fun acc item => <[item.1 := smart_album self item.1 item.2]> acc)
        ∅ SMART_FOLDERS.

Definition ROOT_FOLDERS : list string :=
  ["----Root-Folder----"; "----Project-Root-Folder----"].

(** The folders that the loop is written to pass over: one without a
    name, a root folder, one whose [isDeleted] entry has a true
    value. *)
Definition passed_over (folder : RawRecord) : Prop :=
  dict_mem (fields folder) "albumNameEnc" = false
  \/ recordName folder ∈ ROOT_FOLDERS
  \/ exists d v,
       dict_lookup (fields folder) "isDeleted" = Some (VDict d)
       /\ dict_lookup d "value" = Some v
       /\ truthy v = true.

Section albums.
Context `{Codecs}.

(** The second [if] of the loop body: a root folder, or a folder whose
    [isDeleted] entry is there and has a true value. *)
Definition is_skipped (folder : RawRecord) : result bool :=
  if bool_decide (recordName folder ∈ ROOT_FOLDERS) then Ok true
  else if truthy (dict_get (fields folder) "isDeleted" VNone) then
    entry ← dict_item (fields folder) "isDeleted";
    v ← getitem entry "value";
    Ok (truthy v)
  else Ok false.

(** One turn of the loop over the folders: the album stored, or
    [None] after a [continue]. *)
Definition folder_album (self : PhotoLibrary) (folder : RawRecord)
    : result (option Album) :=
  if negb (dict_mem (fields folder) "albumNameEnc") then Ok None
  else
    skip ← is_skipped folder;
    if (skip : bool) then Ok None
    else
      let folder_id := recordName folder in
      let folder_obj_type :=
        "CPLContainerRelationNotDeletedByAssetDate:" +:+ folder_id in
      name_value ← get_method (dict_get (fields folder) "albumNameEnc" (VDict []))
                              "value" VNone;
      raw ← b64decode name_value;
      match utf8_decode raw with
      | None => Err UnicodeDecodeError
      | Some folder_name =>
          Ok (Some (PhotoAlbum_init folder_name
                      "CPLContainerRelationLiveByAssetDate" folder_obj_type
                      "ASCENDING" (Some (equals_filter "parentId" folder_id))
                      (lib_zone_id self) (Some folder) false))
      end.

(** The loop over the folders.  The albums stored so far survive an
    exception. *)
Fixpoint fill_albums (self : PhotoLibrary) (folders : list RawRecord)
    (acc : gmap string Album) : gmap string Album * option exn :=
  match folders with
  | [] => (acc, None)
  | folder :: rest =>
      match folder_album self folder with
      | Err e => (acc, Some e)
      | Ok None => fill_albums self rest acc
      | Ok (Some album) => fill_albums self rest (<[name album := album]> acc)
      end
  end.

(** The [albums] property: what it returns or raises, and the library
    with its memo cell as the call leaves it.  [fetch_folders] is what
    [self._fetch_folders()] gives if it is called: the records of the
    response, or the exception of the request. *)
Definition albums (self : PhotoLibrary)
    (fetch_folders : result (list RawRecord))
    : result (gmap string Album) * PhotoLibrary :=
  if albums_unset self then
    match fetch_folders with
    | Err e => (Err e, set_albums self (smart_albums self))
    | Ok folders =>
        let '(acc, err) := fill_albums self folders (smart_albums self) in
        match err with
        | Some e => (Err e, set_albums self acc)
        | None => (Ok acc, set_albums self acc)
        end
    end
  else (Ok (default ∅ (_albums self)), self).

(** The [all] property. *)
Definition all (self : PhotoLibrary) (fetch_folders : result (list RawRecord))
    : result Album * PhotoLibrary :=
  let '(r, self) := albums self fetch_folders in
  (albums ← r;
   match albums !! "All Photos" with
   | Some album => Ok album
   | None => Err KeyError
   end, self).

(** [cell] holds the smart albums and the albums of the folders
    [reached]: the album of a folder under its name unless a later
    folder of [reached] has the name, a smart album under its name
    unless a folder of [reached] has the name, and nothing else. *)
Definition holds (self : PhotoLibrary) (reached : list RawRecord)
    (cell : gmap string Album) : Prop :=
  (forall pre folder post album,
     reached = (pre ++ folder :: post)%list ->
     folder_album self folder = Ok (Some album) ->
     Forall (fun later => forall other,
               folder_album self later = Ok (Some other) ->
               name other <> name album) post ->
     cell !! name album = Some album)
  /\ (forall key props,
        (key, props) ∈ SMART_FOLDERS ->
        Forall (fun folder => forall other,
                  folder_album self folder = Ok (Some other) ->
                  name other <> key) reached ->
        cell !! key = Some (smart_album self key props))
  /\ (forall key,
        is_Some (cell !! key) ->
        key ∈ SMART_FOLDERS.*1
        \/ exists folder album,
             folder ∈ reached
             /\ folder_album self folder = Ok (Some album)
             /\ name album = key).

End albums.
End Library.

(** ** More sample data *)

Module MoreSamples.
Import Samples.

(** An asset with a thumbnail in both records, whose asset record has
    a full-size entry without a size; the asset as a first reading of
    its versions leaves it, and the versions stored by then. *)
Definition stale : PhotoAsset :=
  PhotoAsset_init
    {| recordName := "m7"; recordType := "CPLMaster";
       fields :=
         [("filenameEnc", env (VStr "SU1HXzAwMDEuSlBH"));
          ("itemType", env (VStr "public.jpeg"));
          ("resJPEGThumbRes", res 111 "https://master/thumb")] |}
    {| recordName := "a7"; recordType := "CPLAsset";
       fields :=
         [("resJPEGFullRes", env (VDict []));
          ("resJPEGThumbRes", res 222 "https://asset/thumb")] |}.

Definition stale_after : PhotoAsset := (Asset.versions stale).2.

Definition stale_cell : gmap string Version := default ∅ (_versions stale_after).

Definition master_thumb : Version :=
  {| v_filename := "IMG_0001.JPG"; v_width := VNone; v_height := VNone;
     v_size := VInt 111; v_url := VStr "https://master/thumb";
     v_type := VNone |}.


(** A scan [scan.PNG] whose item type the table does not hold. *)
Definition scan : PhotoAsset :=
  PhotoAsset_init
    {| recordName := "m6"; recordType := "CPLMaster";
       fields := [("filenameEnc", env (VStr "c2Nhbi5QTkc="));
                  ("itemType", env (VStr "public.tiff"))] |}
    {| recordName := "a6"; recordType := "CPLAsset"; fields := [] |}.

(** An asset with the caption [hello]. *)
Definition titled : PhotoAsset :=
  PhotoAsset_init photo_master
    {| recordName := "a5"; recordType := "CPLAsset";
       fields := [("captionEnc", env (VStr "aGVsbG8="));
                  ("isFavorite", env (VInt 1))] |}.

(** A library of the primary zone, before its first reading. *)
Definition library : Library.PhotoLibrary :=
  {| Library.lib_zone_id := VDict [("zoneName", VStr "PrimarySync")];
     Library.lib_shared := true;
     Library._albums := None |}.

(** The folder [hello], the root folder, and a deleted folder. *)
Definition folder_hello : RawRecord :=
  {| recordName := "F1"; recordType := "CPLAlbum";
     fields := [("albumNameEnc", env (VStr "aGVsbG8="))] |}.

Definition folder_root : RawRecord :=
  {| recordName := "----Root-Folder----"; recordType := "CPLAlbum";
     fields := [("albumNameEnc", env (VStr "aGVsbG8="))] |}.

Definition folder_deleted : RawRecord :=
  {| recordName := "F2"; recordType := "CPLAlbum";
     fields := [("albumNameEnc", env (VStr "aGVsbG8="));
                ("isDeleted", env (VInt 1))] |}.

(** A folder whose name entry is a string, which has no [get]. *)
Definition folder_bad : RawRecord :=
  {| recordName := "F3"; recordType := "CPLAlbum";
     fields := [("albumNameEnc", VStr "aGVsbG8=")] |}.

(** The album of [folder_hello] in [library]. *)
Definition hello_album : Library.Album :=
  Library.PhotoAlbum_init "hello" "CPLContainerRelationLiveByAssetDate"
    "CPLContainerRelationNotDeletedByAssetDate:F1" "ASCENDING"
    (Some (Library.equals_filter "parentId" "F1"))
    (VDict [("zoneName", VStr "PrimarySync")]) (Some folder_hello) false.

(** A reading of the albums that returns, and one that raises at its
    second folder. *)
Definition sound_reading :=
  Library.albums library (Ok [folder_root; folder_hello]).

Definition library_albums : gmap string Library.Album :=
  match sound_reading.1 with
  | Ok albums => albums
  | Err _ => ∅
  end.

Definition failed_reading :=
  Library.albums library (Ok [folder_hello; folder_bad]).

(** A session for an album of three assets, the first asset it yields,
    and the events of listing it. *)
Definition two_pages : Session := serving [page_1; page_2] 3.

Definition first_photo : PhotoAsset :=
  PhotoAsset_init (master "m1") (asset "a1" "m1").

Definition listing : list Album.event :=
  Album.events (Album.fetch_records all_photos two_pages 0 None).

(** The original version of [photo]. *)
Definition original_version : Version :=
  {| v_filename := "IMG_0001.JPEG"; v_width := VInt 4032;
     v_height := VInt 3024; v_size := VInt 1000;
     v_url := VStr "https://master/original";
     v_type := VStr "public.jpeg" |}.

End MoreSamples.

(** * Properties *)

Import Fields Album Asset Samples Trace AssetMore.

(** ** Strings and values *)

Example replace_filenameEnc : replace "filenameEnc" "Enc" "" = "filename".
Proof. reflexivity. Qed.

Example split_join_ex :
  split "a.b.JPG" "." = ["a"; "b"; "JPG"] /\ join "." ["a"; "b"] = "a.b".
Proof. split; reflexivity. Qed.

Example lower_ex : lower "IMG_01.JpG" = "img_01.jpg".
Proof. reflexivity. Qed.

Lemma result_bind_Ok {A B} (r : result A) (f : A -> result B) (b : B) :
  r ≫= f = Ok b -> exists a, r = Ok a /\ f a = Ok b.
Proof. destruct r as [a|e]; simpl; [eauto | discriminate]. Qed.

Lemma result_bind_Err {A B} (r : result A) (f : A -> result B) (e : exn) :
  r = Err e -> r ≫= f = Err e.
Proof. intros ->. reflexivity. Qed.

Lemma dict_lookup_set_eq (d : dict) k v : dict_lookup (dict_set d k v) k = Some v.
Proof.
  induction d as [|[k' v'] d IH]; simpl.
  - rewrite String.eqb_refl. reflexivity.
  - destruct (String.eqb k' k) eqn:E; simpl; rewrite E; [reflexivity | exact IH].
Qed.

Lemma dict_lookup_set_ne (d : dict) k v k' :
  k <> k' -> dict_lookup (dict_set d k v) k' = dict_lookup d k'.
Proof.
  intros Hne. induction d as [|[k0 v0] d IH]; simpl.
  - apply String.eqb_neq in Hne. rewrite Hne. reflexivity.
  - destruct (String.eqb k0 k) eqn:E; simpl.
    + apply String.eqb_eq in E. subst k0.
      apply String.eqb_neq in Hne. rewrite Hne. reflexivity.
    + destruct (String.eqb k0 k'); [reflexivity | exact IH].
Qed.

Lemma str_app_cons c a b : String c a +:+ b = String c (a +:+ b).
Proof. reflexivity. Qed.

Lemma str_length_app a b :
  String.length (a +:+ b) = (String.length a + String.length b)%nat.
Proof.
  induction a as [|c a IH]; [reflexivity|].
  rewrite str_app_cons. cbn. rewrite IH. reflexivity.
Qed.

Lemma substring_0_all s : String.substring 0 (String.length s) s = s.
Proof. induction s as [|c s IH]; [reflexivity|]. cbn. rewrite IH. reflexivity. Qed.

Lemma substring_skip a b m :
  String.substring (String.length a) m (a +:+ b) = String.substring 0 m b.
Proof.
  induction a as [|c a IH]; [reflexivity|]. rewrite str_app_cons. cbn. exact IH.
Qed.

Lemma substring_split s i :
  (i <= String.length s)%nat ->
  s = String.substring 0 i s +:+ String.substring i (String.length s - i) s.
Proof.
  revert i. induction s as [|c s IH]; intros [|i] Hi; cbn in *; try lia.
  - reflexivity.
  - rewrite substring_0_all. reflexivity.
  - rewrite str_app_cons, <- (IH i) by lia. reflexivity.
Qed.

Lemma lower_substring i m s :
  lower (String.substring i m s) = String.substring i m (lower s).
Proof.
  revert i m. induction s as [|c s IH]; intros [|i] [|m]; cbn; try reflexivity.
  - rewrite IH. reflexivity.
  - apply IH.
  - apply IH.
Qed.

Lemma lower_length s : String.length (lower s) = String.length s.
Proof. induction s as [|c s IH]; [reflexivity|]. cbn. rewrite IH. reflexivity. Qed.

Lemma lower_app a b : lower (a +:+ b) = lower a +:+ lower b.
Proof.
  induction a as [|c a IH]; [reflexivity|].
  rewrite str_app_cons. cbn. rewrite IH. reflexivity.
Qed.

(** [endswith] is having the suffix at the end. *)
Lemma endswith_iff s suffix :
  endswith s suffix = true <-> exists stem, s = stem +:+ suffix.
Proof.
  unfold endswith. split.
  - intros Hend. apply andb_true_iff in Hend as [Hle Heq].
    apply Nat.leb_le in Hle. apply String.eqb_eq in Heq.
    exists (String.substring 0 (String.length s - String.length suffix) s).
    remember (String.length suffix) as m eqn:Hm. rewrite <- Heq. clear Heq Hm.
    rewrite (substring_split s (String.length s - m)) at 1 by lia.
    do 2 f_equal. lia.
  - intros [stem ->]. rewrite str_length_app.
    apply andb_true_iff. split; [apply Nat.leb_le; lia|].
    apply String.eqb_eq.
    replace (String.length stem + String.length suffix - String.length suffix)%nat
      with (String.length stem) by lia.
    rewrite substring_skip. apply substring_0_all.
Qed.

Lemma endswith_lower_iff name ext :
  endswith (lower name) ext = true <-> ends_with_ignoring_case name ext.
Proof.
  split.
  - unfold endswith. intros Hend. apply andb_true_iff in Hend as [Hle Heq].
    apply Nat.leb_le in Hle. apply String.eqb_eq in Heq.
    rewrite lower_length in *. rewrite <- lower_substring in Heq.
    exists (String.substring 0 (String.length name - String.length ext) name),
           (String.substring (String.length name - String.length ext)
              (String.length ext) name).
    split; [|exact Heq].
    rewrite (substring_split name (String.length name - String.length ext)) at 1 by lia.
    do 2 f_equal. lia.
  - intros (stem & tail & -> & <-). rewrite lower_app.
    apply endswith_iff. eauto.
Qed.

(** ** parse_fields *)

Section parse_fields_facts.
Context `{Codecs}.

Lemma parse_items_app recur pre post parsed :
  parse_items recur (pre ++ post) parsed =
  parse_items recur pre parsed ≫= parse_items recur post.
Proof.
  revert parsed. induction pre as [|[k v] pre IH]; intros parsed; simpl.
  - reflexivity.
  - destruct (parse_field recur k v) as [kv|e]; simpl; [apply IH | reflexivity].
Qed.

Lemma decode_enc_error val raw e :
  b64decode val = Ok raw ->
  BPListReader_parse (VBytes raw) = Err e ->
  e <> BadMagicException ->
  decode_enc val = Err e.
Proof.
  intros Hraw Hparse Hne. unfold decode_enc. rewrite Hraw. simpl.
  rewrite Hparse. destruct e; congruence.
Qed.

Lemma decode_enc_BadMagic val raw :
  b64decode val = Ok raw ->
  BPListReader_parse (VBytes raw) = Err BadMagicException ->
  decode_enc val = Ok (VBytes raw).
Proof.
  intros Hraw Hparse. unfold decode_enc. rewrite Hraw. simpl.
  rewrite Hparse. reflexivity.
Qed.

Lemma parse_field_error recur key value raw e :
  endswith key "Enc" = true ->
  b64decode (unwrap value) = Ok raw ->
  BPListReader_parse (VBytes raw) = Err e ->
  e <> BadMagicException ->
  parse_field recur key value = Err e.
Proof.
  intros Hkey Hraw Hparse Hne. unfold parse_field. rewrite Hkey.
  rewrite (decode_enc_error _ _ _ Hraw Hparse Hne). reflexivity.
Qed.

(** Where [Enc] occurs only as the suffix, [replace] strips the suffix. *)
Lemma replace_only_suffix base :
  ~ occurs_in "Enc" base -> replace (base +:+ "Enc") "Enc" "" = base.
Proof.
  unfold replace. induction base as [|c base IH]; intros Hno; [reflexivity|].
  rewrite str_app_cons. cbn [replace_from].
  destruct (String.prefix "Enc" (String c (base +:+ "Enc"))) eqn:Hp.
  - exfalso. apply String.prefix_correct in Hp.
    destruct base as [|c1 [|c2 b]]; cbn in Hp; inversion Hp; subst.
    apply Hno. exists "", b. reflexivity.
  - f_equal. apply IH. intros (a & b & ->). apply Hno.
    exists (String c a), b. reflexivity.
Qed.

Lemma substring_0_prefix a b : String.substring 0 (String.length a) (a +:+ b) = a.
Proof.
  induction a as [|c a IH]; [destruct b; reflexivity|].
  rewrite str_app_cons. cbn. rewrite IH. reflexivity.
Qed.

(** For such a key the stored key is the spec's. *)
Lemma out_key_suffix_only base :
  ~ occurs_in "Enc" base ->
  out_key (base +:+ "Enc") = base /\ without_Enc_suffix (base +:+ "Enc") = base.
Proof.
  intros Hno. unfold out_key, without_Enc_suffix.
  replace (endswith (base +:+ "Enc") "Enc") with true
    by (symmetry; apply endswith_iff; eauto).
  split; [apply (replace_only_suffix _ Hno)|].
  rewrite str_length_app. cbn [String.length].
  replace (String.length base + 3 - 3)%nat with (String.length base) by lia.
  apply substring_0_prefix.
Qed.

(** C2, as amended: a decoder error other than BadMagic on an [Enc]
    field is not isolated.  When the fields before it in input order
    are valid, that error is raised out of [parse_fields] and no
    mapping is returned, whatever the fields after it hold. *)
Theorem parse_fields_decode_error_escapes depth pre key value post raw e :
  endswith key "Enc" = true ->
  b64decode (unwrap value) = Ok raw ->
  BPListReader_parse (VBytes raw) = Err e ->
  e <> BadMagicException ->
  is_Ok (parse_fields (S depth) pre) ->
  parse_fields (S depth) (pre ++ (key, value) :: post) = Err e.
Proof.
  intros Hkey Hraw Hparse Hne [parsed Hpre]. simpl in *.
  rewrite parse_items_app, Hpre. simpl.
  rewrite (parse_field_error _ _ _ _ _ Hkey Hraw Hparse Hne). reflexivity.
Qed.

Lemma parse_field_BadMagic recur key value raw :
  endswith key "Enc" = true ->
  b64decode (unwrap value) = Ok raw ->
  BPListReader_parse (VBytes raw) = Err BadMagicException ->
  parse_field recur key value =
    Ok (replace key "Enc" "",
        match utf8_decode raw with
        | Some s => VStr s
        | None =>
            match utf16_decode raw with
            | Some s => VStr s
            | None => VBytes raw
            end
        end).
Proof.
  intros Hkey Hraw Hparse. unfold parse_field. rewrite Hkey.
  rewrite (decode_enc_BadMagic _ _ Hraw Hparse). reflexivity.
Qed.

Lemma parse_field_key recur key value kv :
  parse_field recur key value = Ok kv -> kv.1 = out_key key.
Proof.
  unfold parse_field, out_key. intros Hf.
  destruct (endswith key "Enc").
  - destruct (decode_enc (unwrap value)) as [v|e]; [|discriminate].
    simpl in Hf. destruct v; simpl in Hf; try (inversion Hf; reflexivity).
    destruct (recur d); inversion Hf; reflexivity.
  - simpl in Hf. destruct (unwrap value); simpl in Hf; try (inversion Hf; reflexivity).
    destruct (recur d); inversion Hf; reflexivity.
Qed.

Lemma parse_items_keeps recur post parsed out k :
  parse_items recur post parsed = Ok out ->
  Forall (fun kv => out_key kv.1 <> k) post ->
  dict_lookup out k = dict_lookup parsed k.
Proof.
  revert parsed. induction post as [|[k0 v0] post IH]; intros parsed Hp Hall; simpl in Hp.
  - inversion Hp. reflexivity.
  - apply Forall_cons in Hall as [Hk Hall]. simpl in Hk.
    destruct (parse_field recur k0 v0) as [kv|e] eqn:Hf; [|discriminate].
    simpl in Hp. rewrite (IH _ Hp Hall).
    apply dict_lookup_set_ne. rewrite (parse_field_key _ _ _ _ Hf). exact Hk.
Qed.

(** C3, as amended: on BadMagic the decoder is not called again.  The
    field's value is made of the base64-decoded bytes themselves: the
    text they spell in UTF-8, else in UTF-16, else the bytes.  It is
    what the returned mapping holds at the stripped key, unless a later
    field is stored under the same key. *)
Theorem parse_fields_BadMagic_keeps_decoded_bytes
    depth pre key value post raw parsed :
  endswith key "Enc" = true ->
  b64decode (unwrap value) = Ok raw ->
  BPListReader_parse (VBytes raw) = Err BadMagicException ->
  Forall (fun kv => out_key kv.1 <> out_key key) post ->
  parse_fields (S depth) (pre ++ (key, value) :: post) = Ok parsed ->
  dict_lookup parsed (out_key key) =
    Some (match utf8_decode raw with
          | Some s => VStr s
          | None =>
              match utf16_decode raw with
              | Some s => VStr s
              | None => VBytes raw
              end
          end).
Proof.
  intros Hkey Hraw Hparse Hpost Hrun. simpl in Hrun.
  rewrite parse_items_app in Hrun.
  apply result_bind_Ok in Hrun as (mid & _ & Hrun). simpl in Hrun.
  rewrite (parse_field_BadMagic _ _ _ _ Hkey Hraw Hparse) in Hrun. simpl in Hrun.
  rewrite (parse_items_keeps _ _ _ _ _ Hrun Hpost).
  unfold out_key. rewrite Hkey. apply dict_lookup_set_eq.
Qed.

End parse_fields_facts.

(** *** parse_fields on concrete records *)

Section parse_fields_examples.
Local Existing Instance Ref.codecs.

(** The spec's scenario: [filenameEnc] holds a property list whose root
    is the ASCII string [IMG_0001.JPG]. *)
Example parse_fields_filenameEnc :
  parse_fields 1000
    [("filenameEnc",
      VDict [("type", VStr "ENCRYPTED_BYTES");
             ("value", VStr "YnBsaXN0MDBcSU1HXzAwMDEuSlBHCAAAAAAAAAEBAAAAAAAAAAEAAAAAAAAAAAAAAAAAAAAV")])]
  = Ok [("filename", VStr "IMG_0001.JPG")].
Proof. vm_compute. reflexivity. Qed.

(** C2 fails as stated: [captionEnc] holds a truncated property list,
    its two siblings are valid, and no mapping is returned. *)
Lemma parse_fields_corrupt_field_aborts :
  let siblings_before := [("resOriginalWidth", VDict [("type", VStr "INT64"); ("value", VInt 3024)])] in
  let siblings_after := [("filenameEnc", VStr "SU1HXzAwMDEuSlBH")] in
  let corrupt := VStr "YnBsaXN0MDA=" in
  b64decode corrupt = Ok header_only /\
  BPListReader_parse (VBytes header_only) = Err (OtherError "Truncated") /\
  parse_fields 1000 (siblings_before ++ siblings_after) =
    Ok [("resOriginalWidth", VInt 3024); ("filename", VStr "IMG_0001.JPG")] /\
  ~ (exists parsed,
       parse_fields 1000 (siblings_before ++ ("captionEnc", corrupt) :: siblings_after)
       = Ok parsed).
Proof.
  repeat split; try (vm_compute; reflexivity).
  intros [parsed Hp]. vm_compute in Hp. discriminate.
Qed.

Lemma parse_fields_decode_error_escapes_witness :
  parse_fields 1000
    ([("resOriginalWidth", VDict [("type", VStr "INT64"); ("value", VInt 3024)])]
       ++ ("captionEnc", VStr "YnBsaXN0MDA=")
       :: [("filenameEnc", VStr "SU1HXzAwMDEuSlBH")])
  = Err (OtherError "Truncated").
Proof.
  apply (parse_fields_decode_error_escapes (H := Ref.codecs) 999 _
           "captionEnc" _ _ header_only).
  - reflexivity.
  - vm_compute. reflexivity.
  - vm_compute. reflexivity.
  - discriminate.
  - eexists. vm_compute. reflexivity.
Defined.

(** C3 fails as stated: the decoder rejects the decoded bytes of
    [captionEnc] with BadMagic, and the field's value is the text of
    those bytes, which no call of the decoder on the field returns. *)
Lemma parse_fields_BadMagic_is_not_redecoded :
  let val := VStr "aGVsbG8=" in
  b64decode val = Ok hello_bytes /\
  BPListReader_parse (VBytes hello_bytes) = Err BadMagicException /\
  parse_fields 1000 [("captionEnc", val)] = Ok [("caption", VStr "hello")] /\
  BPListReader_parse val <> Ok (VStr "hello") /\
  BPListReader_parse (VBytes (list_byte_of_string "aGVsbG8=")) <> Ok (VStr "hello").
Proof.
  repeat split; try (vm_compute; reflexivity); vm_compute; discriminate.
Qed.

Lemma parse_fields_BadMagic_keeps_decoded_bytes_witness :
  dict_lookup [("caption", VStr "hello"); ("isFavorite", VInt 1)] (out_key "captionEnc")
  = Some (VStr "hello").
Proof.
  apply (parse_fields_BadMagic_keeps_decoded_bytes (H := Ref.codecs) 999 []
           "captionEnc" (VStr "aGVsbG8=") [("isFavorite", VInt 1)] hello_bytes).
  - reflexivity.
  - vm_compute. reflexivity.
  - vm_compute. reflexivity.
  - repeat constructor. vm_compute. discriminate.
  - vm_compute. reflexivity.
Defined.

(** C4, at a key that holds [Enc] twice: [replace] removes every
    occurrence, so the field is stored under [reoded], not under the
    key without its suffix, [reEncoded]. *)
Theorem parse_fields_strips_inner_Enc :
  endswith "reEncodedEnc" "Enc" = true /\
  without_Enc_suffix "reEncodedEnc" = "reEncoded" /\
  parse_fields 1000 [("reEncodedEnc", VStr "aGVsbG8=")] = Ok [("reoded", VStr "hello")].
Proof. repeat split; vm_compute; reflexivity. Qed.

End parse_fields_examples.

(** ** fetch_records *)

Section fetch_records_facts.
Variable self : PhotoAlbum.
Variable session : Session.

Lemma partition_masters records asset_records master_records a ms :
  partition records asset_records master_records = Ok (a, ms) ->
  ms = (master_records ++ masters_of records)%list.
Proof.
  revert asset_records master_records.
  induction records as [|rec rest IH]; intros ar mr Hp; simpl in Hp.
  - inversion Hp. simpl. rewrite app_nil_r. reflexivity.
  - unfold masters_of. simpl. fold (masters_of rest).
    destruct (String.eqb (recordType rec) "CPLAsset") eqn:Ha.
    + apply String.eqb_eq in Ha.
      replace (String.eqb (recordType rec) "CPLMaster") with false
        by (rewrite Ha; reflexivity).
      apply result_bind_Ok in Hp as (id & _ & Hp).
      apply result_bind_Ok in Hp as (ar' & _ & Hp).
      apply (IH _ _ Hp).
    + destruct (String.eqb (recordType rec) "CPLMaster").
      * rewrite (IH _ _ Hp), <- app_assoc. reflexivity.
      * apply (IH _ _ Hp).
Qed.

Lemma paired_prefix_all a ms :
  all_paired a ms = true -> paired_prefix a ms = joined a ms.
Proof.
  induction ms as [|m ms IH]; simpl; [reflexivity|].
  intros Hall. apply andb_true_iff in Hall as [Hm Hall].
  apply bool_decide_eq_true in Hm as [x Hx].
  unfold joined. simpl. rewrite Hx. simpl. f_equal. apply (IH Hall).
Qed.

Lemma joined_length a ms :
  all_paired a ms = true -> List.length (joined a ms) = List.length ms.
Proof.
  induction ms as [|m ms IH]; simpl; [reflexivity|].
  intros Hall. apply andb_true_iff in Hall as [Hm Hall].
  apply bool_decide_eq_true in Hm as [x Hx].
  unfold joined. simpl. rewrite Hx. simpl. f_equal. apply (IH Hall).
Qed.

(** The loop over the master records yields the paired prefix; it ends
    normally when every master record is paired and with [KeyError] at
    the first that is not. *)
Lemma yield_masters_spec a ms total :
  yield_masters a ms total =
    (Yield <$> paired_prefix a ms,
     total + Z.of_nat (List.length (paired_prefix a ms))
       + (if all_paired a ms then 0 else 1),
     if all_paired a ms then None else Some KeyError).
Proof.
  revert total. induction ms as [|m ms IH]; intros total; simpl.
  - f_equal. f_equal. lia.
  - destruct (a !! recordName m) as [x|] eqn:Hx.
    + rewrite IH. rewrite bool_decide_eq_true_2 by eauto. simpl.
      f_equal. f_equal. destruct (all_paired a ms); lia.
    + rewrite bool_decide_eq_false_2 by (intros [? ?]; congruence). simpl.
      f_equal. f_equal. lia.
Qed.

Lemma fetch_loop_unfold limit n offset total :
  fetch_loop self session limit n offset total =
    if total <? limit then
      let page := fetch_page self session n offset total in
      match page_status page with
      | Continue =>
          prepend (page_events page)
            (fetch_loop self session limit (S n) (page_offset page) (page_total page))
      | Break =>
          {| events := page_events page; ending := None;
             final_offset := page_offset page; final_total := page_total page |}
      | Raised e =>
          {| events := page_events page; ending := Some e;
             final_offset := page_offset page; final_total := page_total page |}
      end
    else {| events := []; ending := None; final_offset := offset; final_total := total |}.
Proof.
  funelim (fetch_loop self session limit n offset total);
    try match goal with Hlt : _ < _ |- _ => rewrite (proj2 (Z.ltb_lt _ _) Hlt) end;
    try match goal with Hn : ~ _ < _ |- _ => rewrite (proj2 (Z.ltb_nlt _ _) Hn) end;
    cbn zeta;
    try match goal with Hs : page_status _ = _ |- _ => rewrite Hs end;
    reflexivity.
Qed.

(** The four ways a page can go. *)
Lemma fetch_page_error n offset total e :
  partition (post_query session n (page_request self offset)) ∅ [] = Err e ->
  fetch_page self session n offset total =
    {| page_events := [Fetch (page_request self offset)]; page_offset := offset;
       page_total := total; page_status := Raised e |}.
Proof. intros Hp. unfold fetch_page. rewrite Hp. reflexivity. Qed.

Lemma fetch_page_empty n offset total a :
  partition (post_query session n (page_request self offset)) ∅ [] = Ok (a, []) ->
  fetch_page self session n offset total =
    {| page_events := [Fetch (page_request self offset)]; page_offset := offset;
       page_total := total; page_status := Break |}.
Proof. intros Hp. unfold fetch_page. rewrite Hp. reflexivity. Qed.

Lemma fetch_page_paired n offset total a ms :
  partition (post_query session n (page_request self offset)) ∅ [] = Ok (a, ms) ->
  ms <> [] ->
  all_paired a ms = true ->
  fetch_page self session n offset total =
    {| page_events := Fetch (page_request self offset) :: (Yield <$> joined a ms);
       page_offset := if String.eqb (direction self) "DESCENDING"
                      then offset - Z.of_nat (List.length ms)
                      else offset + Z.of_nat (List.length ms);
       page_total := total + Z.of_nat (List.length ms);
       page_status := Continue |}.
Proof.
  intros Hp Hne Hall. unfold fetch_page. rewrite Hp.
  destruct ms as [|m ms]; [congruence|].
  replace (Z.of_nat (List.length (m :: ms)) =? 0) with false
    by (symmetry; apply Z.eqb_neq; simpl; lia).
  rewrite yield_masters_spec, Hall, (paired_prefix_all _ _ Hall), (joined_length _ _ Hall).
  f_equal. lia.
Qed.

Lemma fetch_page_unpaired n offset total a ms :
  partition (post_query session n (page_request self offset)) ∅ [] = Ok (a, ms) ->
  all_paired a ms = false ->
  fetch_page self session n offset total =
    {| page_events := Fetch (page_request self offset) :: (Yield <$> paired_prefix a ms);
       page_offset := if String.eqb (direction self) "DESCENDING"
                      then offset - Z.of_nat (List.length ms)
                      else offset + Z.of_nat (List.length ms);
       page_total := total + Z.of_nat (List.length (paired_prefix a ms)) + 1;
       page_status := Raised KeyError |}.
Proof.
  intros Hp Hall. unfold fetch_page. rewrite Hp.
  destruct ms as [|m ms]; [discriminate|].
  replace (Z.of_nat (List.length (m :: ms)) =? 0) with false
    by (symmetry; apply Z.eqb_neq; simpl; lia).
  rewrite yield_masters_spec, Hall. reflexivity.
Qed.

Lemma fetch_page_events_head n offset total :
  exists rest,
    page_events (fetch_page self session n offset total)
    = Fetch (page_request self offset) :: rest.
Proof.
  unfold fetch_page.
  destruct (partition _ _ _) as [[a ms]|e]; [|eexists; reflexivity].
  destruct (Z.of_nat (List.length ms) =? 0); [eexists; reflexivity|].
  destruct (yield_masters _ _ _) as [[evs t] err]. eexists; reflexivity.
Qed.

Lemma fetch_page_Continue n offset total :
  page_status (fetch_page self session n offset total) = Continue ->
  exists a ms,
    partition (post_query session n (page_request self offset)) ∅ [] = Ok (a, ms)
    /\ ms <> [] /\ all_paired a ms = true.
Proof.
  intros Hst.
  destruct (partition (post_query session n (page_request self offset)) ∅ [])
    as [[a ms]|e] eqn:Hp.
  - destruct ms as [|m ms].
    + rewrite (fetch_page_empty _ _ _ _ Hp) in Hst. discriminate.
    + destruct (all_paired a (m :: ms)) eqn:Hall.
      * exists a, (m :: ms). repeat split; [discriminate | exact Hall].
      * rewrite (fetch_page_unpaired _ _ _ _ _ Hp Hall) in Hst. discriminate.
  - rewrite (fetch_page_error _ _ _ _ Hp) in Hst. discriminate.
Qed.

(** Induction along the turns of the loop. *)
Lemma fetch_loop_induction limit (P : nat -> Z -> Z -> run -> Prop) :
  (forall n offset total,
     ~ total < limit ->
     P n offset total
       {| events := []; ending := None; final_offset := offset; final_total := total |}) ->
  (forall n offset total page,
     total < limit ->
     page = fetch_page self session n offset total ->
     page_status page = Break ->
     P n offset total
       {| events := page_events page; ending := None;
          final_offset := page_offset page; final_total := page_total page |}) ->
  (forall n offset total page e,
     total < limit ->
     page = fetch_page self session n offset total ->
     page_status page = Raised e ->
     P n offset total
       {| events := page_events page; ending := Some e;
          final_offset := page_offset page; final_total := page_total page |}) ->
  (forall n offset total page rest,
     total < limit ->
     page = fetch_page self session n offset total ->
     page_status page = Continue ->
     rest = fetch_loop self session limit (S n) (page_offset page) (page_total page) ->
     P (S n) (page_offset page) (page_total page) rest ->
     P n offset total (prepend (page_events page) rest)) ->
  forall n offset total, P n offset total (fetch_loop self session limit n offset total).
Proof.
  intros Hstop Hbreak Hraise Hcont n offset total.
  funelim (fetch_loop self session limit n offset total).
  - apply Hstop. assumption.
  - eapply Hcont; eauto.
    match goal with IH : forall _ : nat -> Z -> Z -> run -> Prop, _ |- _ =>
      apply IH; assumption end.
  - eapply Hbreak; eauto.
  - eapply Hraise; eauto.
Qed.

Lemma all_paired_app a xs ys :
  all_paired a (xs ++ ys) = all_paired a xs && all_paired a ys.
Proof. apply forallb_app. Qed.

Lemma paired_prefix_stops a pre m post :
  all_paired a pre = true ->
  a !! recordName m = None ->
  paired_prefix a (pre ++ m :: post) = joined a pre
  /\ all_paired a (pre ++ m :: post) = false.
Proof.
  intros Hpre Hm. split.
  - induction pre as [|x pre IH]; simpl in *.
    + rewrite Hm. reflexivity.
    + apply andb_true_iff in Hpre as [Hx Hpre].
      apply bool_decide_eq_true in Hx as [y Hy].
      unfold joined. simpl. rewrite Hy. simpl. f_equal. apply (IH Hpre).
  - rewrite all_paired_app, Hpre. simpl.
    rewrite bool_decide_eq_false_2; [reflexivity|].
    intros [y Hy]. congruence.
Qed.

(** C1, as amended: a master record without asset counterpart is not
    skipped.  In a page being fetched, the master records before the
    first such record are yielded with their counterparts, and at that
    record the generator raises [KeyError]: nothing is yielded for it
    or for the records after it, and no further page is fetched. *)
Theorem unpaired_master_raises_KeyError limit n offset total a pre m post :
  total < limit ->
  partition (post_query session n (page_request self offset)) ∅ []
    = Ok (a, (pre ++ m :: post)%list) ->
  all_paired a pre = true ->
  a !! recordName m = None ->
  events (fetch_loop self session limit n offset total)
    = Fetch (page_request self offset) :: (Yield <$> joined a pre)
  /\ ending (fetch_loop self session limit n offset total) = Some KeyError.
Proof.
  intros Hlt Hp Hpre Hm.
  destruct (paired_prefix_stops a pre m post Hpre Hm) as [Hprefix Hall].
  rewrite fetch_loop_unfold.
  apply Z.ltb_lt in Hlt. rewrite Hlt. cbn zeta.
  rewrite (fetch_page_unpaired _ _ _ _ _ Hp Hall). simpl.
  rewrite Hprefix. split; reflexivity.
Qed.

Lemma masters_of_length records :
  (List.length (masters_of records) <= List.length records)%nat.
Proof. apply List.filter_length_le. Qed.

Lemma masters_of_length_lt records rec :
  rec ∈ records ->
  recordType rec <> "CPLMaster" ->
  (List.length (masters_of records) < List.length records)%nat.
Proof.
  intros Hin Hne. induction records as [|x records IH]; [inversion Hin|].
  unfold masters_of. simpl. fold (masters_of records).
  apply elem_of_cons in Hin as [->|Hin].
  - apply String.eqb_neq in Hne. rewrite Hne.
    pose proof (masters_of_length records). lia.
  - specialize (IH Hin).
    destruct (String.eqb (recordType x) "CPLMaster"); simpl; lia.
Qed.

(** C5: a page with at least one master record moves the offset by the
    number of its master records, up for ASCENDING and down for
    DESCENDING.  That number is at most the number of records of the
    response and less as soon as one record is not a master record;
    and a next page, when one is fetched, is requested at the offset
    so moved. *)
Theorem offset_moves_by_master_count n offset total :
  let records := post_query session n (page_request self offset) in
  let k := Z.of_nat (List.length (masters_of records)) in
  let page := fetch_page self session n offset total in
  is_Ok (partition records ∅ []) ->
  0 < k ->
  (direction self = "ASCENDING" -> page_offset page = offset + k)
  /\ (direction self = "DESCENDING" -> page_offset page = offset - k)
  /\ k <= Z.of_nat (List.length records)
  /\ ((exists rec, rec ∈ records /\ recordType rec <> "CPLMaster") ->
      k < Z.of_nat (List.length records))
  /\ (forall limit,
        total < limit -> page_status page = Continue -> page_total page < limit ->
        exists rest,
          events (fetch_loop self session limit n offset total)
          = (page_events page ++ Fetch (page_request self (page_offset page)) :: rest)%list).
Proof.
  intros records k page [[a ms] Hp] Hk.
  pose proof (partition_masters _ _ _ _ _ Hp) as Hms. simpl in Hms.
  assert (Hoff : page_offset page =
                 if String.eqb (direction self) "DESCENDING"
                 then offset - k else offset + k).
  { subst page k. rewrite <- Hms in Hk |- *.
    destruct (all_paired a ms) eqn:Hall.
    - rewrite (fetch_page_paired _ _ _ _ _ Hp); [reflexivity | | exact Hall].
      intros ->. simpl in Hk. lia.
    - rewrite (fetch_page_unpaired _ _ _ _ _ Hp Hall). reflexivity. }
  repeat split.
  - intros Hd. rewrite Hoff, Hd. reflexivity.
  - intros Hd. rewrite Hoff, Hd. reflexivity.
  - subst k. pose proof (masters_of_length records). lia.
  - intros (rec & Hin & Hne). subst k.
    pose proof (masters_of_length_lt records rec Hin Hne). lia.
  - intros limit Hlt Hst Hnext.
    rewrite fetch_loop_unfold.
    apply Z.ltb_lt in Hlt. rewrite Hlt. cbn zeta. fold page. rewrite Hst.
    rewrite (fetch_loop_unfold limit (S n)).
    apply Z.ltb_lt in Hnext. rewrite Hnext. cbn zeta.
    set (next := fetch_page self session (S n) (page_offset page) (page_total page)).
    destruct (fetch_page_events_head (S n) (page_offset page) (page_total page))
      as [rest Hev]. fold next in Hev.
    destruct (page_status next); simpl; rewrite Hev; eexists; reflexivity.
Qed.

(** *** Traces *)

Lemma yielded_app xs ys : yielded (xs ++ ys) = (yielded xs ++ yielded ys)%list.
Proof. apply omap_app. Qed.

Lemma fetched_app xs ys : fetched (xs ++ ys) = (fetched xs ++ fetched ys)%list.
Proof. apply omap_app. Qed.

Lemma yielded_Yield photos : yielded (Yield <$> photos) = photos.
Proof. induction photos as [|x l IH]; simpl; [reflexivity|]. f_equal. exact IH. Qed.

Lemma fetched_Yield photos : fetched (Yield <$> photos) = [].
Proof. induction photos as [|x l IH]; simpl; [reflexivity | exact IH]. Qed.

Lemma guarded_Yield limit total photos evs :
  guarded limit total ((Yield <$> photos) ++ evs)
  <-> guarded limit (total + Z.of_nat (List.length photos)) evs.
Proof.
  revert total. induction photos as [|x l IH]; intros total.
  - cbn. rewrite Z.add_0_r. reflexivity.
  - change (guarded limit (total + 1) ((Yield <$> l) ++ evs)
            <-> guarded limit (total + Z.of_nat (S (List.length l))) evs).
    rewrite IH.
    replace (total + 1 + Z.of_nat (List.length l))
      with (total + Z.of_nat (S (List.length l))) by lia.
    reflexivity.
Qed.

(** A guarded trace, read at one of its queries. *)
Lemma guarded_at limit total pre req post :
  guarded limit total (pre ++ Fetch req :: post) ->
  total + Z.of_nat (List.length (yielded pre)) < limit.
Proof.
  revert total. induction pre as [|[r|x] pre IH]; intros total Hg; simpl in *.
  - lia.
  - destruct Hg as [_ Hg]. apply (IH _ Hg).
  - apply IH in Hg. lia.
Qed.

Lemma fetch_page_Break n offset total :
  page_status (fetch_page self session n offset total) = Break ->
  exists a,
    partition (post_query session n (page_request self offset)) ∅ [] = Ok (a, [])
    /\ page_events (fetch_page self session n offset total)
       = [Fetch (page_request self offset)].
Proof.
  intros Hst.
  destruct (partition (post_query session n (page_request self offset)) ∅ [])
    as [[a ms]|e] eqn:Hp.
  - destruct ms as [|m ms].
    + exists a. split; [reflexivity|]. rewrite (fetch_page_empty _ _ _ _ Hp). reflexivity.
    + destruct (all_paired a (m :: ms)) eqn:Hall.
      * rewrite (fetch_page_paired _ _ _ _ _ Hp) in Hst; [discriminate | discriminate | exact Hall].
      * rewrite (fetch_page_unpaired _ _ _ _ _ Hp Hall) in Hst. discriminate.
  - rewrite (fetch_page_error _ _ _ _ Hp) in Hst. discriminate.
Qed.

(** A page that raises has yielded fewer assets than it has master
    records, and has made one query, its first event. *)
Lemma fetch_page_Raised n offset total e :
  page_status (fetch_page self session n offset total) = Raised e ->
  exists photos,
    page_events (fetch_page self session n offset total)
    = Fetch (page_request self offset) :: (Yield <$> photos)
    /\ (List.length photos
        <= List.length (masters_of (post_query session n (page_request self offset))))%nat.
Proof.
  intros Hst.
  destruct (partition (post_query session n (page_request self offset)) ∅ [])
    as [[a ms]|e'] eqn:Hp.
  - destruct (all_paired a ms) eqn:Hall.
    + destruct ms as [|m ms].
      * rewrite (fetch_page_empty _ _ _ _ Hp) in Hst. discriminate.
      * rewrite (fetch_page_paired _ _ _ _ _ Hp) in Hst;
          [discriminate | discriminate | exact Hall].
    + exists (paired_prefix a ms). rewrite (fetch_page_unpaired _ _ _ _ _ Hp Hall).
      split; [reflexivity|].
      rewrite <- (partition_masters _ _ _ _ _ Hp : ms = masters_of _).
      clear. induction ms as [|m ms IH]; simpl; [lia|].
      destruct (a !! recordName m); simpl; lia.
  - exists []. rewrite (fetch_page_error _ _ _ _ Hp). split; [reflexivity | simpl; lia].
Qed.

(** The events and the total of a page that lets the loop go on. *)
Lemma fetch_page_Continue_events n offset total :
  page_status (fetch_page self session n offset total) = Continue ->
  let records := post_query session n (page_request self offset) in
  page_events (fetch_page self session n offset total)
    = Fetch (page_request self offset) :: (Yield <$> joined_pairs records)
  /\ List.length (joined_pairs records) = List.length (masters_of records)
  /\ page_total (fetch_page self session n offset total)
     = total + Z.of_nat (List.length (masters_of records))
  /\ masters_of records <> [].
Proof.
  intros Hst records.
  destruct (fetch_page_Continue _ _ _ Hst) as (a & ms & Hp & Hne & Hall).
  pose proof (partition_masters _ _ _ _ _ Hp) as Hms. simpl in Hms.
  fold records in Hp, Hms.
  unfold joined_pairs. rewrite Hp, <- Hms.
  rewrite (fetch_page_paired _ _ _ _ _ Hp Hne Hall). simpl.
  rewrite (joined_length _ _ Hall). auto.
Qed.

(** A run starts with a query, if it has any event. *)
Lemma fetch_loop_events_head limit n offset total :
  events (fetch_loop self session limit n offset total) = []
  \/ exists req rest,
       events (fetch_loop self session limit n offset total) = Fetch req :: rest.
Proof.
  rewrite fetch_loop_unfold.
  destruct (total <? limit); [|left; reflexivity]. cbn zeta. right.
  destruct (fetch_page_events_head n offset total) as [tl Hhd].
  destruct (page_status (fetch_page self session n offset total));
    simpl; rewrite Hhd; eauto.
Qed.

(** The limit is tested before a query and nowhere else. *)
Lemma fetch_loop_guarded limit n offset total :
  guarded limit total (events (fetch_loop self session limit n offset total)).
Proof.
  apply (fetch_loop_induction limit (fun _ _ total r => guarded limit total (events r))).
  - intros; exact I.
  - intros n0 o t page Hlt -> Hst.
    destruct (fetch_page_Break _ _ _ Hst) as (a & _ & ->). simpl. auto.
  - intros n0 o t page e Hlt -> Hst.
    destruct (fetch_page_Raised _ _ _ _ Hst) as (photos & -> & _). simpl.
    split; [exact Hlt|].
    rewrite <- (app_nil_r (Yield <$> photos)). apply guarded_Yield. exact I.
  - intros n0 o t page rest Hlt -> Hst -> IH.
    destruct (fetch_page_Continue_events _ _ _ Hst) as (Hev & Hlen & Htot & _).
    simpl. rewrite Hev. simpl. split; [exact Hlt|].
    apply guarded_Yield. rewrite Hlen, <- Htot. exact IH.
Qed.

(** A run that ends without exception has yielded every joined pair of
    every page it fetched, in order. *)
Lemma fetch_loop_yields_all limit n offset total :
  let r := fetch_loop self session limit n offset total in
  ending r = None ->
  yielded (events r) = List.concat (joined_pairs <$> answers session n (fetched (events r))).
Proof.
  apply (fetch_loop_induction limit (fun n _ _ r =>
    ending r = None ->
    yielded (events r) = List.concat (joined_pairs <$> answers session n (fetched (events r))))).
  - reflexivity.
  - intros n0 o t page Hlt -> Hst _.
    destruct (fetch_page_Break _ _ _ Hst) as (a & Hp & ->). simpl.
    unfold joined_pairs. rewrite Hp. reflexivity.
  - intros; discriminate.
  - intros n0 o t page rest Hlt -> Hst -> IH Hend.
    destruct (fetch_page_Continue_events _ _ _ Hst) as (Hev & _).
    simpl in *. rewrite Hev. simpl.
    rewrite yielded_app, fetched_app, yielded_Yield, fetched_Yield. simpl.
    rewrite (IH Hend). reflexivity.
Qed.

(** The assets yielded beyond the limit are fewer than the master
    records of the last page fetched. *)
Lemma fetch_loop_overshoot limit n offset total :
  let r := fetch_loop self session limit n offset total in
  fetched (events r) <> [] ->
  total + Z.of_nat (List.length (yielded (events r)))
  < limit + Z.of_nat (List.length
                        (masters_of (List.last (answers session n (fetched (events r))) []))).
Proof.
  apply (fetch_loop_induction limit (fun n _ total r =>
    fetched (events r) <> [] ->
    total + Z.of_nat (List.length (yielded (events r)))
    < limit + Z.of_nat (List.length
                          (masters_of (List.last (answers session n (fetched (events r))) []))))).
  - intros n0 o t _ Hne. simpl in Hne. congruence.
  - intros n0 o t page Hlt -> Hst _.
    destruct (fetch_page_Break _ _ _ Hst) as (a & _ & ->). simpl. lia.
  - intros n0 o t page e Hlt -> Hst _.
    destruct (fetch_page_Raised _ _ _ _ Hst) as (photos & -> & Hlen). simpl.
    rewrite yielded_Yield, fetched_Yield. simpl. lia.
  - intros n0 o t page rest Hlt -> Hst -> IH _.
    destruct (fetch_page_Continue_events _ _ _ Hst) as (Hev & Hlen & Htot & _).
    simpl in *. rewrite Hev. simpl.
    rewrite yielded_app, fetched_app, yielded_Yield, fetched_Yield, length_app, Hlen.
    simpl.
    destruct (fetched (events (fetch_loop self session limit (S n0)
                (page_offset (fetch_page self session n0 o t))
                (page_total (fetch_page self session n0 o t))))) as [|r rs] eqn:Hf.
    + simpl.
      assert (Hy : yielded (events (fetch_loop self session limit (S n0)
                (page_offset (fetch_page self session n0 o t))
                (page_total (fetch_page self session n0 o t)))) = []).
      { destruct (fetch_loop_events_head limit (S n0)
                    (page_offset (fetch_page self session n0 o t))
                    (page_total (fetch_page self session n0 o t)))
          as [Hnil|(rq & tl & Hhd)].
        - rewrite Hnil. reflexivity.
        - rewrite Hhd in Hf. discriminate Hf. }
      rewrite Hy. simpl. lia.
    + assert (Hne : r :: rs <> []) by discriminate.
      specialize (IH Hne).
      destruct (answers session (S n0) (r :: rs)) eqn:Ha; [discriminate Ha|].
      lia.
Qed.

Lemma fetch_records_with_limit offset limit :
  0 < limit ->
  fetch_records self session offset (Some limit)
  = fetch_loop self session limit 0 offset 0.
Proof.
  intros Hpos. unfold fetch_records, effective_limit.
  replace (limit =? 0) with false by (symmetry; apply Z.eqb_neq; lia).
  reflexivity.
Qed.

(** C10: with a positive [limit], every page is queried while fewer
    than [limit] assets have been yielded, so none is once the total
    has reached [limit]; a run that ends without exception has yielded
    every joined pair of every page it fetched; the assets yielded stay
    below [limit] plus the number of master records of the last page;
    and they can exceed [limit]. *)
Theorem limit_is_tested_before_each_page offset limit :
  0 < limit ->
  let r := fetch_records self session offset (Some limit) in
  let pages := answers session 0 (fetched (events r)) in
  (forall pre req post,
     events r = (pre ++ Fetch req :: post)%list ->
     Z.of_nat (List.length (yielded pre)) < limit)
  /\ (ending r = None -> yielded (events r) = List.concat (joined_pairs <$> pages))
  /\ Z.of_nat (List.length (yielded (events r)))
     < limit + Z.of_nat (List.length (masters_of (List.last pages [])))
  /\ (exists self' session',
        Z.of_nat (List.length (yielded (events (fetch_records self' session' 0 (Some 1)))))
        > 1).
Proof.
  intros Hpos r pages. subst pages r.
  rewrite (fetch_records_with_limit _ _ Hpos).
  repeat split.
  - intros pre req post Hev.
    pose proof (fetch_loop_guarded limit 0 offset 0) as Hg. rewrite Hev in Hg.
    apply guarded_at in Hg. lia.
  - apply fetch_loop_yields_all.
  - pose proof (fetch_loop_overshoot limit 0 offset 0) as Hb. cbn zeta in Hb.
    destruct (fetch_loop_events_head limit 0 offset 0) as [Hnil|(rq & tl & Hhd)].
    + exfalso. revert Hnil. rewrite fetch_loop_unfold.
      replace (0 <? limit) with true by (symmetry; apply Z.ltb_lt; lia).
      cbn zeta. destruct (fetch_page_events_head 0 offset 0) as [tl Hhd].
      destruct (page_status (fetch_page self session 0 offset 0));
        simpl; rewrite Hhd; discriminate.
    + assert (Hne : fetched (events (fetch_loop self session limit 0 offset 0)) <> []).
      { rewrite Hhd. discriminate. }
      specialize (Hb Hne). lia.
  - exists Samples.all_photos,
      (Samples.serving [[Samples.master "m1"; Samples.asset "a1" "m1";
                         Samples.master "m2"; Samples.asset "a2" "m2"]] 2).
    vm_compute. reflexivity.
Qed.

(** The pages served from the [n]-th query on. *)
Lemma fetch_loop_until_empty_page limit pages last rest :
  (forall i req, post_query session i req = nth i pages []) ->
  masters_of last = [] ->
  is_Ok (partition last ∅ []) ->
  forall before done offset total,
    pages = (done ++ before ++ last :: rest)%list ->
    Forall (fun page => masters_of page <> [] /\ fully_paired page = true) before ->
    total + Z.of_nat (List.length (List.concat (masters_of <$> before))) < limit ->
    let r := fetch_loop self session limit (List.length done) offset total in
    ending r = None
    /\ List.length (fetched (events r)) = S (List.length before)
    /\ yielded (events r) = List.concat (joined_pairs <$> before).
Proof.
  intros Hserve Hlast [[a_last ms_last] Hp_last].
  induction before as [|page before IH]; intros done offset total Hpages Hgood Hlim.
  - simpl in Hlim. cbn zeta. rewrite fetch_loop_unfold.
    replace (total <? limit) with true by (symmetry; apply Z.ltb_lt; lia).
    cbn zeta.
    assert (Hp : partition (post_query session (List.length done)
                              (page_request self offset)) ∅ [] = Ok (a_last, [])).
    { rewrite Hserve, Hpages. simpl. rewrite nth_middle, Hp_last.
      pose proof (partition_masters _ _ _ _ _ Hp_last) as Hms. simpl in Hms.
      rewrite Hms, Hlast. reflexivity. }
    rewrite (fetch_page_empty _ _ _ _ Hp). simpl. auto.
  - apply Forall_cons in Hgood as [[Hne Hpaired] Hgood].
    change (List.concat (masters_of <$> page :: before))
      with (masters_of page ++ List.concat (masters_of <$> before))%list in Hlim.
    rewrite length_app in Hlim.
    cbn zeta. rewrite fetch_loop_unfold.
    replace (total <? limit) with true by (symmetry; apply Z.ltb_lt; lia).
    cbn zeta.
    assert (Hpage : post_query session (List.length done) (page_request self offset) = page).
    { rewrite Hserve, Hpages. simpl. apply nth_middle. }
    unfold fully_paired in Hpaired.
    destruct (partition page ∅ []) as [[a ms]|e] eqn:Hp; [|discriminate].
    pose proof (partition_masters _ _ _ _ _ Hp) as Hms. simpl in Hms.
    rewrite <- Hms in Hne, Hlim.
    rewrite <- Hpage in Hp.
    rewrite (fetch_page_paired _ _ _ _ _ Hp Hne Hpaired). simpl.
    specialize (IH (done ++ [page])%list
                  (if String.eqb (direction self) "DESCENDING"
                   then offset - Z.of_nat (List.length ms)
                   else offset + Z.of_nat (List.length ms))
                  (total + Z.of_nat (List.length ms))).
    rewrite length_app in IH. simpl in IH.
    replace (List.length done + 1)%nat with (S (List.length done)) in IH by lia.
    destruct IH as (Hend & Hfetch & Hyield).
    + rewrite Hpages, <- app_assoc. reflexivity.
    + exact Hgood.
    + lia.
    + rewrite fetched_app, yielded_app, fetched_Yield, yielded_Yield. simpl.
      rewrite Hend, Hfetch, Hyield.
      unfold joined_pairs at 2. rewrite <- Hpage, Hp. auto.
Qed.

(** C6, as amended: the limit ends the stream too.  When the pages
    before the first page without master records hold fewer master
    records than the limit in force, and each of these master records
    has its asset counterpart in its page, the run queries these pages
    and the empty one, no page after it, ends there without exception,
    and yields exactly the joined pairs of the pages before it,
    whatever their sizes. *)
Theorem fetch_records_stops_at_first_empty_page offset limit lim before last rest :
  (forall i req, post_query session i req = nth i (before ++ last :: rest)%list []) ->
  effective_limit session limit = Ok lim ->
  Forall (fun page => masters_of page <> [] /\ fully_paired page = true) before ->
  masters_of last = [] ->
  is_Ok (partition last ∅ []) ->
  Z.of_nat (List.length (List.concat (masters_of <$> before))) < lim ->
  let r := fetch_records self session offset limit in
  ending r = None
  /\ List.length (fetched (events r)) = S (List.length before)
  /\ yielded (events r) = List.concat (joined_pairs <$> before)
  /\ List.length (yielded (events r))
     = List.length (List.concat (masters_of <$> before)).
Proof.
  intros Hserve Hlim Hgood Hlast Hok Hsum r. subst r.
  unfold fetch_records. rewrite Hlim.
  destruct (fetch_loop_until_empty_page lim _ last rest Hserve Hlast Hok
              before [] offset 0 eq_refl Hgood) as (Hend & Hfetch & Hyield); [lia|].
  simpl in *. repeat split; try assumption.
  rewrite Hyield. clear - Hgood.
  induction before as [|page before IH]; [reflexivity|].
  apply Forall_cons in Hgood as [[_ Hpaired] Hgood].
  rewrite !fmap_cons. cbn [List.concat]. rewrite !length_app, (IH Hgood). f_equal.
  unfold fully_paired, joined_pairs in *.
  destruct (partition page ∅ []) as [[a ms]|e] eqn:Hp; [|discriminate].
  rewrite (joined_length _ _ Hpaired).
  rewrite (partition_masters _ _ _ _ _ Hp). reflexivity.
Qed.

End fetch_records_facts.

(** *** fetch_records on concrete sessions *)

(** C1 fails as stated: the first master record of the page has no
    asset counterpart and the second has one; the generator raises
    [KeyError] and yields nothing, not even the joined pair. *)
Lemma unpaired_master_is_not_skipped :
  let r := fetch_records all_photos (serving [page_gap] 2) 0 None in
  joined_pairs page_gap = [PhotoAsset_init (master "m2") (asset "a2" "m2")]
  /\ ending r = Some KeyError
  /\ yielded (events r) = [].
Proof. repeat split; vm_compute; reflexivity. Qed.

Lemma unpaired_master_raises_KeyError_witness :
  events (fetch_loop all_photos (serving [page_gap_2] 3) 3 0 0 0)
    = [Fetch (page_request all_photos 0);
       Yield (PhotoAsset_init (master "m0") (asset "a0" "m0"))]
  /\ ending (fetch_loop all_photos (serving [page_gap_2] 3) 3 0 0 0) = Some KeyError.
Proof.
  exact (unpaired_master_raises_KeyError all_photos (serving [page_gap_2] 3) 3 0 0 0
           gap_2_assets
           [master "m0"] (master "m1") [master "m2"]
           ltac:(lia)
           ltac:(vm_compute; reflexivity)
           ltac:(vm_compute; reflexivity)
           ltac:(vm_compute; reflexivity)).
Defined.

Lemma offset_moves_by_master_count_witness :
  page_offset (fetch_page all_photos (serving [page_1; page_2] 3) 0 0 0) = 0 + 2.
Proof.
  refine (proj1 (offset_moves_by_master_count all_photos
                   (serving [page_1; page_2] 3) 0 0 0 _ _) _).
  - eexists. vm_compute. reflexivity.
  - vm_compute. reflexivity.
  - reflexivity.
Defined.

(** C6 fails as stated: the third page is the first without master
    records and the two before it hold three joined pairs, but the
    album counts two assets: the run stops after the first page. *)
Lemma limit_stops_before_empty_page :
  let r := fetch_records all_photos (serving [page_1; page_2; []] 2) 0 None in
  masters_of page_1 <> [] /\ masters_of page_2 <> [] /\ masters_of [] = []
  /\ List.length (List.concat (joined_pairs <$> [page_1; page_2])) = 3%nat
  /\ List.length (fetched (events r)) = 1%nat
  /\ List.length (yielded (events r)) = 2%nat.
Proof. repeat split; try (vm_compute; reflexivity); vm_compute; discriminate. Qed.

Lemma fetch_records_stops_at_first_empty_page_witness :
  let r := fetch_records all_photos (serving [page_1; page_2; []] 10) 0 None in
  ending r = None
  /\ List.length (fetched (events r)) = 3%nat
  /\ yielded (events r) = List.concat (joined_pairs <$> [page_1; page_2])
  /\ List.length (yielded (events r))
     = List.length (List.concat (masters_of <$> [page_1; page_2])).
Proof.
  apply (fetch_records_stops_at_first_empty_page all_photos
           (serving [page_1; page_2; []] 10) 0 None 10 [page_1; page_2] [] []).
  - intros i req. reflexivity.
  - reflexivity.
  - repeat constructor; try (vm_compute; discriminate); vm_compute; reflexivity.
  - reflexivity.
  - eexists. reflexivity.
  - vm_compute. reflexivity.
Defined.

Lemma limit_is_tested_before_each_page_witness :
  Z.of_nat (List.length
              (yielded (events (fetch_records all_photos
                                  (serving [page_1; page_2] 3) 0 (Some 1)))))
  < 1 + Z.of_nat (List.length
                    (masters_of
                       (List.last
                          (answers (serving [page_1; page_2] 3) 0
                             (fetched (events (fetch_records all_photos
                                                 (serving [page_1; page_2] 3) 0 (Some 1)))))
                          []))).
Proof.
  refine (proj1 (proj2 (proj2 (limit_is_tested_before_each_page all_photos
                                 (serving [page_1; page_2] 3) 0 1 _)))).
  lia.
Defined.

(** C10 fails as stated on a page with a master record without
    counterpart: with a limit of 5 the page is fetched, its first
    master record raises [KeyError], and the joined pair behind it is
    not yielded. *)
Lemma fetched_pair_behind_gap_is_not_yielded :
  let r := fetch_records all_photos (serving [page_gap] 2) 0 (Some 5) in
  fetched (events r) = [page_request all_photos 0]
  /\ answers (serving [page_gap] 2) 0 (fetched (events r)) = [page_gap]
  /\ joined_pairs page_gap = [PhotoAsset_init (master "m2") (asset "a2" "m2")]
  /\ yielded (events r) = []
  /\ ending r = Some KeyError.
Proof. repeat split; vm_compute; reflexivity. Qed.

Example fetch_records_overshoots_limit :
  List.length (yielded (events (fetch_records all_photos
                                  (serving [page_1; page_2] 3) 0 (Some 1)))) = 2%nat
  /\ List.length (fetched (events (fetch_records all_photos
                                     (serving [page_1; page_2] 3) 0 (Some 1)))) = 1%nat.
Proof. split; vm_compute; reflexivity. Qed.

Example photos_descending_starts_at_count_minus_1 :
  fetched (events (photos
     {| list_type := "L"; obj_type := "O"; direction := "DESCENDING";
        query_filter := None; page_size := 100; zone_id := VNone |}
     (serving [page_1; page_2] 3)))
  = [{| startRank := 2; req_direction := "DESCENDING"; req_recordType := "L";
        resultsLimit := 200; extra_filters := []; req_zoneID := VNone |};
     {| startRank := 0; req_direction := "DESCENDING"; req_recordType := "L";
        resultsLimit := 200; extra_filters := []; req_zoneID := VNone |}].
Proof. vm_compute. reflexivity. Qed.

(** ** PhotoAsset *)

Section asset_facts.
Context `{Codecs}.

Lemma endswith_any_iff name exts :
  endswith_any (lower name) exts = true
  <-> exists ext, In ext exts /\ ends_with_ignoring_case name ext.
Proof.
  unfold endswith_any. rewrite existsb_exists.
  split; intros (ext & Hin & Hend); exists ext; split; try assumption;
    apply endswith_lower_iff; assumption.
Qed.

Lemma lower_ascii_same_letter c d :
  existsb (Ascii.eqb d) (list_ascii_of_string ".heicpngj") = true ->
  Ascii.eqb (lower_ascii c) d = same_letter c d.
Proof.
  intros Hd. apply existsb_exists in Hd as (x & Hin & Hx).
  apply Ascii.eqb_eq in Hx. subst x. simpl in Hin.
  repeat (destruct Hin as [<-|Hin];
          [destruct c as [[] [] [] [] [] [] [] []]; vm_compute; reflexivity|]).
  destruct Hin.
Qed.

(** On the letters of the extensions, lowering the name first is the
    comparison without regard to case. *)
Lemma lower_equal_ignoring_case tail ext :
  forallb (fun d => existsb (Ascii.eqb d) (list_ascii_of_string ".heicpngj"))
          (list_ascii_of_string ext) = true ->
  lower tail = ext <-> equal_ignoring_case tail ext = true.
Proof.
  revert tail. induction ext as [|d ext IH]; intros tail Hext.
  - destruct tail; simpl; split; intros Heq; try reflexivity; discriminate Heq.
  - simpl in Hext. apply andb_true_iff in Hext as [Hd Hext].
    destruct tail as [|c tail]; simpl.
    + split; intros Heq; discriminate Heq.
    + rewrite <- (lower_ascii_same_letter c d Hd), andb_true_iff, <- (IH tail Hext).
      rewrite Ascii.eqb_eq. split.
      * intros Heq. inversion Heq. split; reflexivity.
      * intros [-> ->]. reflexivity.
Qed.

Lemma image_name_iff name :
  endswith_any (lower name) [".heic"; ".png"; ".jpg"; ".jpeg"] = true
  <-> exists ext, In ext [".heic"; ".png"; ".jpg"; ".jpeg"]
                  /\ ends_ignoring_case name ext.
Proof.
  assert (Hext : forall ext, In ext [".heic"; ".png"; ".jpg"; ".jpeg"] ->
            forall tail, lower tail = ext <-> equal_ignoring_case tail ext = true).
  { intros ext Hin tail. apply lower_equal_ignoring_case.
    destruct Hin as [<-|[<-|[<-|[<-|[]]]]]; reflexivity. }
  etransitivity; [apply endswith_any_iff|].
  split; intros (ext & Hin & stem & tail & Hname & Htail);
    exists ext; (split; [exact Hin|]); exists stem, tail;
    (split; [exact Hname|]); apply (Hext ext Hin tail); exact Htail.
Qed.

Lemma table_find_unknown tag :
  tag ∉ [VStr "public.heic"; VStr "public.jpeg"; VStr "public.png";
         VStr "com.apple.quicktime-movie"] ->
  (forall l, tag <> VList l) ->
  (forall d, tag <> VDict d) ->
  table_find ITEM_TYPES tag = Ok None.
Proof.
  intros Hnot Hlist Hdict. destruct tag as [| | | | |s| | | |]; try reflexivity.
  - destruct (String.eqb "public.heic" s) eqn:E1;
      [apply String.eqb_eq in E1; subst; exfalso; apply Hnot; repeat constructor|].
    destruct (String.eqb "public.jpeg" s) eqn:E2;
      [apply String.eqb_eq in E2; subst; exfalso; apply Hnot; repeat constructor|].
    destruct (String.eqb "public.png" s) eqn:E3;
      [apply String.eqb_eq in E3; subst; exfalso; apply Hnot; repeat constructor|].
    destruct (String.eqb "com.apple.quicktime-movie" s) eqn:E4;
      [apply String.eqb_eq in E4; subst; exfalso; apply Hnot; repeat constructor|].
    unfold table_find, ITEM_TYPES. cbn [table_lookup].
    rewrite E1, E2, E3, E4. reflexivity.
  - exfalso. apply (Hlist l). reflexivity.
  - exfalso. apply (Hdict d). reflexivity.
Qed.

(** C8: the tag is the value of the master record's [itemType] field.
    For the tags [public.heic], [public.jpeg] and [public.png] the kind
    is [image], and for [com.apple.quicktime-movie] it is [movie].
    For any other tag (one that can be hashed) the kind is [image]
    exactly when the file name, decoded from the master record's
    [filenameEnc] field, ends in [.heic], [.png], [.jpg] or [.jpeg]
    with each letter small or capital, and [movie] otherwise. *)
Theorem item_type_decision self type_entry tag :
  dict_lookup (fields (_master_record self)) "itemType" = Some (VDict type_entry) ->
  dict_lookup type_entry "value" = Some tag ->
  (tag ∈ [VStr "public.heic"; VStr "public.jpeg"; VStr "public.png"] ->
   item_type self = Ok "image")
  /\ (tag = VStr "com.apple.quicktime-movie" -> item_type self = Ok "movie")
  /\ (forall name_entry encoded raw name,
        tag ∉ [VStr "public.heic"; VStr "public.jpeg"; VStr "public.png";
               VStr "com.apple.quicktime-movie"] ->
        (forall l, tag <> VList l) ->
        (forall d, tag <> VDict d) ->
        dict_lookup (fields (_master_record self)) "filenameEnc"
          = Some (VDict name_entry) ->
        dict_lookup name_entry "value" = Some encoded ->
        b64decode encoded = Ok raw ->
        utf8_decode raw = Some name ->
        let image_name :=
          exists ext, In ext [".heic"; ".png"; ".jpg"; ".jpeg"]
                      /\ ends_ignoring_case name ext in
        (item_type self = Ok "image" <-> image_name)
        /\ (~ image_name -> item_type self = Ok "movie")).
Proof.
  intros Hentry Hvalue.
  assert (Htag : declared_item_type self = Ok tag).
  { unfold declared_item_type, dict_item. rewrite Hentry. simpl.
    unfold dict_item. rewrite Hvalue. reflexivity. }
  split; [|split].
  - intros Hin. unfold item_type. rewrite Htag. simpl.
    apply elem_of_cons in Hin as [->|Hin]; [reflexivity|].
    apply elem_of_cons in Hin as [->|Hin]; [reflexivity|].
    apply list_elem_of_singleton in Hin as ->. reflexivity.
  - intros ->. unfold item_type. rewrite Htag. reflexivity.
  - intros name_entry encoded raw name Hnot Hlist Hdict Hfile Henc Hraw Hname image_name.
    assert (Hfilename : filename self = Ok name).
    { unfold filename, dict_item. rewrite Hfile. simpl.
      unfold dict_item. rewrite Henc. simpl. rewrite Hraw. simpl.
      rewrite Hname. reflexivity. }
    assert (Hit : item_type self =
                  if endswith_any (lower name) [".heic"; ".png"; ".jpg"; ".jpeg"]
                  then Ok "image" else Ok "movie").
    { unfold item_type. rewrite Htag. simpl.
      rewrite (table_find_unknown tag Hnot Hlist Hdict). simpl.
      rewrite Hfilename. reflexivity. }
    pose proof (image_name_iff name) as Hiff. fold image_name in Hiff.
    destruct (endswith_any (lower name) [".heic"; ".png"; ".jpg"; ".jpeg"]).
    + split; [split; [intros _; apply Hiff; reflexivity | intros _; exact Hit]|].
      intros Hno. exfalso. apply Hno, Hiff. reflexivity.
    + split; [split|].
      * rewrite Hit. intros Heq. discriminate Heq.
      * intros Himg. apply Hiff in Himg. discriminate Himg.
      * intros _. exact Hit.
Qed.

(** *** versions *)

Lemma fill_versions_lookup self flds lookup :
  NoDup lookup.*1 ->
  forall acc acc',
    fill_versions self flds lookup acc = (acc', None) ->
    (forall key prefix,
       (key, prefix) ∈ lookup ->
       dict_mem flds (prefix +:+ "Res") = true ->
       exists version,
         build_version self flds prefix = Ok version /\ acc' !! key = Some version)
    /\ (forall key, key ∉ lookup.*1 -> acc' !! key = acc !! key).
Proof.
  induction lookup as [|[k p] rest IH]; intros Hnd acc acc' Hfill; simpl in *.
  - inversion Hfill; subst. split; [|reflexivity].
    intros key prefix Hin. inversion Hin.
  - apply NoDup_cons in Hnd as [Hk Hnd].
    destruct (dict_mem flds (p +:+ "Res")) eqn:Hmem.
    + destruct (build_version self flds p) as [v|e] eqn:Hb; [|discriminate].
      destruct (IH Hnd _ _ Hfill) as [IHin IHout]. split.
      * intros key prefix Hin Hres.
        apply elem_of_cons in Hin as [Heq|Hin]; [|eauto].
        inversion Heq; subst. exists v. split; [exact Hb|].
        rewrite (IHout _ Hk). apply lookup_insert_eq.
      * intros key Hout. apply not_elem_of_cons in Hout as [Hne Hout].
        rewrite (IHout _ Hout). apply lookup_insert_ne. congruence.
    + destruct (IH Hnd _ _ Hfill) as [IHin IHout]. split.
      * intros key prefix Hin Hres.
        apply elem_of_cons in Hin as [Heq|Hin]; [|eauto].
        inversion Heq; subst. congruence.
      * intros key Hout. apply not_elem_of_cons in Hout as [Hne Hout]. eauto.
Qed.

Lemma version_lookup_NoDup kind :
  NoDup (if String.eqb kind "movie" then VIDEO_VERSION_LOOKUP
         else PHOTO_VERSION_LOOKUP).*1.
Proof.
  destruct (String.eqb kind "movie");
    (refine (bool_decide_unpack (NoDup _) _); vm_compute; exact I).
Qed.

(** The size and the URL of a built version are read in the size entry
    of the fields it is built from. *)
Lemma build_version_size_url self flds prefix version entry :
  build_version self flds prefix = Ok version ->
  dict_lookup flds (prefix +:+ "Res") = Some entry ->
  truthy entry = true ->
  (v ← getitem entry "value"; getitem v "size") = Ok (v_size version)
  /\ (v ← getitem entry "value"; getitem v "downloadURL") = Ok (v_url version).
Proof.
  unfold build_version, dict_get. intros Hb Hentry Htrue. rewrite Hentry, Htrue in Hb.
  apply result_bind_Ok in Hb as (name & _ & Hb).
  apply result_bind_Ok in Hb as (width & _ & Hb).
  apply result_bind_Ok in Hb as (height & _ & Hb).
  apply result_bind_Ok in Hb as ([size url] & Hsu & Hb).
  apply result_bind_Ok in Hsu as (v1 & Hv1 & Hsu).
  apply result_bind_Ok in Hsu as (sz & Hsz & Hsu).
  apply result_bind_Ok in Hsu as (v2 & Hv2 & Hsu).
  apply result_bind_Ok in Hsu as (u & Hu & Hsu).
  inversion Hsu; subst sz u. rewrite Hv1 in Hv2. inversion Hv2; subst v2.
  assert (Hv : v_size version = size /\ v_url version = url).
  { destruct (truthy _).
    - apply result_bind_Ok in Hb as (ty & _ & Hb).
      apply result_bind_Ok in Hb as (nm & _ & Hb).
      apply result_bind_Ok in Hb as (tg & _ & Hb).
      apply result_bind_Ok in Hb as (kn & _ & Hb).
      inversion Hb. simpl. auto.
    - inversion Hb. simpl. auto. }
  destruct Hv as [-> ->]. rewrite Hv1. simpl. auto.
Qed.


(** Once computed and not empty, the versions are returned as they are. *)
Lemma versions_memo self vs self' :
  versions self = (Ok vs, self') ->
  vs <> ∅ ->
  versions self' = (Ok vs, self').
Proof.
  intros Hv Hne.
  assert (Hcell : _versions self' = Some vs).
  { unfold versions in Hv. destruct (versions_unset self) eqn:Hunset.
    - destruct (item_type self) as [kind|e]; [|discriminate].
      destruct (fill_versions self (fields (_master_record self)) _ ∅)
        as [acc1 [e1|]]; [discriminate|].
      destruct (fill_versions self (fields (_asset_record self)) _ acc1)
        as [acc2 [e2|]]; [discriminate|].
      inversion Hv. reflexivity.
    - inversion Hv; subst. unfold versions_unset in Hunset.
      destruct (_versions self'); [reflexivity | discriminate]. }
  unfold versions, versions_unset. rewrite Hcell.
  rewrite bool_decide_eq_false_2 by exact Hne. reflexivity.
Qed.

End asset_facts.

(** *** Coordinates *)

Section coordinates_facts.
Context `{Codecs}.



Lemma decode_blob_absent flds name :
  dict_lookup flds name = None -> decode_blob flds name = Ok VNone.
Proof. intros Hno. unfold decode_blob, dict_get. rewrite Hno. reflexivity. Qed.







End coordinates_facts.

(** *** PhotoAsset on concrete records *)

Lemma item_type_decision_witness :
  item_type photo = Ok "image"
  /\ item_type MoreSamples.scan = Ok "image"
  /\ item_type clip = Ok "movie".
Proof.
  pose proof (item_type_decision (H := Ref.codecs) photo
                [("value", VStr "public.jpeg")] (VStr "public.jpeg")
                eq_refl eq_refl) as (Hphoto & _ & _).
  pose proof (item_type_decision (H := Ref.codecs) MoreSamples.scan
                [("value", VStr "public.tiff")] (VStr "public.tiff")
                eq_refl eq_refl) as (_ & _ & Hscan).
  pose proof (item_type_decision (H := Ref.codecs) clip
                [("value", VStr "com.apple.m4v-video")] (VStr "com.apple.m4v-video")
                eq_refl eq_refl) as (_ & _ & Hclip).
  assert (Hunknown : forall s,
            s <> "public.heic" -> s <> "public.jpeg" -> s <> "public.png" ->
            s <> "com.apple.quicktime-movie" ->
            VStr s ∉ [VStr "public.heic"; VStr "public.jpeg"; VStr "public.png";
                      VStr "com.apple.quicktime-movie"]).
  { intros s H1 H2 H3 H4 Hin. repeat (apply elem_of_cons in Hin as [Heq|Hin];
      [inversion Heq; congruence|]). inversion Hin. }
  destruct (Hscan [("value", VStr "c2Nhbi5QTkc=")] (VStr "c2Nhbi5QTkc=")
              (list_byte_of_string "scan.PNG") "scan.PNG") as [Hscan_image _].
  { apply Hunknown; discriminate. }
  { discriminate. }
  { discriminate. }
  { reflexivity. }
  { reflexivity. }
  { vm_compute. reflexivity. }
  { vm_compute. reflexivity. }
  destruct (Hclip [("value", VStr "Y2xpcC5NT1Y=")] (VStr "Y2xpcC5NT1Y=")
              (list_byte_of_string "clip.MOV") "clip.MOV") as [_ Hclip_movie].
  { apply Hunknown; discriminate. }
  { discriminate. }
  { discriminate. }
  { reflexivity. }
  { reflexivity. }
  { vm_compute. reflexivity. }
  { vm_compute. reflexivity. }
  refine (conj (Hphoto _) (conj (proj2 Hscan_image _) (Hclip_movie _))).
  - repeat constructor.
  - exists ".png". split; [simpl; tauto|]. exists "scan", ".PNG".
    split; reflexivity.
  - intros Himage. apply image_name_iff in Himage.
    vm_compute in Himage. discriminate Himage.
Defined.

Example item_type_by_extension :
  filename clip = Ok "clip.MOV" /\
  table_find ITEM_TYPES (VStr "com.apple.m4v-video") = Ok None /\
  item_type clip = Ok "movie".
Proof. repeat split; vm_compute; reflexivity. Qed.



Example versions_thumb_of_photo :
  photo_versions !! "thumb"
  = Some {| v_filename := "IMG_0001.PNG"; v_width := VNone; v_height := VNone;
            v_size := VInt 222; v_url := VStr "https://asset/thumb";
            v_type := VStr "public.png" |}
  /\ photo_versions !! "original"
    = Some {| v_filename := "IMG_0001.JPEG"; v_width := VInt 4032;
              v_height := VInt 3024; v_size := VInt 1000;
              v_url := VStr "https://master/original";
              v_type := VStr "public.jpeg" |}.
Proof. split; vm_compute; reflexivity. Qed.


(** A second call returns the memoized versions. *)
Example versions_second_call :
  versions photo_after = (Ok photo_versions, photo_after).
Proof.
  apply (versions_memo (H := Ref.codecs) photo).
  - vm_compute. reflexivity.
  - intros Hempty.
    assert (Hthumb : photo_versions !! "thumb" = None) by (rewrite Hempty; reflexivity).
    vm_compute in Hthumb. discriminate Hthumb.
Qed.

(** An exception in [versions] leaves the dict as filled so far in the
    memo cell: here the master record has no file name. *)
Example versions_raises_and_keeps_cell :
  let nameless :=
    PhotoAsset_init
      {| recordName := "m4"; recordType := "CPLMaster";
         fields := [("itemType", env (VStr "public.png"));
                    ("resOriginalRes", res 1 "https://master/original")] |}
      clip_asset in
  (versions nameless).1 = Err KeyError
  /\ _versions (versions nameless).2 = Some ∅.
Proof. split; vm_compute; reflexivity. Qed.

(** * Further properties *)

(** ** The partition of a response *)

Lemma last_cons_or {A} (x : A) (l : list A) :
  last (x :: l) = match last l with Some y => Some y | None => Some x end.
Proof.
  revert x. induction l as [|y l IH]; intros x; [reflexivity|].
  change (last (x :: y :: l)) with (last (y :: l)).
  rewrite (IH y). destruct (last l); reflexivity.
Qed.

Lemma last_elem_of {A} (l : list A) (x : A) : last l = Some x -> x ∈ l.
Proof.
  induction l as [|y l IH]; [discriminate|].
  rewrite last_cons_or. destruct (last l) as [z|] eqn:E.
  - intros Hx. inversion Hx; subst. right. apply IH. reflexivity.
  - intros Hx. inversion Hx; subst. left.
Qed.

Lemma store_asset_lookup a id rec a' s :
  store_asset a id rec = Ok a' ->
  a' !! s = if match id with VStr s' => String.eqb s' s | _ => false end
            then Some rec else a !! s.
Proof.
  destruct id; simpl; intros Hs; inversion Hs; subst; try reflexivity.
  destruct (String.eqb s0 s) eqn:E.
  - apply String.eqb_eq in E. subst. apply lookup_insert_eq.
  - apply String.eqb_neq in E. apply lookup_insert_ne. exact E.
Qed.

Lemma partition_lookup records a0 ms0 a ms s :
  partition records a0 ms0 = Ok (a, ms) ->
  a !! s = match last (List.filter (names_master s) records) with
           | Some rec => Some rec
           | None => a0 !! s
           end.
Proof.
  revert a0 ms0. induction records as [|rec rest IH]; intros a0 ms0 Hp; simpl in Hp.
  - inversion Hp. reflexivity.
  - simpl. unfold names_master at 1.
    destruct (String.eqb (recordType rec) "CPLAsset") eqn:Ha; simpl.
    + apply result_bind_Ok in Hp as (id & Hid & Hp).
      apply result_bind_Ok in Hp as (a1 & Hstore & Hp).
      rewrite Hid. rewrite (IH _ _ Hp).
      rewrite (store_asset_lookup _ _ _ _ s Hstore).
      destruct id; try reflexivity.
      destruct (String.eqb s0 s); [|reflexivity].
      rewrite last_cons_or.
      destruct (last (List.filter (names_master s) rest)); reflexivity.
    + destruct (String.eqb (recordType rec) "CPLMaster"); apply (IH _ _ Hp).
Qed.

(** X1: the partition of a response keeps the master records in
    response order and, for each name, the last asset record of the
    response that refers to it, wherever it stands with respect to the
    master record. *)
Theorem partition_keeps_last_asset records a ms :
  partition records ∅ [] = Ok (a, ms) ->
  ms = masters_of records
  /\ forall s, a !! s = last (List.filter (names_master s) records).
Proof.
  intros Hp. split.
  - apply (partition_masters _ _ _ _ _ Hp).
  - intros s. rewrite (partition_lookup _ _ _ _ _ s Hp).
    destruct (last (List.filter (names_master s) records)); [reflexivity|].
    apply lookup_empty.
Qed.

(** X2: a response is partitioned without exception exactly when each
    of its asset records carries a master reference
    ([fields.masterRef.value.recordName]) that can be hashed; records
    of other types are never looked into. *)
Theorem partition_succeeds_iff records a0 ms0 :
  is_Ok (partition records a0 ms0)
  <-> Forall (fun rec => recordType rec = "CPLAsset" -> storable rec = true) records.
Proof.
  revert a0 ms0. induction records as [|rec rest IH]; intros a0 ms0; simpl.
  - split; [constructor | intros _; eexists; reflexivity].
  - destruct (String.eqb (recordType rec) "CPLAsset") eqn:Ha.
    + apply String.eqb_eq in Ha. split.
      * intros [[a ms] Hp].
        apply result_bind_Ok in Hp as (id & Hid & Hp).
        apply result_bind_Ok in Hp as (a1 & Hstore & Hp).
        constructor.
        -- intros _. unfold storable. rewrite Hid.
           destruct id; try reflexivity; discriminate.
        -- apply (IH a1 ms0). eexists; exact Hp.
      * intros Hall. apply Forall_cons in Hall as [Hrec Hrest].
        specialize (Hrec Ha). unfold storable in Hrec.
        destruct (master_ref rec) as [id|e]; [|discriminate]. simpl.
        destruct id; try discriminate; simpl; apply IH; exact Hrest.
    + apply String.eqb_neq in Ha.
      destruct (String.eqb (recordType rec) "CPLMaster").
      * rewrite IH. split.
        -- intros Hall. constructor; [congruence | exact Hall].
        -- intros Hall. apply Forall_cons in Hall as [_ Hall]. exact Hall.
      * rewrite IH. split.
        -- intros Hall. constructor; [congruence | exact Hall].
        -- intros Hall. apply Forall_cons in Hall as [_ Hall]. exact Hall.
Qed.

(** ** Runs of fetch_records, event by event *)

Section pagination_more.
Variable self : PhotoAlbum.
Variable session : Session.

Lemma fetch_page_events n offset total :
  page_events (fetch_page self session n offset total)
  = Fetch (page_request self offset)
      :: (Yield <$> page_yields (post_query session n (page_request self offset))).
Proof.
  unfold page_yields.
  destruct (partition (post_query session n (page_request self offset)) ∅ [])
    as [[a ms]|e] eqn:Hp.
  - destruct (all_paired a ms) eqn:Hall.
    + destruct ms as [|m ms].
      * rewrite (fetch_page_empty _ _ _ _ _ _ Hp). reflexivity.
      * rewrite (fetch_page_paired _ _ _ _ _ _ _ Hp); [|discriminate|exact Hall].
        rewrite (paired_prefix_all _ _ Hall). reflexivity.
    + rewrite (fetch_page_unpaired _ _ _ _ _ _ _ Hp Hall). reflexivity.
  - rewrite (fetch_page_error _ _ _ _ _ _ Hp). reflexivity.
Qed.

(** Whatever its end, a run has yielded what each of its pages yields. *)
Lemma fetch_loop_yields limit n offset total :
  let r := fetch_loop self session limit n offset total in
  yielded (events r)
  = List.concat (page_yields <$> answers session n (fetched (events r))).
Proof.
  apply (fetch_loop_induction self session limit (fun n _ _ r =>
    yielded (events r)
    = List.concat (page_yields <$> answers session n (fetched (events r))))).
  - reflexivity.
  - intros n0 o t page Hlt -> Hst. simpl. rewrite fetch_page_events. simpl.
    rewrite yielded_Yield, fetched_Yield. simpl. rewrite app_nil_r. reflexivity.
  - intros n0 o t page e Hlt -> Hst. simpl. rewrite fetch_page_events. simpl.
    rewrite yielded_Yield, fetched_Yield. simpl. rewrite app_nil_r. reflexivity.
  - intros n0 o t page rest Hlt -> Hst -> IH. simpl. rewrite fetch_page_events. simpl.
    rewrite yielded_app, fetched_app, yielded_Yield, fetched_Yield. simpl.
    rewrite IH. reflexivity.
Qed.

Lemma page_yields_joined records photo :
  photo ∈ page_yields records ->
  well_joined photo
  /\ _master_record photo ∈ records
  /\ _asset_record photo ∈ records.
Proof.
  unfold page_yields.
  destruct (partition records ∅ []) as [[a ms]|e] eqn:Hp; [|intros Hin; inversion Hin].
  pose proof (partition_masters _ _ _ _ _ Hp) as Hms. simpl in Hms.
  assert (Hmaster : forall m, m ∈ ms -> recordType m = "CPLMaster" /\ m ∈ records).
  { intros m Hm. rewrite Hms in Hm. apply list_elem_of_In in Hm.
    apply List.filter_In in Hm as [Hin Hty]. split.
    - apply String.eqb_eq. exact Hty.
    - apply list_elem_of_In. exact Hin. }
  assert (Hasset : forall s rec, a !! s = Some rec ->
            names_master s rec = true /\ rec ∈ records).
  { intros s rec Hs. rewrite (partition_lookup _ _ _ _ _ s Hp) in Hs.
    destruct (last (List.filter (names_master s) records)) as [x|] eqn:Hlast.
    - inversion Hs; subst x. apply last_elem_of, list_elem_of_In in Hlast.
      apply List.filter_In in Hlast as [Hin Hnm]. split; [exact Hnm|].
      apply list_elem_of_In. exact Hin.
    - rewrite lookup_empty in Hs. discriminate. }
  clear Hms Hp. induction ms as [|m ms IH]; simpl; [intros Hin; inversion Hin|].
  destruct (a !! recordName m) as [x|] eqn:Hx; [|intros Hin; inversion Hin].
  intros Hin. apply elem_of_cons in Hin as [->|Hin].
  - destruct (Hmaster m) as [Hty Hm]; [left|].
    destruct (Hasset _ _ Hx) as [Hnm Hxin].
    unfold names_master in Hnm. apply andb_true_iff in Hnm as [Hxt Href].
    apply String.eqb_eq in Hxt.
    unfold well_joined. simpl. repeat split; try assumption.
    destruct (master_ref x) as [[| | | | |s'| | | |]|]; try discriminate.
    apply String.eqb_eq in Href. subst. reflexivity.
  - apply IH; [|exact Hin]. intros m' Hm'. apply Hmaster. right. exact Hm'.
Qed.

(** X3: every asset that a run of [fetch_records] yields joins a
    CPLMaster record with a CPLAsset record of the same fetched page
    whose master reference is the master record's name, and starts
    with no versions computed. *)
Theorem yielded_assets_are_joined_pairs offset limit photo :
  let r := fetch_records self session offset limit in
  photo ∈ yielded (events r) ->
  well_joined photo
  /\ exists page,
       page ∈ answers session 0 (fetched (events r))
       /\ _master_record photo ∈ page
       /\ _asset_record photo ∈ page.
Proof.
  intros r Hin. subst r. unfold fetch_records in *.
  destruct (effective_limit session limit) as [lim|e]; [|inversion Hin].
  rewrite fetch_loop_yields in Hin.
  apply list_elem_of_In, in_concat in Hin as (ys & Hys & Hphoto).
  apply list_elem_of_In, list_elem_of_fmap in Hys as (page & -> & Hpage).
  apply list_elem_of_In, page_yields_joined in Hphoto as (Hwj & Hm & Ha).
  split; [exact Hwj|]. exists page. auto.
Qed.

Lemma ranked_Yield descending rank photos evs :
  ranked descending rank ((Yield <$> photos) ++ evs)
  <-> ranked descending
        (if descending then rank - Z.of_nat (List.length photos)
         else rank + Z.of_nat (List.length photos)) evs.
Proof.
  revert rank. induction photos as [|x l IH]; intros rank.
  - cbn. destruct descending; rewrite ?Z.sub_0_r, ?Z.add_0_r; reflexivity.
  - change (ranked descending (if descending then rank - 1 else rank + 1)
              ((Yield <$> l) ++ evs)
            <-> ranked descending
                  (if descending then rank - Z.of_nat (S (List.length l))
                   else rank + Z.of_nat (S (List.length l))) evs).
    rewrite IH.
    destruct descending.
    + replace (rank - 1 - Z.of_nat (List.length l))
        with (rank - Z.of_nat (S (List.length l))) by lia. reflexivity.
    + replace (rank + 1 + Z.of_nat (List.length l))
        with (rank + Z.of_nat (S (List.length l))) by lia. reflexivity.
Qed.

Lemma ranked_at descending rank pre req post :
  ranked descending rank (pre ++ Fetch req :: post) ->
  startRank req = if descending then rank - Z.of_nat (List.length (yielded pre))
                  else rank + Z.of_nat (List.length (yielded pre)).
Proof.
  revert rank. induction pre as [|[r|x] pre IH]; intros rank Hr; simpl in *.
  - destruct Hr as [-> _]. destruct descending; lia.
  - destruct Hr as [_ Hr]. apply (IH _ Hr).
  - apply IH in Hr. rewrite Hr. destruct descending; lia.
Qed.

Lemma fetch_loop_ranked limit n offset total :
  ranked (String.eqb (direction self) "DESCENDING") offset
    (events (fetch_loop self session limit n offset total)).
Proof.
  apply (fetch_loop_induction self session limit (fun _ offset _ r =>
    ranked (String.eqb (direction self) "DESCENDING") offset (events r))).
  - intros; exact I.
  - intros n0 o t page Hlt -> Hst. simpl. rewrite fetch_page_events. simpl.
    split; [reflexivity|].
    rewrite <- (app_nil_r (Yield <$> _)). apply ranked_Yield. exact I.
  - intros n0 o t page e Hlt -> Hst. simpl. rewrite fetch_page_events. simpl.
    split; [reflexivity|].
    rewrite <- (app_nil_r (Yield <$> _)). apply ranked_Yield. exact I.
  - intros n0 o t page rest Hlt -> Hst -> IH.
    destruct (fetch_page_Continue _ _ _ _ _ Hst) as (a & ms & Hp & Hne & Hall).
    revert IH. simpl. rewrite (fetch_page_paired _ _ _ _ _ _ _ Hp Hne Hall). simpl.
    intros IH. split; [reflexivity|].
    apply ranked_Yield. rewrite (joined_length _ _ Hall). exact IH.
Qed.

Lemma fetch_loop_requests limit n offset total req :
  req ∈ fetched (events (fetch_loop self session limit n offset total)) ->
  req = page_request self (startRank req).
Proof.
  revert req.
  apply (fetch_loop_induction self session limit (fun _ _ _ r =>
    forall req, req ∈ fetched (events r) -> req = page_request self (startRank req))).
  - intros n0 o t _ req Hin. inversion Hin.
  - intros n0 o t page Hlt -> Hst req. simpl. rewrite fetch_page_events. simpl.
    rewrite fetched_Yield. intros Hin. apply list_elem_of_singleton in Hin as ->.
    reflexivity.
  - intros n0 o t page e Hlt -> Hst req. simpl. rewrite fetch_page_events. simpl.
    rewrite fetched_Yield. intros Hin. apply list_elem_of_singleton in Hin as ->.
    reflexivity.
  - intros n0 o t page rest Hlt -> Hst -> IH req. simpl.
    rewrite fetch_page_events. simpl. rewrite fetched_app, fetched_Yield. simpl.
    intros Hin. apply elem_of_cons in Hin as [->|Hin]; [reflexivity | apply (IH _ Hin)].
Qed.

(** X4: every query of a run is the album's own query: its list type,
    its direction, twice its page size as results limit, its filters
    and its zone; and it starts at the rank where the assets yielded so
    far have left off, counted from [offset] down for a DESCENDING
    album and up for any other. *)
Theorem queries_follow_the_yields offset limit pre req post :
  events (fetch_records self session offset limit) = (pre ++ Fetch req :: post)%list ->
  startRank req
    = (if String.eqb (direction self) "DESCENDING"
       then offset - Z.of_nat (List.length (yielded pre))
       else offset + Z.of_nat (List.length (yielded pre)))
  /\ req_recordType req = list_type self
  /\ req_direction req = direction self
  /\ resultsLimit req = page_size self * 2
  /\ extra_filters req = default [] (query_filter self)
  /\ req_zoneID req = zone_id self.
Proof.
  unfold fetch_records.
  destruct (effective_limit session limit) as [lim|e];
    [|intros Hev; destruct pre; discriminate Hev].
  intros Hev. split.
  - pose proof (fetch_loop_ranked lim 0 offset 0) as Hr. rewrite Hev in Hr.
    apply (ranked_at _ _ _ _ _ Hr).
  - assert (Hreq : req = page_request self (startRank req)).
    { apply (fetch_loop_requests lim 0 offset 0). rewrite Hev, fetched_app. simpl.
      apply elem_of_app. right. left. }
    rewrite Hreq. simpl. destruct (query_filter self); auto.
Qed.

Lemma fetch_loop_query_count limit n offset total :
  (List.length (fetched (events (fetch_loop self session limit n offset total)))
   <= Z.to_nat (limit - total))%nat.
Proof.
  apply (fetch_loop_induction self session limit (fun _ _ total r =>
    (List.length (fetched (events r)) <= Z.to_nat (limit - total))%nat)).
  - intros; simpl; lia.
  - intros n0 o t page Hlt -> Hst. simpl. rewrite fetch_page_events. simpl.
    rewrite fetched_Yield. simpl. lia.
  - intros n0 o t page e Hlt -> Hst. simpl. rewrite fetch_page_events. simpl.
    rewrite fetched_Yield. simpl. lia.
  - intros n0 o t page rest Hlt -> Hst -> IH.
    destruct (fetch_page_Continue_events _ _ _ _ _ Hst) as (_ & _ & Htot & Hne).
    simpl. rewrite fetch_page_events. simpl.
    rewrite fetched_app, fetched_Yield. simpl.
    destruct (masters_of (post_query session n0 (page_request self o)));
      [congruence|]. simpl in Htot. lia.
Qed.

(** X5: a run of [fetch_records] makes at most as many queries as its
    limit in force counts assets, and with a limit of zero or less in
    force it makes none, yields nothing and ends without exception. *)
Theorem queries_bounded_by_limit offset limit lim :
  effective_limit session limit = Ok lim ->
  let r := fetch_records self session offset limit in
  (List.length (fetched (events r)) <= Z.to_nat lim)%nat
  /\ (lim <= 0 -> events r = [] /\ ending r = None).
Proof.
  intros Hlim r. subst r. unfold fetch_records. rewrite Hlim. split.
  - pose proof (fetch_loop_query_count lim 0 offset 0) as Hc.
    replace (lim - 0) with lim in Hc by lia. exact Hc.
  - intros Hle. rewrite fetch_loop_unfold.
    replace (0 <? lim) with false by (symmetry; apply Z.ltb_nlt; lia).
    split; reflexivity.
Qed.

Lemma len_in_range :
  0 <= item_count session <= sys_maxsize ->
  len session = Ok (item_count session).
Proof.
  unfold len, sys_maxsize. intros Hrange. cbv zeta.
  replace (item_count session <? - (2 ^ 63 - 1) - 1) with false
    by (symmetry; apply Z.ltb_nlt; lia).
  replace (2 ^ 63 - 1 <? item_count session) with false
    by (symmetry; apply Z.ltb_nlt; lia).
  replace (item_count session <? 0) with false
    by (symmetry; apply Z.ltb_nlt; lia).
  reflexivity.
Qed.

Lemma len_overflow :
  sys_maxsize < item_count session ->
  len session = Err (OtherError "OverflowError").
Proof.
  unfold len, sys_maxsize. intros Hbig. cbv zeta.
  replace (2 ^ 63 - 1 <? item_count session) with true
    by (symmetry; apply Z.ltb_lt; exact Hbig).
  rewrite orb_true_r. reflexivity.
Qed.

(** X6: the [photos] of an album that counts no asset make no query and
    yield nothing; those of an album that counts some, and no more
    than [sys.maxsize], start their first query at rank 0, or at the
    count less one when the album is DESCENDING; and those of an album
    whose count is above [sys.maxsize] make no query and end with the
    [OverflowError] of [len]. *)
Theorem photos_first_query :
  (item_count session = 0 ->
   events (photos self session) = [] /\ ending (photos self session) = None)
  /\ (0 < item_count session <= sys_maxsize ->
      exists rest,
        events (photos self session)
        = Fetch (page_request self
                   (if String.eqb (direction self) "DESCENDING"
                    then item_count session - 1 else 0)) :: rest)
  /\ (sys_maxsize < item_count session ->
      events (photos self session) = []
      /\ ending (photos self session) = Some (OtherError "OverflowError")).
Proof.
  split; [|split].
  - intros Hzero. unfold photos, fetch_records, effective_limit.
    rewrite len_in_range by (rewrite Hzero; unfold sys_maxsize; lia).
    rewrite Hzero.
    destruct (String.eqb (direction self) "DESCENDING");
      rewrite fetch_loop_unfold; simpl; split; reflexivity.
  - intros Hpos. unfold photos, fetch_records, effective_limit.
    rewrite len_in_range by lia.
    assert (Hfirst : forall o, exists rest,
              events (fetch_loop self session (item_count session) 0 o 0)
              = Fetch (page_request self o) :: rest).
    { intros o. rewrite fetch_loop_unfold.
      replace (0 <? item_count session) with true by (symmetry; apply Z.ltb_lt; lia).
      cbn zeta.
      destruct (page_status (fetch_page self session 0 o 0));
        simpl; rewrite fetch_page_events; eexists; reflexivity. }
    destruct (String.eqb (direction self) "DESCENDING"); apply Hfirst.
  - intros Hbig. unfold photos, fetch_records, effective_limit.
    rewrite (len_overflow Hbig).
    destruct (String.eqb (direction self) "DESCENDING"); split; reflexivity.
Qed.

End pagination_more.

(** ** More on parse_fields *)

Lemma dict_set_keys (d : dict) k v :
  (dict_set d k v).*1 = if decide (k ∈ d.*1) then d.*1 else (d.*1 ++ [k])%list.
Proof.
  induction d as [|[k' v'] d IH].
  - destruct (decide (k ∈ ([] : dict).*1)) as [Hd|_]; [inversion Hd | reflexivity].
  - simpl dict_set. destruct (String.eqb k' k) eqn:E.
    + apply String.eqb_eq in E. subst. rewrite !fmap_cons. simpl.
      destruct (decide (k ∈ k :: d.*1)) as [_|Hno]; [reflexivity|].
      exfalso. apply Hno. left.
    + apply String.eqb_neq in E. rewrite !fmap_cons, IH. simpl.
      destruct (decide (k ∈ d.*1)) as [Hin|Hno];
        destruct (decide (k ∈ k' :: d.*1)) as [Hin'|Hno']; try reflexivity; exfalso.
      * apply Hno'. right. exact Hin.
      * apply elem_of_cons in Hin' as [->|Hin']; [congruence | auto].
Qed.

Lemma dict_set_new (d : dict) k v :
  k ∉ d.*1 -> dict_set d k v = (d ++ [(k, v)])%list.
Proof.
  induction d as [|[k' v'] d IH]; simpl; [reflexivity|].
  intros Hno. apply not_elem_of_cons in Hno as [Hne Hno].
  replace (String.eqb k' k) with false by (symmetry; apply String.eqb_neq; congruence).
  rewrite (IH Hno). reflexivity.
Qed.

Section parse_fields_more.
Context `{Codecs}.

Lemma parse_items_keys recur items acc out :
  parse_items recur items acc = Ok out ->
  NoDup acc.*1 ->
  NoDup out.*1
  /\ forall k, k ∈ out.*1 <-> k ∈ acc.*1 \/ k ∈ (out_key <$> items.*1).
Proof.
  revert acc. induction items as [|[k0 v0] items IH]; intros acc Hp Hnd; simpl in Hp.
  - inversion Hp; subst. split; [exact Hnd|]. intros k. split; [auto|].
    intros [Hk|Hk]; [exact Hk | inversion Hk].
  - destruct (parse_field recur k0 v0) as [kv|e] eqn:Hf; [|discriminate].
    simpl in Hp. pose proof (parse_field_key _ _ _ _ Hf) as Hkey.
    assert (Hset : forall k, k ∈ (dict_set acc kv.1 kv.2).*1
                             <-> k ∈ acc.*1 \/ k = out_key k0).
    { intros k. rewrite dict_set_keys, Hkey.
      destruct (decide (out_key k0 ∈ acc.*1)) as [Hin|Hno].
      - split; [auto|]. intros [Hk| ->]; assumption.
      - rewrite elem_of_app, list_elem_of_singleton. reflexivity. }
    destruct (IH _ Hp) as [Hnd' Hiff].
    { rewrite dict_set_keys.
      destruct (decide (kv.1 ∈ acc.*1)) as [Hin|Hno]; [exact Hnd|].
      apply NoDup_app. split; [exact Hnd|]. split.
      - intros k Hk Hk'. apply list_elem_of_singleton in Hk'. subst. auto.
      - apply NoDup_singleton. }
    split; [exact Hnd'|]. intros k. rewrite Hiff, Hset. simpl.
    rewrite elem_of_cons. tauto.
Qed.

(** X7: the mapping that [parse_fields] returns holds each key once,
    and its keys are exactly the keys of the input with the reserved
    part removed from those that end with it. *)
Theorem parse_fields_keys depth fields parsed :
  parse_fields depth fields = Ok parsed ->
  NoDup parsed.*1
  /\ forall k, k ∈ parsed.*1 <-> k ∈ (out_key <$> fields.*1).
Proof.
  destruct depth as [|depth]; [discriminate|]. simpl. intros Hp.
  destruct (parse_items_keys _ _ _ _ Hp) as [Hnd Hiff]; [constructor|].
  split; [exact Hnd|]. intros k. rewrite Hiff. split; [|auto].
  intros [Hk|Hk]; [inversion Hk | exact Hk].
Qed.

(** X8: of the fields stored under one key the last in input order
    wins: the mapping returned holds, under that key, what the loop
    body makes of this field. *)
Theorem parse_fields_last_field_wins depth pre key value post parsed :
  parse_fields (S depth) (pre ++ (key, value) :: post) = Ok parsed ->
  Forall (fun kv => out_key kv.1 <> out_key key) post ->
  exists val,
    parse_field (parse_fields depth) key value = Ok (out_key key, val)
    /\ dict_lookup parsed (out_key key) = Some val.
Proof.
  simpl. intros Hrun Hpost. rewrite parse_items_app in Hrun.
  apply result_bind_Ok in Hrun as (mid & _ & Hrun). simpl in Hrun.
  destruct (parse_field (parse_fields depth) key value) as [[k val]|e] eqn:Hf;
    [|discriminate].
  simpl in Hrun. pose proof (parse_field_key _ _ _ _ Hf) as Hk. simpl in Hk. subst k.
  exists val. split; [reflexivity|].
  rewrite (parse_items_keeps _ _ _ _ _ Hrun Hpost). apply dict_lookup_set_eq.
Qed.

Lemma parse_field_mono (recur recur' : dict -> result dict) key value kv :
  (forall d r, recur d = Ok r -> recur' d = Ok r) ->
  parse_field recur key value = Ok kv ->
  parse_field recur' key value = Ok kv.
Proof.
  intros Hmono. unfold parse_field.
  destruct (if endswith key "Enc" then _ else _) as [[k v]|e]; [|discriminate].
  simpl. destruct v; try (intros Hf; exact Hf).
  destruct (recur d) as [r|e] eqn:Hr; [|discriminate].
  rewrite (Hmono _ _ Hr). intros Hf; exact Hf.
Qed.

Lemma parse_items_mono (recur recur' : dict -> result dict) items acc out :
  (forall d r, recur d = Ok r -> recur' d = Ok r) ->
  parse_items recur items acc = Ok out ->
  parse_items recur' items acc = Ok out.
Proof.
  intros Hmono. revert acc. induction items as [|[k v] items IH]; intros acc; simpl.
  - intros Hp; exact Hp.
  - destruct (parse_field recur k v) as [kv|e] eqn:Hf; [|discriminate].
    rewrite (parse_field_mono _ _ _ _ _ Hmono Hf). simpl. apply IH.
Qed.

(** X9: the recursion limit only bounds the nesting: a mapping
    returned within one limit is returned within every larger one. *)
Theorem parse_fields_deeper depth depth' fields parsed :
  parse_fields depth fields = Ok parsed ->
  (depth <= depth')%nat ->
  parse_fields depth' fields = Ok parsed.
Proof.
  revert depth' fields parsed.
  induction depth as [|depth IH]; intros depth' fields parsed Hp Hle; [discriminate|].
  destruct depth' as [|depth']; [lia|]. simpl in *.
  apply (parse_items_mono (parse_fields depth)); [|exact Hp].
  intros d r Hd. apply (IH _ _ _ Hd). lia.
Qed.

Lemma parse_items_plain recur items acc :
  Forall (fun kv => endswith kv.1 "Enc" = false
                    /\ forall d, unwrap kv.2 <> VDict d) items ->
  NoDup (acc.*1 ++ items.*1) ->
  parse_items recur items acc
  = Ok (acc ++ ((fun kv => (kv.1, decode_text (second_of_pair (unwrap kv.2))))
                  <$> items))%list.
Proof.
  revert acc. induction items as [|[k v] items IH]; intros acc Hall Hnd; simpl.
  - rewrite app_nil_r. reflexivity.
  - apply Forall_cons in Hall as [[Hkey Hval] Hall]. simpl in Hkey, Hval.
    assert (Hf : parse_field recur k v
                 = Ok (k, decode_text (second_of_pair (unwrap v)))).
    { unfold parse_field. rewrite Hkey. simpl.
      destruct (unwrap v) eqn:Hu; try reflexivity.
      exfalso. apply (Hval d). reflexivity. }
    rewrite Hf. simpl.
    simpl in Hnd. apply NoDup_app in Hnd as (Hacc & Hdisj & Hitems).
    apply NoDup_cons in Hitems as [Hk Hitems].
    rewrite dict_set_new by (intros Hin; apply (Hdisj _ Hin); left).
    rewrite IH; [rewrite <- app_assoc; reflexivity | exact Hall |].
    rewrite fmap_app. simpl. rewrite <- app_assoc. simpl.
    apply NoDup_app. split; [exact Hacc|]. split.
    + exact Hdisj.
    + apply NoDup_cons. split; assumption.
Qed.

(** X10: a mapping with distinct keys, none with the reserved ending,
    and no mapping among its values once unwrapped, is normalised
    without exception and without a nested call: field by field in
    input order, each value is unwrapped, reduced to its second
    element if it is a pair, and turned into text if it is bytes that
    decode. *)
Theorem parse_fields_plain_record depth fields :
  NoDup fields.*1 ->
  Forall (fun kv => endswith kv.1 "Enc" = false
                    /\ forall d, unwrap kv.2 <> VDict d) fields ->
  parse_fields (S depth) fields
  = Ok ((fun kv => (kv.1, decode_text (second_of_pair (unwrap kv.2)))) <$> fields).
Proof.
  intros Hnd Hall. simpl. apply (parse_items_plain _ _ [] Hall). exact Hnd.
Qed.

End parse_fields_more.

(** ** More on versions *)

Lemma str_app_nil_r s : s +:+ "" = s.
Proof. induction s as [|c s IH]; [reflexivity|]. rewrite str_app_cons, IH. reflexivity. Qed.

Lemma str_app_assoc a b c : (a +:+ b) +:+ c = a +:+ (b +:+ c).
Proof. induction a as [|x a IH]; [reflexivity|]. rewrite !str_app_cons, IH. reflexivity. Qed.

Lemma rev_app_app a b s : String.rev_app a b +:+ s = String.rev_app a (b +:+ s).
Proof.
  revert b. induction a as [|c a IH]; intros b; [reflexivity|].
  simpl. rewrite IH. reflexivity.
Qed.

Lemma rev_cons_app c cur s : String.rev (String c cur) +:+ s = String.rev cur +:+ String c s.
Proof. unfold String.rev. simpl. rewrite !rev_app_app. reflexivity. Qed.

Lemma not_occurs_cons sep c s :
  ~ occurs_in (String sep "") (String c s) ->
  c <> sep /\ ~ occurs_in (String sep "") s.
Proof.
  intros Hno. split.
  - intros ->. apply Hno. exists "", s. reflexivity.
  - intros (a & b & ->). apply Hno. exists (String c a), b. reflexivity.
Qed.

(** A name without the separator is one piece. *)
Lemma split_from_one_piece sep s cur :
  ~ occurs_in (String sep "") s ->
  split_from sep s cur = [String.rev cur +:+ s].
Proof.
  revert cur. induction s as [|c s IH]; intros cur Hno; simpl.
  - rewrite str_app_nil_r. reflexivity.
  - apply not_occurs_cons in Hno as [Hc Hno].
    replace (Ascii.eqb c sep) with false by (symmetry; apply Ascii.eqb_neq; exact Hc).
    rewrite (IH _ Hno), rev_cons_app. reflexivity.
Qed.

(** The last piece is what follows the last separator, and the pieces
    before it join back into what precedes it. *)
Lemma split_from_last_piece sep stem ext cur :
  ~ occurs_in (String sep "") ext ->
  exists front,
    front <> []
    /\ split_from sep (stem +:+ String sep ext) cur = (front ++ [ext])%list
    /\ join (String sep "") front = String.rev cur +:+ stem.
Proof.
  intros Hext. revert cur. induction stem as [|c stem IH]; intros cur.
  - exists [String.rev cur]. split; [discriminate|]. simpl.
    rewrite Ascii.eqb_refl, (split_from_one_piece _ _ _ Hext), str_app_nil_r.
    split; reflexivity.
  - rewrite str_app_cons. simpl. destruct (Ascii.eqb c sep) eqn:Hc.
    + apply Ascii.eqb_eq in Hc. subst c.
      destruct (IH "") as (front & Hne & Hsplit & Hjoin).
      exists (String.rev cur :: front). split; [discriminate|].
      rewrite Hsplit. split; [reflexivity|].
      destruct front as [|p front]; [congruence|].
      change (join (String sep "") (String.rev cur :: p :: front))
        with (String.rev cur +:+ String sep "" +:+ join (String sep "") (p :: front)).
      rewrite Hjoin. reflexivity.
    + destruct (IH (String c cur)) as (front & Hne & Hsplit & Hjoin).
      exists front. split; [exact Hne|]. split; [exact Hsplit|].
      rewrite Hjoin. apply rev_cons_app.
Qed.

Section versions_more.
Context `{Codecs}.

Lemma fill_versions_keys self flds lookup acc acc' key :
  fill_versions self flds lookup acc = (acc', None) ->
  is_Some (acc' !! key)
  <-> is_Some (acc !! key)
      \/ exists prefix, (key, prefix) ∈ lookup
                        /\ dict_mem flds (prefix +:+ "Res") = true.
Proof.
  revert acc. induction lookup as [|[k p] rest IH]; intros acc Hfill; simpl in Hfill.
  - inversion Hfill; subst. split; [auto|].
    intros [Hs|(prefix & Hin & _)]; [exact Hs | inversion Hin].
  - destruct (dict_mem flds (p +:+ "Res")) eqn:Hmem.
    + destruct (build_version self flds p) as [v|e]; [|discriminate].
      rewrite (IH _ Hfill). rewrite lookup_insert_is_Some. split.
      * intros [[->|[_ Hs]]|(prefix & Hin & Hres)].
        -- right. exists p. split; [left | exact Hmem].
        -- left. exact Hs.
        -- right. exists prefix. split; [right; exact Hin | exact Hres].
      * intros [Hs|(prefix & Hin & Hres)].
        -- left. destruct (decide (k = key)); [left; assumption | right; auto].
        -- apply elem_of_cons in Hin as [Heq|Hin].
           ++ inversion Heq; subst. left. left. reflexivity.
           ++ right. exists prefix. auto.
    + rewrite (IH _ Hfill). split.
      * intros [Hs|(prefix & Hin & Hres)]; [left; exact Hs|].
        right. exists prefix. split; [right; exact Hin | exact Hres].
      * intros [Hs|(prefix & Hin & Hres)]; [left; exact Hs|].
        apply elem_of_cons in Hin as [Heq|Hin].
        -- inversion Heq; subst. congruence.
        -- right. exists prefix. auto.
Qed.

Lemma fill_versions_untouched self flds lookup acc acc' key :
  fill_versions self flds lookup acc = (acc', None) ->
  (forall prefix, (key, prefix) ∈ lookup -> dict_mem flds (prefix +:+ "Res") = false) ->
  acc' !! key = acc !! key.
Proof.
  revert acc. induction lookup as [|[k p] rest IH]; intros acc Hfill Hno; simpl in Hfill.
  - inversion Hfill. reflexivity.
  - assert (Hrest : forall prefix, (key, prefix) ∈ rest ->
                      dict_mem flds (prefix +:+ "Res") = false).
    { intros prefix Hin. apply Hno. right. exact Hin. }
    destruct (dict_mem flds (p +:+ "Res")) eqn:Hmem.
    + destruct (build_version self flds p) as [v|e]; [|discriminate].
      rewrite (IH _ Hfill Hrest). apply lookup_insert_ne.
      intros ->. specialize (Hno p). rewrite Hmem in Hno.
      discriminate Hno. left.
    + apply (IH _ Hfill Hrest).
Qed.

Lemma versions_computed self kind vs self' :
  versions_unset self = true ->
  item_type self = Ok kind ->
  versions self = (Ok vs, self') ->
  exists acc,
    fill_versions self (fields (_master_record self))
      (if String.eqb kind "movie" then VIDEO_VERSION_LOOKUP else PHOTO_VERSION_LOOKUP) ∅
    = (acc, None)
    /\ fill_versions self (fields (_asset_record self))
         (if String.eqb kind "movie" then VIDEO_VERSION_LOOKUP else PHOTO_VERSION_LOOKUP) acc
       = (vs, None).
Proof.
  intros Hunset Hkind Hv. unfold versions in Hv. rewrite Hunset, Hkind in Hv.
  cbn iota in Hv.
  destruct (fill_versions self (fields (_master_record self)) _ ∅)
    as [acc1 [e1|]] eqn:Hfill1; [discriminate|].
  destruct (fill_versions self (fields (_asset_record self)) _ acc1)
    as [acc2 [e2|]] eqn:Hfill2; [discriminate|].
  inversion Hv; subst. exists acc1. split; [reflexivity | exact Hfill2].
Qed.

(** X11: the versions computed for an asset hold a tier exactly when
    the size field of the tier's prefix, in the table of the asset's
    kind, is in the fields of the master record or of the asset
    record. *)
Theorem versions_tiers self kind vs self' key :
  versions_unset self = true ->
  item_type self = Ok kind ->
  versions self = (Ok vs, self') ->
  is_Some (vs !! key)
  <-> exists prefix,
        (key, prefix) ∈ (if String.eqb kind "movie" then VIDEO_VERSION_LOOKUP
                         else PHOTO_VERSION_LOOKUP)
        /\ (dict_mem (fields (_master_record self)) (prefix +:+ "Res") = true
            \/ dict_mem (fields (_asset_record self)) (prefix +:+ "Res") = true).
Proof.
  intros Hunset Hkind Hv.
  destruct (versions_computed _ _ _ _ Hunset Hkind Hv) as (acc & Hm & Ha).
  rewrite (fill_versions_keys _ _ _ _ _ key Ha), (fill_versions_keys _ _ _ _ _ key Hm).
  rewrite lookup_empty. split.
  - intros [[Hs|(prefix & Hin & Hres)]|(prefix & Hin & Hres)].
    + destruct Hs as [x Hx]. discriminate Hx.
    + exists prefix. auto.
    + exists prefix. auto.
  - intros (prefix & Hin & [Hres|Hres]).
    + left. right. exists prefix. auto.
    + right. exists prefix. auto.
Qed.

Lemma NoDup_keys_unique {A B} (l : list (A * B)) x y1 y2 :
  NoDup (l.*1) -> (x, y1) ∈ l -> (x, y2) ∈ l -> y1 = y2.
Proof.
  induction l as [|[k v] l IH]; intros Hnd H1 H2; [inversion H1|].
  rewrite fmap_cons in Hnd. apply NoDup_cons in Hnd as [Hk Hnd].
  apply elem_of_cons in H1 as [E1|H1]; apply elem_of_cons in H2 as [E2|H2].
  - congruence.
  - inversion E1; subst. exfalso. apply Hk.
    apply list_elem_of_fmap. exists (k, y2). split; [reflexivity | exact H2].
  - inversion E2; subst. exfalso. apply Hk.
    apply list_elem_of_fmap. exists (k, y1). split; [reflexivity | exact H1].
  - exact (IH Hnd H1 H2).
Qed.

Lemma lookup_prefix_unique kind key prefix prefix' :
  (key, prefix) ∈ (if String.eqb kind "movie" then VIDEO_VERSION_LOOKUP
                   else PHOTO_VERSION_LOOKUP) ->
  (key, prefix') ∈ (if String.eqb kind "movie" then VIDEO_VERSION_LOOKUP
                    else PHOTO_VERSION_LOOKUP) ->
  prefix' = prefix.
Proof.
  intros Hin Hin'. pose proof (version_lookup_NoDup kind) as Hnd.
  exact (NoDup_keys_unique _ key prefix' prefix Hnd Hin' Hin).
Qed.

(** X12: for a tier whose size field is in the fields of the master
    record only, the version is the one built from the master record's
    fields. *)
Theorem versions_master_only_tier self kind key prefix vs self' :
  versions_unset self = true ->
  item_type self = Ok kind ->
  (key, prefix) ∈ (if String.eqb kind "movie" then VIDEO_VERSION_LOOKUP
                   else PHOTO_VERSION_LOOKUP) ->
  dict_mem (fields (_master_record self)) (prefix +:+ "Res") = true ->
  dict_mem (fields (_asset_record self)) (prefix +:+ "Res") = false ->
  versions self = (Ok vs, self') ->
  exists version,
    build_version self (fields (_master_record self)) prefix = Ok version
    /\ vs !! key = Some version.
Proof.
  intros Hunset Hkind Hin Hmaster Hasset Hv.
  destruct (versions_computed _ _ _ _ Hunset Hkind Hv) as (acc & Hm & Ha).
  destruct (fill_versions_lookup _ _ _ (version_lookup_NoDup kind) _ _ Hm)
    as [Hlook _].
  destruct (Hlook key prefix Hin Hmaster) as (version & Hb & Hget).
  exists version. split; [exact Hb|].
  rewrite (fill_versions_untouched _ _ _ _ _ key Ha); [exact Hget|].
  intros prefix' Hin'. rewrite (lookup_prefix_unique _ _ _ _ Hin Hin'). exact Hasset.
Qed.

(** X13: when only the master record has an original size entry, and
    that entry is not empty, the [size] of the asset is the size of
    its [original] version. *)
Theorem size_is_original_version_size self vs self' entry :
  versions_unset self = true ->
  versions self = (Ok vs, self') ->
  dict_lookup (fields (_master_record self)) "resOriginalRes" = Some entry ->
  truthy entry = true ->
  dict_mem (fields (_asset_record self)) "resOriginalRes" = false ->
  exists version,
    vs !! "original" = Some version /\ size self = Ok (v_size version).
Proof.
  intros Hunset Hv Hentry Htrue Hasset.
  destruct (item_type self) as [kind|e] eqn:Hkind.
  2: { unfold versions in Hv. rewrite Hunset, Hkind in Hv. discriminate Hv. }
  destruct (versions_computed _ _ _ _ Hunset Hkind Hv) as (acc & Hm & Ha).
  assert (Hin : ("original", "resOriginal")
                ∈ (if String.eqb kind "movie" then VIDEO_VERSION_LOOKUP
                   else PHOTO_VERSION_LOOKUP)).
  { destruct (String.eqb kind "movie"); vm_compute; set_solver. }
  destruct (fill_versions_lookup _ _ _ (version_lookup_NoDup kind) _ _ Hm)
    as [Hlook _].
  destruct (Hlook "original" "resOriginal" Hin) as (version & Hb & Hget).
  { unfold dict_mem. change ("resOriginal" +:+ "Res") with "resOriginalRes".
    rewrite Hentry. reflexivity. }
  exists version. split.
  - rewrite (fill_versions_untouched _ _ _ _ _ "original" Ha); [exact Hget|].
    intros prefix' Hin'. rewrite (lookup_prefix_unique _ _ _ _ Hin Hin'). exact Hasset.
  - destruct (build_version_size_url _ _ _ _ _ Hb Hentry Htrue) as [Hsize _].
    unfold size. unfold dict_item. rewrite Hentry. exact Hsize.
Qed.

End versions_more.

Section version_names.
Context `{Codecs}.

(** X14: the file name of a version.  Without a file type entry (or
    with an empty one) it is the asset's file name.  With one, the
    part of the file name after its last dot is replaced by the
    extension that [ITEM_TYPE_SUFFIX] has for the type tag, and kept
    when the table has none; a file name without a dot becomes a dot
    followed by that extension. *)
Theorem version_filename_rule self flds prefix version name :
  filename self = Ok name ->
  build_version self flds prefix = Ok version ->
  let type_entry := dict_get flds (prefix +:+ "FileType") VNone in
  (truthy type_entry = false ->
     v_filename version = name /\ v_type version = VNone)
  /\ (truthy type_entry = true ->
      exists tag known,
        getitem type_entry "value" = Ok tag
        /\ table_find ITEM_TYPE_SUFFIX tag = Ok known
        /\ v_type version = tag
        /\ (forall stem ext,
              name = stem +:+ "." +:+ ext -> ~ occurs_in "." ext ->
              v_filename version = stem +:+ "." +:+ default ext known)
        /\ (~ occurs_in "." name ->
            v_filename version = "." +:+ default name known)).
Proof.
  intros Hname Hb type_entry. unfold build_version in Hb.
  rewrite Hname in Hb. cbn [mbind result_bind] in Hb.
  destruct (entry_value (dict_get flds (prefix +:+ "Width") VNone))
    as [width|?]; [|discriminate].
  destruct (entry_value (dict_get flds (prefix +:+ "Height") VNone))
    as [height|?]; [|discriminate].
  cbn [mbind result_bind] in Hb.
  match type of Hb with
  | (?m ≫= _) = _ => destruct m as [size_url|?]; [|discriminate]
  end.
  cbn [mbind result_bind] in Hb. fold type_entry in Hb.
  destruct (truthy type_entry) eqn:Htype.
  - split; [discriminate|]. intros _.
    destruct (getitem type_entry "value") as [tag|?] eqn:Htag; [|discriminate].
    cbn [mbind result_bind] in Hb.
    destruct (table_find ITEM_TYPE_SUFFIX tag) as [known|?] eqn:Hknown;
      [|discriminate].
    cbn [mbind result_bind] in Hb. inversion Hb; subst version; clear Hb.
    exists tag, known. cbn [v_filename v_type].
    split; [reflexivity|]. split; [exact Hknown|]. split; [reflexivity|]. split.
    + intros stem ext -> Hext. unfold split.
      destruct (split_from_last_piece "." stem ext "" Hext)
        as (front & Hne & Hsplit & Hjoin).
      change (String "." ext) with ("." +:+ ext) in Hsplit.
      rewrite Hsplit, removelast_last, last_last, Hjoin. reflexivity.
    + intros Hno. unfold split.
      rewrite (split_from_one_piece "." name "" Hno). reflexivity.
  - split; [|discriminate]. intros _.
    inversion Hb; subst version. split; reflexivity.
Qed.

End version_names.

Section memo_more.
Context `{Codecs}.

Lemma fill_versions_set_versions self cell flds lookup acc :
  fill_versions (set_versions self cell) flds lookup acc
  = fill_versions self flds lookup acc.
Proof.
  revert acc. induction lookup as [|[k p] rest IH]; intros acc; simpl; [reflexivity|].
  change (build_version (set_versions self cell) flds p)
    with (build_version self flds p).
  destruct (dict_mem flds (p +:+ "Res")); [|apply IH].
  destruct (build_version self flds p); [apply IH | reflexivity].
Qed.

(** With an empty memo cell the property computes again what it
    computed from no cell. *)
Lemma versions_rerun self :
  versions_unset self = true ->
  versions (set_versions self ∅) = versions self.
Proof.
  intros Hunset. unfold versions. rewrite Hunset.
  change (versions_unset (set_versions self ∅)) with (bool_decide (∅ =@{gmap string Version} ∅)).
  rewrite bool_decide_eq_true_2 by reflexivity.
  change (item_type (set_versions self ∅)) with (item_type self).
  destruct (item_type self) as [kind|e]; [|reflexivity].
  cbv zeta.
  change (fields (_master_record (set_versions self ∅)))
    with (fields (_master_record self)).
  change (fields (_asset_record (set_versions self ∅)))
    with (fields (_asset_record self)).
  rewrite fill_versions_set_versions.
  destruct (fill_versions self (fields (_master_record self)) _ ∅) as [acc1 [e1|]];
    [reflexivity|].
  rewrite fill_versions_set_versions.
  destruct (fill_versions self (fields (_asset_record self)) _ acc1) as [acc2 [e2|]];
    reflexivity.
Qed.

Lemma fill_versions_failure self flds lookup acc acc' e :
  fill_versions self flds lookup acc = (acc', Some e) ->
  exists reached key prefix rest,
    lookup = (reached ++ (key, prefix) :: rest)%list
    /\ dict_mem flds (prefix +:+ "Res") = true
    /\ build_version self flds prefix = Err e
    /\ fill_versions self flds reached acc = (acc', None).
Proof.
  revert acc. induction lookup as [|[k p] lookup IH]; intros acc Hfill;
    simpl in Hfill; [discriminate|].
  destruct (dict_mem flds (p +:+ "Res")) eqn:Hmem.
  - destruct (build_version self flds p) as [v|e0] eqn:Hb.
    + destruct (IH _ Hfill) as (reached & key & prefix & rest & -> & Hm & Hbe & Hr).
      exists ((k, p) :: reached), key, prefix, rest.
      split; [reflexivity|]. split; [exact Hm|]. split; [exact Hbe|].
      simpl. rewrite Hmem, Hb. exact Hr.
    + inversion Hfill; subst. exists [], k, p, lookup.
      split; [reflexivity|]. split; [exact Hmem|]. split; [exact Hb|]. reflexivity.
  - destruct (IH _ Hfill) as (reached & key & prefix & rest & -> & Hm & Hbe & Hr).
    exists ((k, p) :: reached), key, prefix, rest.
    split; [reflexivity|]. split; [exact Hm|]. split; [exact Hbe|].
    simpl. rewrite Hmem. exact Hr.
Qed.

Lemma NoDup_reached {A} (reached : list (string * A)) x rest :
  NoDup ((reached ++ x :: rest)%list).*1 -> NoDup reached.*1.
Proof. rewrite fmap_app. intros Hnd. apply NoDup_app in Hnd as [Hnd _]. exact Hnd. Qed.

(** X16: when the computation of the versions raises, the tiers built
    before the exception stay in the memo cell.  The exception is the
    one of reading the item type, with nothing stored, or the one of
    building a tier from the master record or from the asset record;
    the cell then holds the versions of the tiers reached before that
    tier in the record that was being read, for the asset record on
    top of those of all the tiers of the master record, and no other.
    If the cell is empty, the next reading computes again and raises
    the same exception; if it is not, the next reading returns the
    cell, without an exception and without the tiers that were not
    reached. *)
Theorem versions_after_failure self e self' :
  versions_unset self = true ->
  versions self = (Err e, self') ->
  exists partial,
    _versions self' = Some partial
    /\ (partial = ∅ -> versions self' = (Err e, self'))
    /\ (partial <> ∅ -> versions self' = (Ok partial, self'))
    /\ ((item_type self = Err e /\ partial = ∅)
        \/ exists kind reached key prefix rest,
             item_type self = Ok kind
             /\ (if String.eqb kind "movie" then VIDEO_VERSION_LOOKUP
                 else PHOTO_VERSION_LOOKUP)
                = (reached ++ (key, prefix) :: rest)%list
             /\ ((dict_mem (fields (_master_record self)) (prefix +:+ "Res") = true
                  /\ build_version self (fields (_master_record self)) prefix = Err e
                  /\ built_from self (fields (_master_record self)) reached partial
                  /\ (forall k,
                        is_Some (partial !! k) ->
                        exists p,
                          (k, p) ∈ reached
                          /\ dict_mem (fields (_master_record self)) (p +:+ "Res")
                             = true))
                 \/ (dict_mem (fields (_asset_record self)) (prefix +:+ "Res") = true
                     /\ build_version self (fields (_asset_record self)) prefix = Err e
                     /\ built_from self (fields (_asset_record self)) reached partial
                     /\ (forall k p,
                           (k, p) ∈ (reached ++ (key, prefix) :: rest)%list ->
                           dict_mem (fields (_master_record self)) (p +:+ "Res")
                           = true ->
                           ((k, p) ∈ reached ->
                            dict_mem (fields (_asset_record self)) (p +:+ "Res")
                            = false) ->
                           exists version,
                             build_version self (fields (_master_record self)) p
                             = Ok version
                             /\ partial !! k = Some version)
                     /\ (forall k,
                           is_Some (partial !! k) ->
                           exists p,
                             (k, p) ∈ (reached ++ (key, prefix) :: rest)%list
                             /\ (dict_mem (fields (_master_record self)) (p +:+ "Res")
                                 = true
                                 \/ ((k, p) ∈ reached
                                     /\ dict_mem (fields (_asset_record self))
                                          (p +:+ "Res") = true)))))).
Proof.
  intros Hunset Hv.
  assert (Hnext : forall partial,
            self' = set_versions self partial ->
            (partial = ∅ -> versions self' = (Err e, self'))
            /\ (partial <> ∅ -> versions self' = (Ok partial, self'))).
  { intros partial ->. split.
    - intros ->. rewrite (versions_rerun _ Hunset). exact Hv.
    - intros Hne. unfold versions.
      change (versions_unset (set_versions self partial))
        with (bool_decide (partial = ∅)).
      rewrite bool_decide_eq_false_2 by exact Hne. reflexivity. }
  unfold versions in Hv. rewrite Hunset in Hv.
  destruct (item_type self) as [kind|e0] eqn:Hkind.
  2: { inversion Hv; subst. exists ∅. split; [reflexivity|].
       destruct (Hnext ∅ eq_refl) as [Hempty Hfull].
       split; [exact Hempty|]. split; [exact Hfull|]. left. split; reflexivity. }
  cbv zeta in Hv.
  pose proof (version_lookup_NoDup kind) as Hnd.
  destruct (fill_versions self (fields (_master_record self)) _ ∅)
    as [acc1 [e1|]] eqn:Hmaster.
  - inversion Hv; subst e1 self'. exists acc1. split; [reflexivity|].
    destruct (Hnext acc1 eq_refl) as [Hempty Hfull].
    split; [exact Hempty|]. split; [exact Hfull|]. right.
    destruct (fill_versions_failure _ _ _ _ _ _ Hmaster)
      as (reached & key & prefix & rest & Htable & Hmem & Hb & Hreached).
    exists kind, reached, key, prefix, rest.
    split; [reflexivity|]. split; [exact Htable|]. left.
    split; [exact Hmem|]. split; [exact Hb|].
    rewrite Htable in Hnd. apply NoDup_reached in Hnd.
    destruct (fill_versions_lookup _ _ _ Hnd _ _ Hreached) as [Hlook _]. split.
    + exact Hlook.
    + intros k Hk. apply (fill_versions_keys _ _ _ _ _ k Hreached) in Hk.
      destruct Hk as [[x Hx]|Hk]; [rewrite lookup_empty in Hx; discriminate Hx|].
      exact Hk.
  - destruct (fill_versions self (fields (_asset_record self)) _ acc1)
      as [acc2 [e2|]] eqn:Hasset; [|discriminate].
    inversion Hv; subst e2 self'. exists acc2. split; [reflexivity|].
    destruct (Hnext acc2 eq_refl) as [Hempty Hfull].
    split; [exact Hempty|]. split; [exact Hfull|]. right.
    destruct (fill_versions_failure _ _ _ _ _ _ Hasset)
      as (reached & key & prefix & rest & Htable & Hmem & Hb & Hreached).
    exists kind, reached, key, prefix, rest.
    split; [reflexivity|]. split; [exact Htable|]. right.
    split; [exact Hmem|]. split; [exact Hb|].
    destruct (fill_versions_lookup _ _ _ Hnd _ _ Hmaster) as [Hall _].
    pose proof Hnd as Hnd'. rewrite Htable in Hnd'. apply NoDup_reached in Hnd'.
    destruct (fill_versions_lookup _ _ _ Hnd' _ _ Hreached) as [Hlook _].
    split; [exact Hlook|]. split.
    + intros k p Hin Hm Hno. rewrite <- Htable in Hin.
      destruct (Hall k p Hin Hm) as (version & Hbv & Hget).
      exists version. split; [exact Hbv|].
      rewrite (fill_versions_untouched _ _ _ _ _ k Hreached); [exact Hget|].
      intros p' Hin'.
      assert (Hin'' : (k, p') ∈ (if String.eqb kind "movie"
                                  then VIDEO_VERSION_LOOKUP
                                  else PHOTO_VERSION_LOOKUP)).
      { rewrite Htable. apply elem_of_app. left. exact Hin'. }
      rewrite (lookup_prefix_unique _ _ _ _ Hin Hin'') in Hin' |- *.
      apply Hno. exact Hin'.
    + intros k Hk. apply (fill_versions_keys _ _ _ _ _ k Hreached) in Hk.
      destruct Hk as [Hk|(p & Hin & Hm)].
      * apply (fill_versions_keys _ _ _ _ _ k Hmaster) in Hk.
        destruct Hk as [[x Hx]|(p & Hin & Hm)];
          [rewrite lookup_empty in Hx; discriminate Hx|].
        exists p. rewrite <- Htable. split; [exact Hin|]. left. exact Hm.
      * exists p. split; [apply elem_of_app; left; exact Hin|].
        right. split; [exact Hin | exact Hm].
Qed.

(** X15: [download] asks for the URL of the tier in the versions, and
    for nothing when the versions have no such tier; its second
    reading of the versions neither raises nor changes the asset. *)
Theorem download_reads_versions self vs self' version :
  versions self = (Ok vs, self') ->
  download self version = (Ok (v_url <$> vs !! version), self').
Proof.
  intros Hv. unfold download. rewrite Hv.
  destruct (vs !! version) as [v|] eqn:Hget; [|reflexivity].
  assert (Hne : vs <> ∅).
  { intros ->. rewrite lookup_empty in Hget. discriminate Hget. }
  rewrite (versions_memo _ _ _ Hv Hne), Hget. reflexivity.
Qed.

Lemma dict_lookup_middle (pre post : dict) name entry :
  name ∉ pre.*1 ->
  dict_lookup (pre ++ (name, entry) :: post) name = Some entry.
Proof.
  induction pre as [|[k v] pre IH]; intros Hnot; simpl.
  - rewrite String.eqb_refl. reflexivity.
  - rewrite fmap_cons in Hnot. apply not_elem_of_cons in Hnot as [Hk Hnot].
    simpl in Hk. destruct (String.eqb k name) eqn:E.
    + apply String.eqb_eq in E. congruence.
    + apply IH. exact Hnot.
Qed.

Lemma encoded_text_agrees depth (flds : dict) name d v raw text pre post parsed :
  flds = (pre ++ (name, VDict d) :: post)%list ->
  name ∉ pre.*1 ->
  Forall (fun kv => out_key kv.1 <> out_key name) post ->
  endswith name "Enc" = true ->
  dict_lookup d "value" = Some v ->
  b64decode v = Ok raw ->
  BPListReader_parse (VBytes raw) = Err BadMagicException ->
  utf8_decode raw = Some text ->
  parse_fields (S depth) flds = Ok parsed ->
  encoded_text flds name = Ok (VStr text)
  /\ dict_lookup parsed (out_key name) = Some (VStr text).
Proof.
  intros -> Hpre Hpost Hend Hd Hraw Hmagic Htext Hrun. split.
  - unfold encoded_text, dict_get, dict_item.
    rewrite (dict_lookup_middle _ _ _ _ Hpre).
    assert (Htrue : truthy (VDict d) = true).
    { destruct d; [discriminate Hd | reflexivity]. }
    rewrite Htrue. simpl. unfold dict_item. rewrite Hd. simpl.
    rewrite Hraw. simpl. rewrite Htext. reflexivity.
  - simpl in Hrun. rewrite parse_items_app in Hrun.
    apply result_bind_Ok in Hrun as (mid & _ & Hrun). simpl in Hrun.
    assert (Hu : unwrap (VDict d) = v).
    { unfold unwrap, dict_get. rewrite Hd. reflexivity. }
    rewrite (parse_field_BadMagic _ name (VDict d) raw Hend) in Hrun;
      [|rewrite Hu; exact Hraw | exact Hmagic].
    rewrite Htext in Hrun. simpl in Hrun.
    rewrite (parse_items_keeps _ _ _ _ _ Hrun Hpost).
    unfold out_key. rewrite Hend. apply dict_lookup_set_eq.
Qed.

(** X17: the [caption] and [description] accessors agree with
    [parse_fields] on the asset record.  When the encoded field holds
    base64 of bytes that are no property list and decode as UTF-8, the
    accessor returns the text, and the mapping that [parse_fields]
    makes of the asset record's fields holds the same text under the
    key without [Enc], unless a later field is stored under that
    key. *)
Theorem text_accessors_agree_with_parse_fields
    self depth name d v raw text pre post parsed :
  fields (_asset_record self) = (pre ++ (name, VDict d) :: post)%list ->
  name ∉ pre.*1 ->
  Forall (fun kv => out_key kv.1 <> out_key name) post ->
  dict_lookup d "value" = Some v ->
  b64decode v = Ok raw ->
  BPListReader_parse (VBytes raw) = Err BadMagicException ->
  utf8_decode raw = Some text ->
  parse_fields (S depth) (fields (_asset_record self)) = Ok parsed ->
  (name = "captionEnc" ->
     caption self = Ok (VStr text)
     /\ dict_lookup parsed "caption" = Some (VStr text))
  /\ (name = "extendedDescEnc" ->
      description self = Ok (VStr text)
      /\ dict_lookup parsed "extendedDesc" = Some (VStr text)).
Proof.
  intros Hflds Hpre Hpost Hd Hraw Hmagic Htext Hrun. split; intros ->.
  - exact (encoded_text_agrees depth _ "captionEnc" d v raw text pre post parsed
             Hflds Hpre Hpost eq_refl Hd Hraw Hmagic Htext Hrun).
  - exact (encoded_text_agrees depth _ "extendedDescEnc" d v raw text pre post parsed
             Hflds Hpre Hpost eq_refl Hd Hraw Hmagic Htext Hrun).
Qed.

End memo_more.

(** ** The albums of a library *)

Section library_more.
Context `{Codecs}.

Lemma smart_fold_keys (self : Library.PhotoLibrary) items
    (acc : gmap string Library.Album) key :
  is_Some (foldl (fun acc item =>
                    <[item.1 := Library.smart_album self item.1 item.2]> acc)
                 acc items !! key)
  <-> is_Some (acc !! key) \/ key ∈ items.*1.
Proof.
  revert acc. induction items as [|[k p] items IH]; intros acc; simpl.
  - split; [auto|]. intros [Hs|Hin]; [exact Hs | inversion Hin].
  - rewrite IH, lookup_insert_is_Some, elem_of_cons. split.
    + intros [[->|[_ Hs]]|Hin]; auto.
    + intros [Hs|[->|Hin]]; auto.
      left. destruct (decide (k = key)); auto.
Qed.

Lemma fill_albums_grows self folders acc acc' err key :
  Library.fill_albums self folders acc = (acc', err) ->
  is_Some (acc !! key) -> is_Some (acc' !! key).
Proof.
  revert acc. induction folders as [|folder rest IH]; intros acc Hfill Hs;
    simpl in Hfill.
  - inversion Hfill; subst. exact Hs.
  - destruct (Library.folder_album self folder) as [[album|]|e].
    + apply (IH _ Hfill). rewrite lookup_insert_is_Some.
      destruct (decide (Library.name album = key)); auto.
    + apply (IH _ Hfill Hs).
    + inversion Hfill; subst. exact Hs.
Qed.

(** The cell that a first reading leaves, whatever its result. *)
Lemma albums_first_reading self fetch_folders r self' :
  Library.albums_unset self = true ->
  Library.albums self fetch_folders = (r, self') ->
  exists cell,
    self' = Library.set_albums self cell
    /\ (forall key, key ∈ Library.SMART_FOLDERS.*1 -> is_Some (cell !! key))
    /\ (forall stored, r = Ok stored -> stored = cell).
Proof.
  intros Hunset Hrun. unfold Library.albums in Hrun. rewrite Hunset in Hrun.
  assert (Hsmart : forall key, key ∈ Library.SMART_FOLDERS.*1 ->
                     is_Some (Library.smart_albums self !! key)).
  { intros key Hin. unfold Library.smart_albums. apply smart_fold_keys.
    right. exact Hin. }
  destruct fetch_folders as [folders|e].
  - destruct (Library.fill_albums self folders (Library.smart_albums self))
      as [acc err] eqn:Hfill.
    exists acc. destruct err as [e|]; inversion Hrun; subst.
    + split; [reflexivity|]. split; [|discriminate].
      intros key Hin. exact (fill_albums_grows _ _ _ _ _ _ Hfill (Hsmart _ Hin)).
    + split; [reflexivity|]. split; [|congruence].
      intros key Hin. exact (fill_albums_grows _ _ _ _ _ _ Hfill (Hsmart _ Hin)).
  - exists (Library.smart_albums self). inversion Hrun; subst.
    split; [reflexivity|]. split; [exact Hsmart | discriminate].
Qed.

(** X18: a first reading of [albums] that returns holds an album under
    the name of every smart album, so that [all] returns an album and
    raises no [KeyError]. *)
Theorem albums_hold_every_smart_name self fetch_folders stored self' :
  Library.albums_unset self = true ->
  Library.albums self fetch_folders = (Ok stored, self') ->
  (forall key, key ∈ Library.SMART_FOLDERS.*1 -> is_Some (stored !! key))
  /\ exists album,
       stored !! "All Photos" = Some album
       /\ Library.all self fetch_folders = (Ok album, self').
Proof.
  intros Hunset Hrun.
  destruct (albums_first_reading _ _ _ _ Hunset Hrun) as (cell & _ & Hkeys & Hcell).
  rewrite <- (Hcell _ eq_refl) in Hkeys. split; [exact Hkeys|].
  destruct (Hkeys "All Photos") as [album Halbum]; [vm_compute; set_solver|].
  exists album. split; [exact Halbum|].
  unfold Library.all. rewrite Hrun. simpl. rewrite Halbum. reflexivity.
Qed.

Lemma fill_albums_app self pre post acc :
  Library.fill_albums self (pre ++ post)%list acc
  = match Library.fill_albums self pre acc with
    | (mid, None) => Library.fill_albums self post mid
    | failed => failed
    end.
Proof.
  revert acc. induction pre as [|folder pre IH]; intros acc; simpl; [reflexivity|].
  destruct (Library.folder_album self folder) as [[album|]|e];
    [apply IH | apply IH | reflexivity].
Qed.

Lemma folder_album_passed_over self folder :
  Library.passed_over folder -> Library.folder_album self folder = Ok None.
Proof.
  unfold Library.folder_album, Library.passed_over.
  intros [Hname|[Hroot|(d & v & Hdel & Hd & Hv)]].
  - rewrite Hname. reflexivity.
  - destruct (dict_mem (fields folder) "albumNameEnc"); [|reflexivity]. simpl.
    unfold Library.is_skipped. rewrite bool_decide_eq_true_2 by exact Hroot.
    reflexivity.
  - destruct (dict_mem (fields folder) "albumNameEnc"); [|reflexivity]. simpl.
    unfold Library.is_skipped.
    destruct (bool_decide (recordName folder ∈ Library.ROOT_FOLDERS));
      [reflexivity|].
    unfold dict_get, dict_item. rewrite Hdel.
    assert (Htrue : truthy (VDict d) = true).
    { destruct d; [discriminate Hd | reflexivity]. }
    rewrite Htrue. simpl. unfold dict_item. rewrite Hd. simpl. rewrite Hv.
    reflexivity.
Qed.

(** X20: a folder without a name, a root folder and a folder marked as
    deleted are passed over: [albums] returns or raises, and stores,
    what it does without that folder in the response.  Neither the
    name of such a folder is decoded nor, for the first two, its
    deletion mark read. *)
Theorem albums_pass_over_folder self pre folder post :
  Library.passed_over folder ->
  Library.albums self (Ok (pre ++ folder :: post)%list)
  = Library.albums self (Ok (pre ++ post)%list).
Proof.
  intros Hover. unfold Library.albums.
  destruct (Library.albums_unset self); [|reflexivity].
  rewrite !fill_albums_app.
  destruct (Library.fill_albums self pre (Library.smart_albums self))
    as [mid [e|]]; [reflexivity|].
  simpl. rewrite (folder_album_passed_over _ _ Hover). reflexivity.
Qed.

Lemma fill_albums_keeps self folders acc acc' key :
  Library.fill_albums self folders acc = (acc', None) ->
  Forall (fun folder => forall album,
            Library.folder_album self folder = Ok (Some album) ->
            Library.name album <> key) folders ->
  acc' !! key = acc !! key.
Proof.
  revert acc. induction folders as [|folder rest IH]; intros acc Hfill Hall;
    simpl in Hfill.
  - inversion Hfill. reflexivity.
  - apply Forall_cons in Hall as [Hfolder Hall].
    destruct (Library.folder_album self folder) as [[album|]|e]; [| |discriminate].
    + rewrite (IH _ Hfill Hall). apply lookup_insert_ne. exact (Hfolder _ eq_refl).
    + exact (IH _ Hfill Hall).
Qed.

Lemma is_skipped_true folder :
  Library.is_skipped folder = Ok true -> Library.passed_over folder.
Proof.
  unfold Library.is_skipped, Library.passed_over. intros Hskip. right.
  destruct (bool_decide (recordName folder ∈ Library.ROOT_FOLDERS)) eqn:Hroot.
  - left. apply bool_decide_eq_true_1 in Hroot. exact Hroot.
  - right. unfold dict_get, dict_item in Hskip.
    destruct (dict_lookup (fields folder) "isDeleted") as [entry|];
      [|discriminate Hskip].
    destruct (truthy entry); [|discriminate Hskip].
    simpl in Hskip. destruct entry as [| | | | | | | | |d]; try discriminate Hskip.
    simpl in Hskip. unfold dict_item in Hskip.
    destruct (dict_lookup d "value") as [v|] eqn:Hv; [|discriminate Hskip].
    simpl in Hskip. exists d, v. split; [reflexivity|]. split; [exact Hv|].
    congruence.
Qed.

(** X21: the album of a user folder.  A folder that is not passed
    over, and whose [albumNameEnc] value is base64 of UTF-8 text, is
    stored under that text, replacing a smart album or an earlier
    folder of that name unless a later folder has the name.  The album
    has the text as its name and the folder's record name as its id;
    it lists the records whose [parentId] is the record name, in the
    library's zone; and it is never marked as shared, whatever the
    library is. *)
Theorem albums_store_folder_album
    self pre folder post stored self' name_entry encoded raw folder_name :
  Library.albums_unset self = true ->
  Library.albums self (Ok (pre ++ folder :: post)%list) = (Ok stored, self') ->
  ~ Library.passed_over folder ->
  dict_lookup (fields folder) "albumNameEnc" = Some (VDict name_entry) ->
  dict_lookup name_entry "value" = Some encoded ->
  b64decode encoded = Ok raw ->
  utf8_decode raw = Some folder_name ->
  Forall (fun later => forall other,
            Library.folder_album self later = Ok (Some other) ->
            Library.name other <> folder_name) post ->
  exists album,
    stored !! folder_name = Some album
    /\ Library.name album = folder_name
    /\ Library.shared album = false
    /\ Library.id album = Some (recordName folder)
    /\ Library._folder album = Some folder
    /\ list_type (Library.query album) = "CPLContainerRelationLiveByAssetDate"
    /\ obj_type (Library.query album)
       = "CPLContainerRelationNotDeletedByAssetDate:" +:+ recordName folder
    /\ direction (Library.query album) = "ASCENDING"
    /\ query_filter (Library.query album)
       = Some [VDict [("fieldName", VStr "parentId");
                      ("comparator", VStr "EQUALS");
                      ("fieldValue", VDict [("type", VStr "STRING");
                                            ("value", VStr (recordName folder))])]]
    /\ page_size (Library.query album) = 100
    /\ zone_id (Library.query album)
       = (if truthy (Library.lib_zone_id self) then Library.lib_zone_id self
          else VDict [("zoneName", VStr "PrimarySync")]).
Proof.
  intros Hunset Hrun Hover Hentry Hvalue Hraw Htext Hpost.
  unfold Library.albums in Hrun. rewrite Hunset, fill_albums_app in Hrun.
  destruct (Library.fill_albums self pre (Library.smart_albums self))
    as [mid [e|]]; [discriminate|].
  simpl in Hrun.
  set (album := Library.PhotoAlbum_init folder_name
                  "CPLContainerRelationLiveByAssetDate"
                  ("CPLContainerRelationNotDeletedByAssetDate:" +:+ recordName folder)
                  "ASCENDING"
                  (Some (Library.equals_filter "parentId" (recordName folder)))
                  (Library.lib_zone_id self) (Some folder) false).
  assert (Halbum : match Library.is_skipped folder with
                   | Ok false => Library.folder_album self folder = Ok (Some album)
                   | Ok true => Library.folder_album self folder = Ok None
                   | Err e => Library.folder_album self folder = Err e
                   end).
  { unfold Library.folder_album, dict_mem, dict_get. rewrite Hentry. simpl.
    destruct (Library.is_skipped folder) as [[|]|e]; simpl; try reflexivity.
    unfold dict_get. rewrite Hvalue. simpl. rewrite Hraw. simpl. rewrite Htext.
    reflexivity. }
  destruct (Library.is_skipped folder) as [[|]|e] eqn:Hskip.
  - exfalso. apply Hover. apply is_skipped_true. exact Hskip.
  - rewrite Halbum in Hrun.
    destruct (Library.fill_albums self post (<[Library.name album := album]> mid))
      as [acc [e|]] eqn:Hfill; [discriminate|].
    inversion Hrun; subst. exists album. split.
    + rewrite (fill_albums_keeps _ _ _ _ folder_name Hfill Hpost).
      apply lookup_insert_eq.
    + repeat split.
  - rewrite Halbum in Hrun. discriminate Hrun.
Qed.

Lemma fill_albums_failure self folders acc acc' e :
  Library.fill_albums self folders acc = (acc', Some e) ->
  exists reached folder post,
    folders = (reached ++ folder :: post)%list
    /\ Library.folder_album self folder = Err e
    /\ Library.fill_albums self reached acc = (acc', None).
Proof.
  revert acc. induction folders as [|folder folders IH]; intros acc Hfill;
    simpl in Hfill; [discriminate|].
  destruct (Library.folder_album self folder) as [[album|]|e0] eqn:Hf.
  - destruct (IH _ Hfill) as (reached & failing & post & -> & Hfail & Hr).
    exists (folder :: reached), failing, post.
    split; [reflexivity|]. split; [exact Hfail|]. simpl. rewrite Hf. exact Hr.
  - destruct (IH _ Hfill) as (reached & failing & post & -> & Hfail & Hr).
    exists (folder :: reached), failing, post.
    split; [reflexivity|]. split; [exact Hfail|]. simpl. rewrite Hf. exact Hr.
  - inversion Hfill; subst. exists [], folder, folders.
    split; [reflexivity|]. split; [exact Hf | reflexivity].
Qed.

Lemma fill_albums_keys self folders acc acc' err key :
  Library.fill_albums self folders acc = (acc', err) ->
  is_Some (acc' !! key) ->
  is_Some (acc !! key)
  \/ exists folder album,
       folder ∈ folders
       /\ Library.folder_album self folder = Ok (Some album)
       /\ Library.name album = key.
Proof.
  revert acc. induction folders as [|folder folders IH]; intros acc Hfill Hs;
    simpl in Hfill.
  - inversion Hfill; subst. left. exact Hs.
  - destruct (Library.folder_album self folder) as [[album|]|e0] eqn:Hf.
    + destruct (IH _ Hfill Hs) as [Hacc|(f & a & Hin & Hfa & Hname)].
      * apply lookup_insert_is_Some in Hacc as [Heq|[_ Hacc]]; [|left; exact Hacc].
        right. exists folder, album. split; [left|]. split; [exact Hf | exact Heq].
      * right. exists f, a. split; [right; exact Hin|]. split; assumption.
    + destruct (IH _ Hfill Hs) as [Hacc|(f & a & Hin & Hfa & Hname)];
        [left; exact Hacc|].
      right. exists f, a. split; [right; exact Hin|]. split; assumption.
    + inversion Hfill; subst. left. exact Hs.
Qed.

Lemma smart_albums_lookup self key props :
  (key, props) ∈ Library.SMART_FOLDERS ->
  Library.smart_albums self !! key = Some (Library.smart_album self key props).
Proof.
  intros Hin. unfold Library.SMART_FOLDERS in Hin.
  repeat (apply elem_of_cons in Hin as [Heq|Hin];
          [inversion Heq; subst; vm_compute; reflexivity|]).
  inversion Hin.
Qed.

Lemma fill_albums_holds self reached cell :
  Library.fill_albums self reached (Library.smart_albums self) = (cell, None) ->
  Library.holds self reached cell.
Proof.
  intros Hfill. split; [|split].
  - intros pre folder post album -> Hf Hpost.
    rewrite fill_albums_app in Hfill.
    destruct (Library.fill_albums self pre (Library.smart_albums self))
      as [mid [e|]]; [discriminate|].
    simpl in Hfill. rewrite Hf in Hfill.
    rewrite (fill_albums_keeps _ _ _ _ _ Hfill Hpost). apply lookup_insert_eq.
  - intros key props Hin Hnone.
    rewrite (fill_albums_keeps _ _ _ _ _ Hfill Hnone).
    apply smart_albums_lookup. exact Hin.
  - intros key Hs.
    destruct (fill_albums_keys _ _ _ _ _ _ Hfill Hs) as [Hsmart|Hfolder];
      [|right; exact Hfolder].
    left. unfold Library.smart_albums in Hsmart.
    apply smart_fold_keys in Hsmart as [[x Hx]|Hin]; [|exact Hin].
    rewrite lookup_empty in Hx. discriminate Hx.
Qed.

(** X19: the folders are fetched once at most.  After a first reading
    of [albums], whether it returned or raised, every later reading
    returns the albums stored by then, whatever the record store would
    answer, and the exception is not raised again.  After an exception
    of the request the stored albums are the smart albums; after an
    exception at a folder they are the smart albums and the albums of
    the folders before that folder. *)
Theorem albums_are_fetched_once self fetch_folders r self' :
  Library.albums_unset self = true ->
  Library.albums self fetch_folders = (r, self') ->
  exists cell,
    Library._albums self' = Some cell
    /\ (forall stored, r = Ok stored -> stored = cell)
    /\ (forall later, Library.albums self' later = (Ok cell, self'))
    /\ (forall e,
          r = Err e ->
          exists reached,
            ((fetch_folders = Err e /\ reached = [])
             \/ exists folder post,
                  fetch_folders = Ok (reached ++ folder :: post)%list
                  /\ Library.folder_album self folder = Err e)
            /\ Library.holds self reached cell).
Proof.
  intros Hunset Hrun.
  destruct (albums_first_reading _ _ _ _ Hunset Hrun) as (cell & Hself & Hkeys & Hcell).
  exists cell. split; [rewrite Hself; reflexivity|]. split; [exact Hcell|]. split.
  - intros later. rewrite Hself. unfold Library.albums.
    change (Library.albums_unset (Library.set_albums self cell))
      with (bool_decide (cell = ∅)).
    rewrite bool_decide_eq_false_2; [reflexivity|].
    intros ->. destruct (Hkeys "All Photos") as [album Halbum];
      [vm_compute; repeat constructor|].
    rewrite lookup_empty in Halbum. discriminate Halbum.
  - intros e ->. unfold Library.albums in Hrun. rewrite Hunset, Hself in Hrun.
    destruct fetch_folders as [folders|e0].
    + destruct (Library.fill_albums self folders (Library.smart_albums self))
        as [acc [e1|]] eqn:Hfill; [|discriminate].
      inversion Hrun; subst e1 acc.
      destruct (fill_albums_failure _ _ _ _ _ Hfill)
        as (reached & folder & post & -> & Hfail & Hreached).
      exists reached. split.
      * right. exists folder, post. split; [reflexivity | exact Hfail].
      * apply fill_albums_holds. exact Hreached.
    + assert (Hsame : e0 = e /\ Library.smart_albums self = cell).
      { inversion Hrun. split; first [reflexivity | assumption]. }
      destruct Hsame as [-> <-]. exists []. split.
      * left. split; reflexivity.
      * apply fill_albums_holds. reflexivity.
Qed.

End library_more.

Section dimensions_more.
Context `{Codecs}.

Lemma build_version_width_height self flds prefix version :
  build_version self flds prefix = Ok version ->
  entry_value (dict_get flds (prefix +:+ "Width") VNone) = Ok (v_width version)
  /\ entry_value (dict_get flds (prefix +:+ "Height") VNone) = Ok (v_height version).
Proof.
  intros Hb. unfold build_version in Hb.
  destruct (filename self) as [name|?]; [|discriminate].
  cbn [mbind result_bind] in Hb.
  destruct (entry_value (dict_get flds (prefix +:+ "Width") VNone))
    as [width|?]; [|discriminate].
  destruct (entry_value (dict_get flds (prefix +:+ "Height") VNone))
    as [height|?]; [|discriminate].
  cbn [mbind result_bind] in Hb.
  match type of Hb with
  | (?m ≫= _) = _ => destruct m as [size_url|?]; [|discriminate]
  end.
  cbn [mbind result_bind] in Hb.
  destruct (truthy (dict_get flds (prefix +:+ "FileType") VNone)).
  - destruct (getitem _ "value") as [tag|?]; [|discriminate].
    cbn [mbind result_bind] in Hb.
    destruct (table_find ITEM_TYPE_SUFFIX tag) as [known|?]; [|discriminate].
    inversion Hb; subst version. split; reflexivity.
  - inversion Hb; subst version. split; reflexivity.
Qed.

(** X22: when the master record has an original size entry and the
    asset record has none, and the master record's width and height
    entries are there and not empty, the [dimensions] of the asset are
    the width and height of its [original] version. *)
Theorem dimensions_are_original_version_dimensions self vs self' w_entry h_entry :
  versions_unset self = true ->
  versions self = (Ok vs, self') ->
  dict_mem (fields (_master_record self)) "resOriginalRes" = true ->
  dict_mem (fields (_asset_record self)) "resOriginalRes" = false ->
  dict_lookup (fields (_master_record self)) "resOriginalWidth" = Some w_entry ->
  truthy w_entry = true ->
  dict_lookup (fields (_master_record self)) "resOriginalHeight" = Some h_entry ->
  truthy h_entry = true ->
  exists version,
    vs !! "original" = Some version
    /\ dimensions self = Ok (VTuple [v_width version; v_height version]).
Proof.
  intros Hunset Hv Hmaster Hasset Hw Hwt Hh Hht.
  destruct (item_type self) as [kind|e] eqn:Hkind.
  2: { unfold versions in Hv. rewrite Hunset, Hkind in Hv. discriminate Hv. }
  destruct (versions_computed _ _ _ _ Hunset Hkind Hv) as (acc & Hm & Ha).
  assert (Hin : ("original", "resOriginal")
                ∈ (if String.eqb kind "movie" then VIDEO_VERSION_LOOKUP
                   else PHOTO_VERSION_LOOKUP)).
  { destruct (String.eqb kind "movie"); vm_compute; set_solver. }
  destruct (fill_versions_lookup _ _ _ (version_lookup_NoDup kind) _ _ Hm)
    as [Hlook _].
  destruct (Hlook "original" "resOriginal" Hin Hmaster) as (version & Hb & Hget).
  exists version. split.
  - rewrite (fill_versions_untouched _ _ _ _ _ "original" Ha); [exact Hget|].
    intros prefix' Hin'. rewrite (lookup_prefix_unique _ _ _ _ Hin Hin'). exact Hasset.
  - destruct (build_version_width_height _ _ _ _ Hb) as [Hwidth Hheight].
    change ("resOriginal" +:+ "Width") with "resOriginalWidth" in Hwidth.
    change ("resOriginal" +:+ "Height") with "resOriginalHeight" in Hheight.
    unfold entry_value, dict_get in Hwidth, Hheight.
    rewrite Hw, Hwt in Hwidth. rewrite Hh, Hht in Hheight.
    unfold dimensions, dict_item. rewrite Hw. simpl. rewrite Hwidth. simpl.
    rewrite Hh. simpl. rewrite Hheight. reflexivity.
Qed.

End dimensions_more.

(** ** The further properties on concrete records *)

Import MoreSamples.

Lemma not_occurs_char c s :
  ~ In c (list_ascii_of_string s) -> ~ occurs_in (String c "") s.
Proof.
  intros Hno (a & b & ->). apply Hno. clear Hno.
  induction a as [|x a IH].
  - left. reflexivity.
  - rewrite str_app_cons. right. exact IH.
Qed.

Lemma partition_keeps_last_asset_witness :
  [master "m0"; master "m1"; master "m2"] = masters_of page_gap_2
  /\ forall s, gap_2_assets !! s = last (List.filter (names_master s) page_gap_2).
Proof.
  exact (partition_keeps_last_asset page_gap_2 gap_2_assets
           [master "m0"; master "m1"; master "m2"]
           ltac:(vm_compute; reflexivity)).
Defined.

Lemma yielded_assets_are_joined_pairs_witness :
  well_joined first_photo
  /\ exists page,
       page ∈ answers two_pages 0
                (fetched (events (fetch_records all_photos two_pages 0 None)))
       /\ _master_record first_photo ∈ page
       /\ _asset_record first_photo ∈ page.
Proof.
  refine (yielded_assets_are_joined_pairs all_photos two_pages 0 None first_photo _).
  vm_compute. repeat constructor.
Defined.

Lemma queries_follow_the_yields_witness :
  startRank (page_request all_photos 2)
    = (if String.eqb (direction all_photos) "DESCENDING"
       then 0 - Z.of_nat (List.length (yielded (take 3 listing)))
       else 0 + Z.of_nat (List.length (yielded (take 3 listing))))
  /\ req_recordType (page_request all_photos 2) = list_type all_photos
  /\ req_direction (page_request all_photos 2) = direction all_photos
  /\ resultsLimit (page_request all_photos 2) = page_size all_photos * 2
  /\ extra_filters (page_request all_photos 2) = default [] (query_filter all_photos)
  /\ req_zoneID (page_request all_photos 2) = zone_id all_photos.
Proof.
  refine (queries_follow_the_yields all_photos two_pages 0 None
            (take 3 listing) (page_request all_photos 2) (drop 4 listing) _).
  vm_compute. reflexivity.
Defined.

Lemma queries_bounded_by_limit_witness :
  (List.length (fetched (events (fetch_records all_photos two_pages 0%Z (Some 1%Z))))
   <= Z.to_nat 1)%nat.
Proof.
  refine (proj1 (queries_bounded_by_limit all_photos two_pages 0 (Some 1) 1 _)).
  reflexivity.
Defined.

Lemma photos_first_query_witness :
  exists rest,
    events (photos all_photos two_pages)
    = Fetch (page_request all_photos
               (if String.eqb (direction all_photos) "DESCENDING"
                then item_count two_pages - 1 else 0)) :: rest.
Proof.
  refine (proj1 (proj2 (photos_first_query all_photos two_pages)) _).
  split; [reflexivity | discriminate].
Defined.

Lemma parse_fields_keys_witness :
  NoDup [("caption", VStr "hello"); ("isFavorite", VInt 1)].*1
  /\ forall k,
       k ∈ [("caption", VStr "hello"); ("isFavorite", VInt 1)].*1
       <-> k ∈ (out_key <$> [("captionEnc", VStr "aGVsbG8=");
                             ("isFavorite", env (VInt 1))].*1).
Proof.
  refine (parse_fields_keys (H := Ref.codecs) 1
            [("captionEnc", VStr "aGVsbG8="); ("isFavorite", env (VInt 1))]
            [("caption", VStr "hello"); ("isFavorite", VInt 1)] _).
  vm_compute. reflexivity.
Defined.

Lemma parse_fields_last_field_wins_witness :
  exists val,
    parse_field (parse_fields 0) "captionEnc" (VStr "aGVsbG8=")
    = Ok (out_key "captionEnc", val)
    /\ dict_lookup [("caption", VStr "hello"); ("isFavorite", VInt 1)]
                   (out_key "captionEnc") = Some val.
Proof.
  refine (parse_fields_last_field_wins (H := Ref.codecs) 0
            [("caption", VStr "old")] "captionEnc" (VStr "aGVsbG8=")
            [("isFavorite", VInt 1)]
            [("caption", VStr "hello"); ("isFavorite", VInt 1)] _ _).
  - vm_compute. reflexivity.
  - repeat constructor. vm_compute. discriminate.
Defined.

Lemma parse_fields_deeper_witness :
  parse_fields 3 [("captionEnc", VStr "aGVsbG8=")] = Ok [("caption", VStr "hello")].
Proof.
  refine (parse_fields_deeper (H := Ref.codecs) 1 3 _ _ _ _).
  - vm_compute. reflexivity.
  - lia.
Defined.

Lemma parse_fields_plain_record_witness :
  parse_fields 1 [("isFavorite", env (VInt 1)); ("pair", VTuple [VInt 1; VInt 2])]
  = Ok [("isFavorite", VInt 1); ("pair", VInt 2)].
Proof.
  refine (parse_fields_plain_record (H := Ref.codecs) 0
            [("isFavorite", env (VInt 1)); ("pair", VTuple [VInt 1; VInt 2])] _ _).
  - refine (bool_decide_unpack (NoDup _) _). vm_compute. exact I.
  - repeat constructor; try (intros d; vm_compute; discriminate).
Defined.

Lemma versions_tiers_witness :
  is_Some (photo_versions !! "thumb")
  <-> exists prefix,
        ("thumb", prefix) ∈ (if String.eqb "image" "movie" then VIDEO_VERSION_LOOKUP
                             else PHOTO_VERSION_LOOKUP)
        /\ (dict_mem (fields (_master_record photo)) (prefix +:+ "Res") = true
            \/ dict_mem (fields (_asset_record photo)) (prefix +:+ "Res") = true).
Proof.
  exact (versions_tiers (H := Ref.codecs) photo "image" photo_versions photo_after
           "thumb"
           ltac:(reflexivity)
           ltac:(vm_compute; reflexivity)
           ltac:(vm_compute; reflexivity)).
Defined.

Lemma versions_master_only_tier_witness :
  exists version,
    build_version photo (fields (_master_record photo)) "resOriginal" = Ok version
    /\ photo_versions !! "original" = Some version.
Proof.
  exact (versions_master_only_tier (H := Ref.codecs) photo "image" "original"
           "resOriginal" photo_versions photo_after
           ltac:(reflexivity)
           ltac:(vm_compute; reflexivity)
           ltac:(vm_compute; set_solver)
           ltac:(reflexivity)
           ltac:(reflexivity)
           ltac:(vm_compute; reflexivity)).
Defined.

Lemma size_is_original_version_size_witness :
  exists version,
    photo_versions !! "original" = Some version
    /\ size photo = Ok (v_size version).
Proof.
  exact (size_is_original_version_size (H := Ref.codecs) photo photo_versions
           photo_after (res 1000 "https://master/original")
           ltac:(reflexivity)
           ltac:(vm_compute; reflexivity)
           ltac:(reflexivity)
           ltac:(reflexivity)
           ltac:(reflexivity)).
Defined.

Lemma version_filename_rule_witness :
  v_filename original_version = "IMG_0001" +:+ "." +:+ "JPEG".
Proof.
  destruct (version_filename_rule (H := Ref.codecs) photo (fields photo_master)
              "resOriginal" original_version "IMG_0001.JPG"
              ltac:(vm_compute; reflexivity) ltac:(vm_compute; reflexivity))
    as [_ Htyped].
  destruct (Htyped eq_refl) as (tag & known & Htag & Hknown & _ & Hrule & _).
  vm_compute in Htag. inversion Htag; subst tag.
  vm_compute in Hknown. inversion Hknown; subst known.
  refine (Hrule "IMG_0001" "JPG" eq_refl _).
  apply not_occurs_char. simpl. intuition discriminate.
Defined.

Lemma download_reads_versions_witness :
  download photo "thumb" = (Ok (v_url <$> photo_versions !! "thumb"), photo_after).
Proof.
  refine (download_reads_versions (H := Ref.codecs) photo photo_versions
            photo_after "thumb" _).
  vm_compute. reflexivity.
Defined.

Lemma versions_after_failure_witness :
  versions stale_after = (Ok stale_cell, stale_after)
  /\ stale_cell !! "thumb" = Some master_thumb
  /\ stale_cell !! "full" = None.
Proof.
  destruct (versions_after_failure (H := Ref.codecs) stale KeyError stale_after
              eq_refl ltac:(vm_compute; reflexivity))
    as (partial & Hcell & _ & Hfull & _).
  assert (Hpartial : partial = stale_cell).
  { unfold stale_cell. rewrite Hcell. reflexivity. }
  rewrite Hpartial in Hfull.
  refine (conj (Hfull _) (conj _ _)).
  - intros Hempty.
    assert (Hthumb : stale_cell !! "thumb" = None) by (rewrite Hempty; reflexivity).
    vm_compute in Hthumb. discriminate Hthumb.
  - vm_compute. reflexivity.
  - vm_compute. reflexivity.
Defined.

Lemma text_accessors_agree_with_parse_fields_witness :
  caption titled = Ok (VStr "hello")
  /\ dict_lookup [("caption", VStr "hello"); ("isFavorite", VInt 1)] "caption"
     = Some (VStr "hello").
Proof.
  refine (proj1 (text_accessors_agree_with_parse_fields (H := Ref.codecs) titled 0
                   "captionEnc" [("value", VStr "aGVsbG8=")] (VStr "aGVsbG8=")
                   hello_bytes "hello" [] [("isFavorite", env (VInt 1))]
                   [("caption", VStr "hello"); ("isFavorite", VInt 1)]
                   _ _ _ _ _ _ _ _) eq_refl).
  - reflexivity.
  - apply not_elem_of_nil.
  - repeat constructor. vm_compute. discriminate.
  - reflexivity.
  - vm_compute. reflexivity.
  - vm_compute. reflexivity.
  - vm_compute. reflexivity.
  - vm_compute. reflexivity.
Defined.

Lemma albums_hold_every_smart_name_witness :
  exists album,
    library_albums !! "All Photos" = Some album
    /\ Library.all library (Ok [folder_root; folder_hello])
       = (Ok album, sound_reading.2).
Proof.
  refine (proj2 (albums_hold_every_smart_name (H := Ref.codecs) library
                   (Ok [folder_root; folder_hello]) library_albums
                   sound_reading.2 _ _)).
  - reflexivity.
  - vm_compute. reflexivity.
Defined.

Lemma albums_are_fetched_once_witness :
  exists cell,
    Library._albums failed_reading.2 = Some cell
    /\ cell !! "hello" = Some hello_album
    /\ forall later,
         Library.albums failed_reading.2 later = (Ok cell, failed_reading.2).
Proof.
  destruct (albums_are_fetched_once (H := Ref.codecs) library
              (Ok [folder_hello; folder_bad]) (Err AttributeError)
              failed_reading.2 eq_refl ltac:(vm_compute; reflexivity))
    as (cell & Hcell & _ & Hlater & Hcontent).
  exists cell. split; [exact Hcell|]. split; [|exact Hlater].
  destruct (Hcontent AttributeError eq_refl) as (reached & Hwhere & Hholds & _ & _).
  destruct Hwhere as [[Hrequest _]|(folder & post & Hfolders & Hfail)];
    [discriminate Hrequest|].
  assert (Hlist : [folder_hello; folder_bad] = (reached ++ folder :: post)%list)
    by (inversion Hfolders; reflexivity).
  clear Hfolders. destruct reached as [|a [|b reached]].
  - exfalso. inversion Hlist; subst folder. vm_compute in Hfail. discriminate Hfail.
  - inversion Hlist; subst a.
    exact (Hholds [] folder_hello [] hello_album eq_refl
             ltac:(vm_compute; reflexivity) ltac:(constructor)).
  - exfalso. inversion Hlist as [[Ha Hb Hnil]].
    destruct reached; discriminate Hnil.
Defined.

Lemma albums_pass_over_folder_witness :
  Library.albums library (Ok ([folder_hello] ++ folder_deleted :: [])%list)
  = Library.albums library (Ok ([folder_hello] ++ [])%list).
Proof.
  refine (albums_pass_over_folder (H := Ref.codecs) library [folder_hello]
            folder_deleted [] _).
  right. right. exists [("value", VInt 1)], (VInt 1).
  split; [reflexivity|]. split; reflexivity.
Defined.

Lemma albums_store_folder_album_witness :
  exists album,
    library_albums !! "hello" = Some album
    /\ Library.name album = "hello"
    /\ Library.shared album = false
    /\ Library.id album = Some (recordName folder_hello)
    /\ Library._folder album = Some folder_hello
    /\ list_type (Library.query album) = "CPLContainerRelationLiveByAssetDate"
    /\ obj_type (Library.query album)
       = "CPLContainerRelationNotDeletedByAssetDate:" +:+ recordName folder_hello
    /\ direction (Library.query album) = "ASCENDING"
    /\ query_filter (Library.query album)
       = Some [VDict [("fieldName", VStr "parentId");
                      ("comparator", VStr "EQUALS");
                      ("fieldValue", VDict [("type", VStr "STRING");
                                            ("value", VStr (recordName folder_hello))])]]
    /\ page_size (Library.query album) = 100
    /\ zone_id (Library.query album)
       = (if truthy (Library.lib_zone_id library) then Library.lib_zone_id library
          else VDict [("zoneName", VStr "PrimarySync")]).
Proof.
  refine (albums_store_folder_album (H := Ref.codecs) library [folder_root]
            folder_hello [] library_albums sound_reading.2
            [("value", VStr "aGVsbG8=")] (VStr "aGVsbG8=") hello_bytes "hello"
            _ _ _ _ _ _ _ _).
  - reflexivity.
  - vm_compute. reflexivity.
  - intros [Hname|[Hroot|(d & v & Hdeleted & _)]].
    + vm_compute in Hname. discriminate Hname.
    + apply list_elem_of_In in Hroot.
      destruct Hroot as [Hr|[Hr|[]]]; vm_compute in Hr; discriminate Hr.
    + vm_compute in Hdeleted. discriminate Hdeleted.
  - reflexivity.
  - reflexivity.
  - vm_compute. reflexivity.
  - vm_compute. reflexivity.
  - constructor.
Defined.

Example shared_library_albums :
  Library.shared <$> library_albums !! "Favorites" = Some true
  /\ Library.shared <$> library_albums !! "hello" = Some false
  /\ Library.id <$> library_albums !! "Favorites" = Some None
  /\ base.size library_albums = 13%nat.
Proof. repeat split; vm_compute; reflexivity. Qed.

Lemma dimensions_are_original_version_dimensions_witness :
  exists version,
    photo_versions !! "original" = Some version
    /\ dimensions photo = Ok (VTuple [v_width version; v_height version]).
Proof.
  exact (dimensions_are_original_version_dimensions (H := Ref.codecs) photo
           photo_versions photo_after (env (VInt 4032)) (env (VInt 3024))
           ltac:(reflexivity)
           ltac:(vm_compute; reflexivity)
           ltac:(reflexivity)
           ltac:(reflexivity)
           ltac:(reflexivity)
           ltac:(reflexivity)
           ltac:(reflexivity)
           ltac:(reflexivity)).
Defined.

(** A count that [len] cannot fit into an index ends the listing
    before any query, whatever the direction. *)
Example photos_of_overflowing_count :
  let r := photos all_photos (serving [page_1] (2 ^ 63)) in
  events r = [] /\ ending r = Some (OtherError "OverflowError").
Proof. split; vm_compute; reflexivity. Qed.
